(** * The Lee speckle filter and the raster glue of the SAR sample-data notebooks

    The notebooks call three pieces of array code:

    - [lee_filter] and [apply_lee_filter] (uow_loading_example.ipynb),
    - the masking step [xr.where(mask == 0, band, np.nan)],
    - the decibel conversion [10 * np.log10(band)].

    The arrays are numpy arrays of IEEE floats.  The array code below is
    written once, over an abstract scalar type, and read at two scalar
    types: [xq], exact rational arithmetic completed with the IEEE special
    values (no rounding, no overflow; a division by zero gives an infinity
    or NaN exactly as IEEE does), and [float], Rocq's binary64 numbers.
    Theorems on the values of the filter are stated at [xq], as statements
    of exact arithmetic; what follows from the IEEE rules on zeros,
    infinities and NaN alone is proved for [float] as well; and [float]
    runs the code on concrete inputs where rounding matters.

    [scipy.ndimage.uniform_filter] and [numpy.var] are library functions;
    they are modelled after the libraries: the window mean with
    [mode='reflect'] and [origin=0], and the population variance.  In
    binary64 the order of the additions matters, and the model keeps the
    libraries' own: scipy moves the mean along each line, adding the cell
    that enters the window and subtracting the one that leaves, and numpy
    adds the cells pairwise.  On finite samples in exact arithmetic these
    are the mean of each window and the variance of the samples; every
    theorem that depends on the values of the filter assumes finite
    samples. *)

From Stdlib Require Import String ZArith QArith Qreduction List Bool Lia Lqa Floats.
From Stdlib Require Reals Lra.
From Stdlib Require Import Ascii.
From Stdlib Require Decimal DecimalString DecimalNat.
Import ListNotations.

Set Implicit Arguments.
Set Warnings "-register-all".

(** ** Exceptions of the library calls *)

Inductive exn : Type :=
| RuntimeError (msg : string)
| ValueError (msg : string).

Inductive result (A : Type) : Type :=
| Ok (a : A)
| Raise (e : exn).

Arguments Ok {A} a.
Arguments Raise {A} e.

Definition bind {A B : Type} (r : result A) (k : A -> result B) : result B :=
  match r with
  | Ok a => k a
  | Raise e => Raise e
  end.

Notation "x <- c ;; k" := (bind c (fun x => k))
  (at level 61, c at next level, right associativity).

Definition fmap {A B : Type} (f : A -> B) (r : result A) : result B :=
  x <- r ;; Ok (f x).

(** ** Scalars *)

Class Scalar (T : Type) : Type := {
  of_int : Z -> T;          (* a Python int used in float arithmetic *)
  sadd : T -> T -> T;
  ssub : T -> T -> T;
  smul : T -> T -> T;
  sdiv : T -> T -> T;
  snan : T;                 (* np.nan *)
  sisnan : T -> bool        (* np.isnan *)
}.

Declare Scope scalar_scope.
Delimit Scope scalar_scope with S.
Infix "+" := sadd : scalar_scope.
Infix "-" := ssub : scalar_scope.
Infix "*" := smul : scalar_scope.
Infix "/" := sdiv : scalar_scope.

(** *** Exact arithmetic with the IEEE special values *)

Inductive xq : Type :=
| Num (q : Q)
| PosInf
| NegInf
| NaN.

(** Results are kept in lowest terms, so that runs print readably. *)
Definition num (q : Q) : xq := Num (Qred q).

(** Sign of a scalar that is not NaN. *)
Definition xsign (a : xq) : comparison :=
  match a with
  | Num q => q ?= 0
  | PosInf => Gt
  | NegInf => Lt
  | NaN => Eq
  end.

Definition sign_mul (s t : comparison) : comparison :=
  match s, t with
  | Eq, _ | _, Eq => Eq
  | Lt, Lt | Gt, Gt => Gt
  | Lt, Gt | Gt, Lt => Lt
  end.

(** An infinity of the given sign; a zero sign stands for the invalid
    operations (0 * inf, 0 / 0), whose result is NaN. *)
Definition xinf (s : comparison) : xq :=
  match s with
  | Gt => PosInf
  | Lt => NegInf
  | Eq => NaN
  end.

Definition xadd (a b : xq) : xq :=
  match a, b with
  | NaN, _ | _, NaN => NaN
  | Num p, Num q => num (p + q)
  | PosInf, NegInf | NegInf, PosInf => NaN
  | PosInf, _ | _, PosInf => PosInf
  | NegInf, _ | _, NegInf => NegInf
  end.

Definition xopp (a : xq) : xq :=
  match a with
  | Num q => num (- q)
  | PosInf => NegInf
  | NegInf => PosInf
  | NaN => NaN
  end.

Definition xsub (a b : xq) : xq :=
  match a, b with
  | Num p, Num q => num (p - q)
  | _, _ => xadd a (xopp b)
  end.

Definition xmul (a b : xq) : xq :=
  match a, b with
  | NaN, _ | _, NaN => NaN
  | Num p, Num q => num (p * q)
  | _, _ => xinf (sign_mul (xsign a) (xsign b))
  end.

(** IEEE division: x / 0 is an infinity of the sign of x, 0 / 0 and
    inf / inf are NaN, x / inf is 0.  There is one zero, the positive
    one. *)
Definition xdiv (a b : xq) : xq :=
  match a, b with
  | NaN, _ | _, NaN => NaN
  | Num p, Num q => if Qeq_bool q 0 then xinf (p ?= 0) else num (p / q)
  | Num _, _ => Num 0
  | _, Num q => xinf (sign_mul (xsign a) (if Qle_bool 0 q then Gt else Lt))
  | _, _ => NaN
  end.

Definition xisnan (a : xq) : bool :=
  match a with
  | NaN => true
  | _ => false
  end.

#[export] Instance Scalar_xq : Scalar xq := {|
  of_int z := Num (inject_Z z);
  sadd := xadd;
  ssub := xsub;
  smul := xmul;
  sdiv := xdiv;
  snan := NaN;
  sisnan := xisnan
|}.

(** numpy's [==] on scalars: NaN is equal to nothing. *)
Definition xeqb (a b : xq) : bool :=
  match a, b with
  | Num p, Num q => Qeq_bool p q
  | PosInf, PosInf | NegInf, NegInf => true
  | _, _ => false
  end.

(** The same value (NaN included), up to the representation of the
    fraction. *)
Definition same (a b : xq) : Prop :=
  match a, b with
  | Num p, Num q => p == q
  | PosInf, PosInf | NegInf, NegInf | NaN, NaN => True
  | _, _ => False
  end.

Definition is_finite (a : xq) : Prop :=
  match a with
  | Num _ => True
  | _ => False
  end.

(** The scalar [a] is the rational [q]. *)
Abbreviation is_num := (fun (a : xq) (q : Q) => same a (Num q)).

(** The rational under a finite scalar. *)
Definition qval (a : xq) : Q :=
  match a with
  | Num q => q
  | _ => 0
  end.

(** *** binary64 *)

Definition float_of_int (z : Z) : float :=
  if (z <? 0)%Z
  then PrimFloat.opp (PrimFloat.of_uint63 (Uint63.of_Z (- z)))
  else PrimFloat.of_uint63 (Uint63.of_Z z).

#[export] Instance Scalar_float : Scalar float := {|
  of_int := float_of_int;
  sadd := PrimFloat.add;
  ssub := PrimFloat.sub;
  smul := PrimFloat.mul;
  sdiv := PrimFloat.div;
  snan := PrimFloat.nan;
  sisnan := PrimFloat.is_nan
|}.

(** ** Arrays *)

Abbreviation array T := (list (list T)).

Fixpoint map2 {A B C : Type} (f : A -> B -> C) (l1 : list A) (l2 : list B) : list C :=
  match l1, l2 with
  | a :: l1', b :: l2' => f a b :: map2 f l1' l2'
  | _, _ => []
  end.

(** [a.shape] for a 2-D array held as a list of rows. *)
Definition shape {A : Type} (a : array A) : nat * nat :=
  (length a, length (hd [] a)).

Definition has_shape {A : Type} (a : array A) (h w : nat) : Prop :=
  length a = h /\ Forall (fun row => length row = w) a.

(** The array of shape (h, w) whose cell (i, j) is [f i j]. *)
Definition tabulate {A : Type} (h w : nat) (f : nat -> nat -> A) : array A :=
  map (fun i => map (fun j => f i j) (seq 0 w)) (seq 0 h).

Definition flatten {A : Type} (a : array A) : list A := concat a.

Section Arrays.

Context {T : Type} {ST : Scalar T}.

Local Open Scope scalar_scope.

(** [a[i, j]]; every use below is in range. *)
Definition get (a : array T) (i j : nat) : T :=
  nth j (nth i a []) snan.

(** Elementwise operations, array with array and array with scalar. *)
Definition arr_add (a b : array T) : array T := map2 (map2 sadd) a b.
Definition arr_sub (a b : array T) : array T := map2 (map2 ssub) a b.
Definition arr_mul (a b : array T) : array T := map2 (map2 smul) a b.
Definition arr_div (a b : array T) : array T := map2 (map2 sdiv) a b.
Definition arr_add_scalar (a : array T) (s : T) : array T :=
  map (map (fun x => x + s)) a.

(** [a ** 2]: numpy squares by multiplying. *)
Definition arr_sqr (a : array T) : array T := map (map (fun x => x * x)) a.

(** A sum, accumulated from 0.0 from left to right as scipy's line
    filter does for the first window of a line. *)
Definition ssum (l : list T) : T := fold_left sadd l (of_int 0).

(** *** numpy.sum

    numpy adds a contiguous run of cells by pairwise summation.  Fewer
    than 8 cells are added from 0.0 from left to right.  Up to 128 cells
    are added into 8 accumulators, cell i into accumulator i mod 8 for the
    whole blocks of 8; the accumulators are added as
    ((r0 + r1) + (r2 + r3)) + ((r4 + r5) + (r6 + r7)), and the cells after
    the last whole block are added to that one by one.  A longer run is
    cut in two, the first part a multiple of 8 cells, and the sums of the
    two parts are added. *)

Definition sum8 (r : list T) : T :=
  match r with
  | [r0; r1; r2; r3; r4; r5; r6; r7] =>
      ((r0 + r1) + (r2 + r3)) + ((r4 + r5) + (r6 + r7))
  | _ => ssum r                 (* not reached: there are 8 accumulators *)
  end.

(** The accumulators [r] after [k] more blocks of 8 cells of [l], and the
    cells that are left. *)
Fixpoint accumulate (k : nat) (r l : list T) : list T * list T :=
  match k with
  | O => (r, l)
  | S k' => accumulate k' (map2 sadd r (firstn 8 l)) (skipn 8 l)
  end.

(** The sum of 8 to 128 cells. *)
Definition unrolled_sum (l : list T) : T :=
  let (r, rest) := accumulate (length l / 8 - 1) (firstn 8 l) (skipn 8 l) in
  fold_left sadd rest (sum8 r).

(** The recursion is on the length of the run, which at least halves at
    each cut; [fuel] bounds its depth. *)
Fixpoint pairwise_sum (fuel : nat) (l : list T) : T :=
  let n := length l in
  if (n <? 8)%nat then ssum l
  else if (n <=? 128)%nat then unrolled_sum l
  else
    match fuel with
    | O => unrolled_sum l       (* not reached with [length l] as fuel *)
    | S fuel' =>
        let n2 := (n / 2 - (n / 2) mod 8)%nat in
        pairwise_sum fuel' (firstn n2 l) + pairwise_sum fuel' (skipn n2 l)
    end.

Definition np_sum (l : list T) : T := pairwise_sum (length l) l.

(** [np.var(a)]: the mean of the squared deviations from the mean
    (ddof = 0) over all cells, each sum taken by [np.sum] over the cells
    in row-major order. *)
Definition np_var (a : array T) : T :=
  let cells := flatten a in
  let n := of_int (Z.of_nat (length cells)) in
  let arrmean := np_sum cells / n in
  let x := map (fun c => c - arrmean) cells in
  np_sum (map (fun d => d * d) x) / n.

(** *** scipy.ndimage.uniform_filter *)

(** [mode='reflect'], (d c b a | a b c d | d c b a): the index into a
    line of length [n] that position [i] of the extended line reads. *)
Definition reflect (n : nat) (i : Z) : nat :=
  let m := (i mod (2 * Z.of_nat n))%Z in
  Z.to_nat (if (m <? Z.of_nat n)%Z then m else (2 * Z.of_nat n - 1 - m)%Z).

(** The window of output position [p] with [origin=0]: [size] cells of the
    extended line starting [size // 2] cells before [p]. *)
Definition window (n : nat) (size : Z) (p : nat) : list nat :=
  map (fun k => reflect n (Z.of_nat p - size / 2 + Z.of_nat k))
      (seq 0 (Z.to_nat size)).

(** The cell of the line through (i, j) along [axis] at index [k]. *)
Definition along (axis : nat) (a : array T) (i j k : nat) : T :=
  match axis with
  | O => get a k j
  | _ => get a i k
  end.

(** The C routine behind [uniform_filter1d] works on one line at a time.
    It reads the line extended at both ends, so that cell [k] of the
    extended line is cell [k - size // 2] of the line or its reflection.
    It adds up the first window and divides by [size]; then it moves along
    the line: the mean at the next position is the mean before, plus the
    cell that enters the window minus the cell that leaves it, divided by
    [size].  On finite samples in exact arithmetic that is the mean of
    each window ([line_mean_rows], [line_mean_cols]). *)
Fixpoint running_mean (ext : nat -> T) (size : Z) (p : nat) : T :=
  match p with
  | O => ssum (map ext (seq 0 (Z.to_nat size))) / of_int size
  | S p' =>
      running_mean ext size p'
      + (ext (p' + Z.to_nat size)%nat - ext p') / of_int size
  end.

(** The mean of the window of cell (i, j) taken along [axis], as the
    routine computes it. *)
Definition line_mean (input : array T) (size : Z) (axis : nat) (i j : nat) : T :=
  let (h, w) := shape input in
  let n := match axis with O => h | _ => w end in
  let p := match axis with O => i | _ => j end in
  running_mean
    (fun k => along axis input i j (reflect n (Z.of_nat k - size / 2))) size p.

(** [uniform_filter1d]: it rejects a size below 1 and an origin outside
    the window (the origin is 0 here), and otherwise replaces every cell by
    the mean of its window along [axis]. *)
Definition uniform_filter1d (input : array T) (size : Z) (axis : nat)
  : result (array T) :=
  if (size <? 1)%Z then Raise (RuntimeError "incorrect filter size")
  else if ((size / 2 <? 0) || (size <=? size / 2))%Z
  then Raise (ValueError "invalid origin")
  else
    let (h, w) := shape input in
    Ok (tabulate h w (line_mean input size axis)).

(** [uniform_filter(input, size)] with the defaults [mode='reflect'],
    [origin=0]: one pass of [uniform_filter1d] along each axis, axis 0
    first.  Only the axes whose size exceeds 1 are filtered; with none,
    the input is copied. *)
Definition uniform_filter (input : array T) (size : Z) : result (array T) :=
  let axes := filter (fun _ => (1 <? size)%Z) [0%nat; 1%nat] in
  fold_left (fun acc axis => a <- acc ;; uniform_filter1d a size axis)
            axes (Ok input).

(** What [uniform_filter] returns on an array of shape (h, w). *)
Definition filtered (img : array T) (size : Z) (h w : nat) : array T :=
  if (1 <? size)%Z
  then tabulate h w (line_mean (tabulate h w (line_mean img size 0)) size 1)
  else img.

(** *** lee_filter

    [[
    def lee_filter(img, size):
        img_mean = uniform_filter(img, size)
        img_sqr_mean = uniform_filter(img**2, size)
        img_variance = img_sqr_mean - img_mean**2

        overall_variance = np.var(img)

        img_weights = img_variance / (img_variance + overall_variance)
        img_output = img_mean + img_weights * (img - img_mean)
        return img_output
    ]] *)

(** The local variables of [lee_filter] when it returns. *)
Record lee_locals : Type := {
  img_mean : array T;
  img_sqr_mean : array T;
  img_variance : array T;
  overall_variance : T;
  img_weights : array T;
  img_output : array T
}.

Definition lee_filter_locals (img : array T) (size : Z) : result lee_locals :=
  img_mean <- uniform_filter img size ;;
  img_sqr_mean <- uniform_filter (arr_sqr img) size ;;
  let img_variance := arr_sub img_sqr_mean (arr_sqr img_mean) in
  let overall_variance := np_var img in
  let img_weights :=
    arr_div img_variance (arr_add_scalar img_variance overall_variance) in
  let img_output := arr_add img_mean (arr_mul img_weights (arr_sub img img_mean)) in
  Ok {| img_mean := img_mean;
        img_sqr_mean := img_sqr_mean;
        img_variance := img_variance;
        overall_variance := overall_variance;
        img_weights := img_weights;
        img_output := img_output |}.

Definition lee_filter (img : array T) (size : Z) : result (array T) :=
  fmap img_output (lee_filter_locals img size).

End Arrays.


(** ** Arrays with leading dimensions *)

(** An array whose last two dimensions are y and x: a plane, or a stack
    along one more leading dimension (time, band, ...). *)
Inductive ndarray (A : Type) : Type :=
| Plane (a : array A)
| Stack (l : list (ndarray A)).

Arguments Plane {A} a.
Arguments Stack {A} l.

Definition mapM {A B : Type} (f : A -> result B) : list A -> result (list B) :=
  fix go (l : list A) : result (list B) :=
    match l with
    | [] => Ok []
    | x :: l' => y <- f x ;; ys <- go l' ;; Ok (y :: ys)
    end.

Fixpoint nd_map {A B : Type} (f : A -> B) (a : ndarray A) : ndarray B :=
  match a with
  | Plane p => Plane (map (map f) p)
  | Stack l => Stack (map (nd_map f) l)
  end.

(** Elementwise combination of two arrays of one shape. *)
Fixpoint nd_map2 {A B C : Type} (f : A -> B -> C) (a : ndarray A) (b : ndarray B)
  : ndarray C :=
  match a, b with
  | Plane p, Plane q => Plane (map2 (map2 f) p q)
  | Stack l, Stack m =>
      Stack ((fix go (l : list (ndarray A)) (m : list (ndarray B)) : list (ndarray C) :=
                match l, m with
                | x :: l', y :: m' => nd_map2 f x y :: go l' m'
                | _, _ => []
                end) l m)
  | _, _ => Stack []
  end.

(** The plane under the leading indices [idx]. *)
Fixpoint slice_at {A : Type} (a : ndarray A) (idx : list nat) : option (array A) :=
  match a, idx with
  | Plane p, [] => Some p
  | Stack l, t :: idx' =>
      match nth_error l t with
      | Some s => slice_at s idx'
      | None => None
      end
  | _, _ => None
  end.

(** The cell at leading indices [idx], row [i], column [j]. *)
Definition cell_at {A : Type} (a : ndarray A) (idx : list nat) (i j : nat) : option A :=
  match slice_at a idx with
  | Some p =>
      match nth_error p i with
      | Some row => nth_error row j
      | None => None
      end
  | None => None
  end.

Inductive same_dims {A B : Type} : ndarray A -> ndarray B -> Prop :=
| same_dims_plane (p : array A) (q : array B) :
    Forall2 (fun r s => length r = length s) p q ->
    same_dims (Plane p) (Plane q)
| same_dims_stack (l : list (ndarray A)) (m : list (ndarray B)) :
    Forall2 same_dims l m ->
    same_dims (Stack l) (Stack m).

(** A cell of the mask band: a code (0 valid, 1 shadow, 2 layover,
    3 shadow and layover, 255 invalid), or NaN where the band is held as
    floats. *)
Inductive mask_value : Type :=
| Code (c : Z)
| MaskNaN.

(** [mask == 0] on one cell; NaN is equal to nothing. *)
Definition mask_eq0 (m : mask_value) : bool :=
  match m with
  | Code c => (c =? 0)%Z
  | MaskNaN => false
  end.

Section Leading.

Context {T : Type} {ST : Scalar T}.

(** [xr.apply_ufunc(f, a, input_core_dims=[["y", "x"]],
    output_core_dims=[["y", "x"]], vectorize=True)]: [f] is called on
    every y-x plane. *)
Fixpoint apply_ufunc (f : array T -> result (array T)) (a : ndarray T)
  : result (ndarray T) :=
  match a with
  | Plane p => fmap Plane (f p)
  | Stack l => fmap Stack (mapM (apply_ufunc f) l)
  end.

(** [[
    def apply_lee_filter(data_array, size=7):
        data_array_filled = data_array.fillna(0)
        filtered_data = xr.apply_ufunc(
            lee_filter, data_array_filled,
            kwargs={"size": size},
            input_core_dims=[["y", "x"]],
            output_core_dims=[["y", "x"]],
            dask_gufunc_kwargs={"allow_rechunk": True},
            vectorize=True,
            dask="parallelized",
            output_dtypes=[data_array.dtype]
        )
        return filtered_data
    ]]
    The dask options and the output dtype do not change the values in
    exact arithmetic and are left out. *)

(** [a.fillna(0)] on one cell. *)
Definition fillna0 (x : T) : T := if sisnan x then of_int 0 else x.

Definition apply_lee_filter (data_array : ndarray T) (size : Z) : result (ndarray T) :=
  let data_array_filled := nd_map fillna0 data_array in
  apply_ufunc (fun img => lee_filter img size) data_array_filled.

(** [xr.where(mask == 0, band, np.nan)] *)
Definition xr_where_mask (mask : ndarray mask_value) (band : ndarray T) : ndarray T :=
  nd_map2 (fun m v => if mask_eq0 m then v else snan) mask band.

End Leading.

(** ** Reference definitions over the rationals

    The quantities the filter is specified with, written on lists and
    arrays of rationals. *)

Definition Qsum (l : list Q) : Q := fold_right Qplus 0 l.

Definition Qmean (l : list Q) : Q := Qsum l / inject_Z (Z.of_nat (length l)).

(** Population variance. *)
Definition Qvariance (l : list Q) : Q :=
  Qmean (map (fun x => (x - Qmean l) * (x - Qmean l)) l).

Definition to_q (a : array xq) : array Q := map (map qval) a.

Definition finite_array (a : array xq) : Prop := Forall (Forall is_finite) a.

(** Mirror reflection of a line about its two ends: the extended line
    ... d c b a | a b c d | d c b a ... repeats [line ++ rev line]. *)
Definition mirror_at {A : Type} (d : A) (line : list A) (i : Z) : A :=
  nth (Z.to_nat (i mod (2 * Z.of_nat (length line)))) (line ++ rev line) d.

(** The line with [before] reflected cells in front and [after] behind. *)
Definition reflect_pad_line {A : Type} (d : A) (before after : nat) (line : list A)
  : list A :=
  map (fun k => mirror_at d line (Z.of_nat k - Z.of_nat before))
      (seq 0 (before + length line + after)).

(** The array padded on its four sides. *)
Definition reflect_pad {A : Type} (d : A) (before after : nat) (a : array A)
  : array A :=
  reflect_pad_line [] before after (map (reflect_pad_line d before after) a).

(** The s-by-s block of [a] whose top left cell is (i, j). *)
Definition block {A : Type} (a : array A) (i j s : nat) : array A :=
  map (fun row => firstn s (skipn j row)) (firstn s (skipn i a)).

(** The samples in the size-by-size window of pixel (i, j): the block of
    the padded array that lies over the pixel.  For an odd size it is
    centred on the pixel. *)
Definition window_samples (a : array Q) (size : Z) (i j : nat) : list Q :=
  let s := Z.to_nat size in
  let before := Z.to_nat (size / 2) in
  let after := (s - before - 1)%nat in
  flatten (block (reflect_pad 0 before after a) i j s).

Definition local_mean (a : array Q) (size : Z) (i j : nat) : Q :=
  Qmean (window_samples a size i j).

Definition local_sq_mean (a : array Q) (size : Z) (i j : nat) : Q :=
  Qmean (map (fun x => x * x) (window_samples a size i j)).

Definition local_variance (a : array Q) (size : Z) (i j : nat) : Q :=
  local_sq_mean a size i j - local_mean a size i j * local_mean a size i j.

(** The pairs of indices of the input read for the window of (i, j). *)
Definition window_cells (h w : nat) (size : Z) (i j : nat) : list (nat * nat) :=
  flat_map (fun y => map (fun x => (y, x)) (window w size j)) (window h size i).

(** numpy's [==] on arrays of one shape, reduced with [all]. *)
Definition array_equal (a b : array xq) : bool :=
  (length a =? length b)%nat &&
  forallb (fun rs => (length (fst rs) =? length (snd rs))%nat
                     && forallb (fun xy => xeqb (fst xy) (snd xy))
                                (combine (fst rs) (snd rs)))
          (combine a b).

(** A finite array of shape (h, w) whose cell (i, j) is the rational
    [f i j]. *)
Definition holds (a : array xq) (h w : nat) (f : nat -> nat -> Q) : Prop :=
  has_shape a h w /\
  forall i j, (i < h)%nat -> (j < w)%nat -> same (get a i j) (Num (f i j)).

(** The two passes of [uniform_filter] on the rationals. *)
Definition qfiltered (f : nat -> nat -> Q) (h w : nat) (size : Z) (i j : nat) : Q :=
  if (1 <? size)%Z
  then Qsum (map (fun x => Qsum (map (fun y => f y x) (window h size i))
                           / inject_Z size)
                 (window w size j))
       / inject_Z size
  else f i j.

(** Every cell is the rational [c]. *)
Definition uniform_array (c : Q) (a : array xq) : Prop :=
  Forall (Forall (fun x => same x (Num c))) a.

(** The guard the specification names: a variance below zero replaced by
    zero. *)
Definition clamp0 (v : float) : float :=
  if PrimFloat.ltb v 0 then 0%float else v.

(** ** Sample inputs *)

Definition sample_2x2 : array xq := [[Num 1; Num 2]; [Num 3; Num 4]].

Definition ones_3x3 : array xq :=
  [[Num 1; Num 1; Num 1]; [Num 1; Num 1; Num 1]; [Num 1; Num 1; Num 1]].

Definition one_pixel : array xq := [[Num 1]].

Definition ones_3x3_binary64 : array float :=
  [[1; 1; 1]; [1; 1; 1]; [1; 1; 1]]%float.

Definition one_pixel_binary64 : array float := [[1%float]].

(** A 7-by-7 image of ones with a spike of 10 at the centre. *)
Definition spike_7x7 : array xq :=
  tabulate 7 7 (fun i j => if ((i =? 3) && (j =? 3))%nat then Num 10 else Num 1).

(** The 1-by-1 image [np.array([[0.1]])]: the binary64 number nearest
    to 0.1. *)
Definition tenth_pixel : array float := [[0x1.999999999999ap-4%float]].

(** The 3-by-3 image whose samples are all 0.1. *)
Definition tenths_3x3 : array float :=
  tabulate 3 3 (fun _ _ => 0x1.999999999999ap-4%float).

(** [np.array([[0.1, 0.1, 0.1, 0.0]])]: the window of size 3 of its
    first pixel holds 0.1 only. *)
Definition tenths_row : array float :=
  [[0x1.999999999999ap-4; 0x1.999999999999ap-4; 0x1.999999999999ap-4; 0]]%float.

(** [[1, 2], [3, 4]] in binary64, and an image moved by an offset. *)
Definition sample_2x2_binary64 : array float := [[1; 2]; [3; 4]]%float.

Definition offset_image (b : float) (img : array float) : array float :=
  map (map (fun x => PrimFloat.add x b)) img.

(** [np.array([[2.0**700, 0.0]])]: the square of the first sample
    overflows. *)
Definition huge_pair : array float := [[0x1p700; 0]]%float.

(** [np.array([[2.0**-600, 2.0**-599]])]: the squares of the samples and
    of their deviations from the mean underflow to zero. *)
Definition tiny_pair : array float := [[0x1p-600; 0x1p-599]]%float.

(** ** Decibels

    [10 * np.log10(band)].  The logarithm is not a rational function; the
    conversion is modelled over the real numbers completed with the IEEE
    special values. *)

Module Decibel.

Import Reals.
Local Open Scope R_scope.

Inductive xr : Type :=
| RNum (x : R)
| RPosInf
| RNegInf
| RNaN.

Definition log10 (x : R) : R := ln x / ln 10.

(** [np.log10]: minus infinity at 0, NaN below 0. *)
Definition np_log10 (a : xr) : xr :=
  match a with
  | RNum x =>
      if Rlt_dec 0 x then RNum (log10 x)
      else if Req_dec_T x 0 then RNegInf else RNaN
  | RPosInf => RPosInf
  | RNegInf => RNaN
  | RNaN => RNaN
  end.

(** [10 * a] *)
Definition times10 (a : xr) : xr :=
  match a with
  | RNum y => RNum (10 * y)
  | RPosInf => RPosInf
  | RNegInf => RNegInf
  | RNaN => RNaN
  end.

Definition to_db (a : xr) : xr := times10 (np_log10 a).

Definition linear_to_db (band : ndarray xr) : ndarray xr := nd_map to_db band.

(** The way back named by the specification: [10 ** (db / 10)]. *)
Definition from_db (db : R) : R := Rpower 10 (db / 10).

End Decibel.

(** One time step of a 2-by-2 band and its mask: valid, shadow, the
    invalid sentinel, valid. *)
Definition sample_band : ndarray xq := Stack [Plane sample_2x2].

Definition sample_mask : ndarray mask_value :=
  Stack [Plane [[Code 0; Code 1]; [Code 255; Code 0]]].

(** ** Kinds of IEEE values

    What [lee_filter] does to samples that are not finite depends only on
    which values are NaN or an infinity.  The table of the kinds is shared
    by the scalar types that do exact arithmetic. *)

Inductive kind : Type :=
| KFin
| KPosInf
| KNegInf
| KNaN.

Definition kind_add (a b : kind) : kind :=
  match a, b with
  | KNaN, _ | _, KNaN => KNaN
  | KFin, KFin => KFin
  | KPosInf, KNegInf | KNegInf, KPosInf => KNaN
  | KPosInf, _ | _, KPosInf => KPosInf
  | KNegInf, _ | _, KNegInf => KNegInf
  end.

Definition kind_opp (a : kind) : kind :=
  match a with
  | KPosInf => KNegInf
  | KNegInf => KPosInf
  | k => k
  end.

Definition kind_sub (a b : kind) : kind := kind_add a (kind_opp b).

Definition xkind (a : xq) : kind :=
  match a with
  | Num _ => KFin
  | PosInf => KPosInf
  | NegInf => KNegInf
  | NaN => KNaN
  end.

(** A scalar type whose operations follow the IEEE rules for NaN and
    the infinities and never overflow. *)
Class Kinded (T : Type) (ST : Scalar T) : Type := {
  kind_of : T -> kind;
  kind_sadd : forall a b, kind_of (sadd a b) = kind_add (kind_of a) (kind_of b);
  kind_ssub : forall a b, kind_of (ssub a b) = kind_sub (kind_of a) (kind_of b);
  kind_smul_nan : forall a b,
      kind_of a = KNaN \/ kind_of b = KNaN -> kind_of (smul a b) = KNaN;
  kind_sdiv_nan : forall a b, kind_of b = KNaN -> kind_of (sdiv a b) = KNaN;
  kind_sdiv_count : forall a n,
      (0 < n)%Z -> kind_of a <> KFin -> kind_of (sdiv a (of_int n)) = kind_of a;
  kind_sisnan : forall a, sisnan a = true <-> kind_of a = KNaN
}.

(** A sum that holds a sample of kind [c] has a kind that [c] fixes: NaN
    for NaN, the same infinity or NaN for an infinity. *)
Definition poisoned_by (c s : kind) : Prop :=
  match c with
  | KFin => True
  | KPosInf => s = KPosInf \/ s = KNaN
  | KNegInf => s = KNegInf \/ s = KNaN
  | KNaN => s = KNaN
  end.

(** A cell or a sum that the sample [c] has poisoned. *)
Definition poisoned {T : Type} {ST : Scalar T} {KT : Kinded ST} (c x : T) : Prop :=
  poisoned_by (kind_of c) (kind_of x).

(** ** Zeros, finite numbers and NaN

    The IEEE 754 rules that decide what the filter returns when its
    window is a single cell: x - x is zero for a finite x and NaN
    otherwise, 0 / 0 is NaN, 0 / u is zero for every other u that is
    not NaN, and NaN is absorbing.  They hold in binary64 and in exact
    arithmetic alike. *)

(** [np.isfinite] and [x == 0] on the exact scalars. *)
Definition xfinite (a : xq) : bool :=
  match a with
  | Num _ => true
  | _ => false
  end.

Definition xzero (a : xq) : bool :=
  match a with
  | Num q => Qeq_bool q 0
  | _ => false
  end.

(** The same on binary64, read off the sign, mantissa and exponent. *)
Definition ffinite (x : float) : bool :=
  match Prim2SF x with
  | S754_zero _ | S754_finite _ _ _ => true
  | _ => false
  end.

Definition fzero (x : float) : bool :=
  match Prim2SF x with
  | S754_zero _ => true
  | _ => false
  end.

Class Ieee (T : Type) (ST : Scalar T) : Type := {
  sfinite : T -> bool;            (* np.isfinite *)
  szero : T -> bool;              (* x == 0, for a zero of either sign *)
  seqb : T -> T -> bool;          (* x == y *)
  sfinite_sqr : forall x, sfinite (smul x x) = true -> sfinite x = true;
  ssub_self : forall y, sfinite y = true -> szero (ssub y y) = true;
  ssub_self_nan : forall y, sfinite y = false -> sisnan (ssub y y) = true;
  sadd_zero_l : forall d v,
      szero d = true -> szero (sadd d v) = szero v /\ sisnan (sadd d v) = sisnan v;
  sdiv_zero_l : forall d u,
      szero d = true ->
      if szero u || sisnan u
      then sisnan (sdiv d u) = true
      else szero (sdiv d u) = true;
  sdiv_nan_l : forall d u, sisnan d = true -> sisnan (sdiv d u) = true;
  smul_zero : forall a b, szero a = true -> szero b = true -> szero (smul a b) = true;
  smul_nan_l : forall a b, sisnan a = true -> sisnan (smul a b) = true;
  sadd_zero_r : forall x z,
      sfinite x = true -> szero z = true -> seqb (sadd x z) x = true;
  sadd_nan_r : forall x p, sisnan p = true -> sisnan (sadd x p) = true;
  seqb_nan_l : forall a b, sisnan a = true -> seqb a b = false
}.

(** ** The reals as a scalar type

    The arithmetic of [Decibel.xr]: the operations of the reals completed
    by the IEEE rules for NaN and the infinities, as [xq] has them on the
    rationals.  It lets the filter run on the decibel band. *)

Module RealScalar.

Import Reals Decibel.
Local Open Scope R_scope.

Definition rsign (x : R) : comparison :=
  if Rlt_dec 0 x then Gt else if Rlt_dec x 0 then Lt else Eq.

Definition xr_sign (a : xr) : comparison :=
  match a with
  | RNum x => rsign x
  | RPosInf => Gt
  | RNegInf => Lt
  | RNaN => Eq
  end.

Definition xr_inf (s : comparison) : xr :=
  match s with
  | Gt => RPosInf
  | Lt => RNegInf
  | Eq => RNaN
  end.

Definition radd (a b : xr) : xr :=
  match a, b with
  | RNaN, _ | _, RNaN => RNaN
  | RNum p, RNum q => RNum (p + q)
  | RPosInf, RNegInf | RNegInf, RPosInf => RNaN
  | RPosInf, _ | _, RPosInf => RPosInf
  | RNegInf, _ | _, RNegInf => RNegInf
  end.

Definition ropp (a : xr) : xr :=
  match a with
  | RNum x => RNum (- x)
  | RPosInf => RNegInf
  | RNegInf => RPosInf
  | RNaN => RNaN
  end.

Definition rsub (a b : xr) : xr :=
  match a, b with
  | RNum p, RNum q => RNum (p - q)
  | _, _ => radd a (ropp b)
  end.

Definition rmul (a b : xr) : xr :=
  match a, b with
  | RNaN, _ | _, RNaN => RNaN
  | RNum p, RNum q => RNum (p * q)
  | _, _ => xr_inf (sign_mul (xr_sign a) (xr_sign b))
  end.

Definition rdiv (a b : xr) : xr :=
  match a, b with
  | RNaN, _ | _, RNaN => RNaN
  | RNum p, RNum q => if Req_dec_T q 0 then xr_inf (rsign p) else RNum (p / q)
  | RNum _, _ => RNum 0
  | _, RNum q => xr_inf (sign_mul (xr_sign a) (if Rle_dec 0 q then Gt else Lt))
  | _, _ => RNaN
  end.

Definition risnan (a : xr) : bool :=
  match a with
  | RNaN => true
  | _ => false
  end.

#[export] Instance Scalar_xr : Scalar xr := {|
  of_int z := RNum (IZR z);
  sadd := radd;
  ssub := rsub;
  smul := rmul;
  sdiv := rdiv;
  snan := RNaN;
  sisnan := risnan
|}.

Definition rkind (a : xr) : kind :=
  match a with
  | RNum _ => KFin
  | RPosInf => KPosInf
  | RNegInf => KNegInf
  | RNaN => KNaN
  end.

(** uow_loading_example.ipynb filters the decibel band:
    [ds['HH_db'] = 10 * np.log10(ds["HH"])], then
    [ds["HH_dB_filtered"] = apply_lee_filter(ds.HH_db, size = 7)]. *)
Definition HH_dB_filtered (HH : ndarray xr) : result (ndarray xr) :=
  let HH_db := linear_to_db HH in
  apply_lee_filter HH_db 7.

(** loading_with_stac.ipynb masks the filtered band and converts it:
    [VV_filtered_masked = xr.where(mask == 0, VV_filtered, np.nan)], then
    [VV_filtered_masked_db = 10 * np.log10(VV_filtered_masked)]. *)
Definition VV_filtered_masked_db (mask : ndarray mask_value) (VV_filtered : ndarray xr)
  : ndarray xr :=
  let VV_filtered_masked := xr_where_mask mask VV_filtered in
  linear_to_db VV_filtered_masked.

End RealScalar.

(** A plane with an infinity. *)
Definition sample_inf : array xq := [[Num 1; Num 2]; [PosInf; Num 4]].

(** [a * img + b] for two numbers a and b. *)
Definition affine_image (a b : Q) (img : array xq) : array xq :=
  map (map (fun x => xadd (xmul (Num a) x) (Num b))) img.

(** ** The catalogue items

    loading_with_stac.ipynb counts the scenes the items come from:
    [[
    unique_scenes = set([item.properties["nrb:scene_id"][0] for item in aus_items])
    print(f"The identified items come from {len(unique_scenes)} unique scenes")
    ]] *)

Module Catalog.

Local Open Scope string_scope.

(** What a subscript can raise. *)
Inductive lookup_error : Type :=
| KeyError (key : string)
| IndexError.

Inductive outcome (A : Type) : Type :=
| Done (a : A)
| Fail (e : lookup_error).

Arguments Done {A} a.
Arguments Fail {A} e.

(** An item, as far as the notebook reads it: its [properties], a dict
    whose values are lists of strings. *)
Record item : Type := { properties : list (string * list string) }.

(** [d[key]] *)
Fixpoint dict_get {V : Type} (d : list (string * V)) (key : string) : outcome V :=
  match d with
  | [] => Fail (KeyError key)
  | (k, v) :: d' => if String.eqb k key then Done v else dict_get d' key
  end.

(** [l[0]] *)
Definition first {A : Type} (l : list A) : outcome A :=
  match l with
  | [] => Fail IndexError
  | x :: _ => Done x
  end.

(** [item.properties["nrb:scene_id"][0]] *)
Definition scene_id (it : item) : outcome string :=
  match dict_get (properties it) "nrb:scene_id" with
  | Done ids => first ids
  | Fail e => Fail e
  end.

(** The list comprehension, item after item. *)
Fixpoint scene_ids (items : list item) : outcome (list string) :=
  match items with
  | [] => Done []
  | it :: rest =>
      match scene_id it with
      | Done s =>
          match scene_ids rest with
          | Done l => Done (s :: l)
          | Fail e => Fail e
          end
      | Fail e => Fail e
      end
  end.

(** [set(...)], held as a list without repetition. *)
Definition unique_scenes (items : list item) : outcome (list string) :=
  match scene_ids items with
  | Done l => Done (nodup string_dec l)
  | Fail e => Fail e
  end.

(** [len(unique_scenes)] *)
Definition count_unique_scenes (items : list item) : outcome nat :=
  match unique_scenes items with
  | Done s => Done (length s)
  | Fail e => Fail e
  end.

Definition item_of_scene (s : string) : item :=
  {| properties := [("datetime", ["2020-06-01"]); ("nrb:scene_id", [s])] |}.

Definition sample_items : list item :=
  [item_of_scene "S1A_1"; item_of_scene "S1A_2"; item_of_scene "S1A_1"].

End Catalog.

(** ** Writing the time steps

    loading_with_stac.ipynb writes one file per time step:
    [[
    aus_dt_strings = aus_ds.time.dt.strftime("%Y-%m-%d").values
    for timestep in range(len(aus_ds.time)):
        filename = output_path / f"STAC_Australia_VV_filtered_masked_db_t{timestep}_{aus_dt_strings[timestep]}.cog"
        array = aus_ds.VV_filtered_masked_db.isel(time=timestep)
        write_cog(array, filename, overwrite=True)
    ]]
    with [output_path = pathlib.Path("outputs")].  The files are held as
    a list of (path, raster) pairs, the latest write first. *)

Module CogExport.

Local Open Scope string_scope.

(** [f"{timestep}"]: the decimal digits of a natural number. *)
Definition str_of_nat (n : nat) : string :=
  DecimalString.NilZero.string_of_uint (Nat.to_uint n).

(** [output_path / f"{stem}_t{timestep}_{dt}.cog"] *)
Definition cog_name (stem : string) (timestep : nat) (dt : string) : string :=
  "outputs/" ++ stem ++ "_t" ++ str_of_nat timestep ++ "_" ++ dt ++ ".cog".

(** [write_cog(array, filename, overwrite=True)] *)
Definition write_cog {A : Type} (array : A) (filename : string)
           (files : list (string * A)) : list (string * A) :=
  (filename, array) :: files.

(** The raster a path holds. *)
Fixpoint read_file {A : Type} (files : list (string * A)) (filename : string) : option A :=
  match files with
  | [] => None
  | (name, array) :: rest =>
      if String.eqb name filename then Some array else read_file rest filename
  end.

(** The body of the loop; [ds] pairs the date string of every time step
    with its plane. *)
Definition export_step {A : Type} (d : A) (stem : string)
           (ds : list (string * A)) (files : list (string * A)) (timestep : nat)
  : list (string * A) :=
  let dt_strings := map fst ds in
  let band := map snd ds in
  let filename := cog_name stem timestep (nth timestep dt_strings "") in
  let array := nth timestep band d in
  write_cog array filename files.

(** The loop over the time steps of a band. *)
Definition export_time_steps {A : Type} (d : A) (stem : string)
           (ds : list (string * A)) (files : list (string * A))
  : list (string * A) :=
  fold_left (export_step d stem ds) (seq 0 (length ds)) files.

(** No character of the string is an underscore. *)
Fixpoint no_underscore (s : string) : Prop :=
  match s with
  | EmptyString => True
  | String c s' => c <> "_"%char /\ no_underscore s'
  end.

End CogExport.

(** * Theorems *)

(** ** Lists and arrays *)

Lemma map2_length {A B C : Type} (f : A -> B -> C) (l1 : list A) (l2 : list B) :
  length l1 = length l2 -> length (map2 f l1 l2) = length l1.
Proof.
  revert l2; induction l1 as [|a l1 IH]; intros [|b l2]; simpl; try discriminate; auto.
Qed.

Lemma nth_map2 {A B C : Type} (f : A -> B -> C) (l1 : list A) (l2 : list B)
      (n : nat) (da : A) (db : B) (dc : C) :
  length l1 = length l2 -> (n < length l1)%nat ->
  nth n (map2 f l1 l2) dc = f (nth n l1 da) (nth n l2 db).
Proof.
  revert l2 n; induction l1 as [|a l1 IH]; intros [|b l2] n; simpl; try discriminate; try lia.
  intros Hl Hn; destruct n as [|n]; [reflexivity|].
  apply IH; lia.
Qed.

Lemma nth_map_seq {A : Type} (f : nat -> A) (len n : nat) (d : A) :
  (n < len)%nat -> nth n (map f (seq 0 len)) d = f n.
Proof.
  intros Hn.
  rewrite (nth_indep _ d (f 0%nat)) by (rewrite length_map, length_seq; lia).
  rewrite (map_nth f (seq 0 len) 0%nat n), seq_nth by lia.
  reflexivity.
Qed.

Lemma has_shape_length {A : Type} (a : array A) (h w : nat) :
  has_shape a h w -> length a = h.
Proof. intros [H _]; exact H. Qed.

Lemma has_shape_row {A : Type} (a : array A) (h w i : nat) :
  has_shape a h w -> (i < h)%nat -> length (nth i a []) = w.
Proof.
  intros [Hl Hr] Hi.
  rewrite Forall_forall in Hr; apply Hr, nth_In; lia.
Qed.

Lemma has_shape_shape {A : Type} (a : array A) (h w : nat) :
  has_shape a h w -> (0 < h)%nat -> shape a = (h, w).
Proof.
  intros [Hl Hr] Hh; unfold shape.
  destruct a as [|r a]; simpl in *; [lia|].
  inversion Hr; subst; reflexivity.
Qed.

Lemma has_shape_tabulate {A : Type} (h w : nat) (f : nat -> nat -> A) :
  has_shape (tabulate h w f) h w.
Proof.
  unfold has_shape, tabulate; split.
  - now rewrite length_map, length_seq.
  - apply Forall_forall; intros r Hr.
    apply in_map_iff in Hr; destruct Hr as [i [<- _]].
    now rewrite length_map, length_seq.
Qed.

Lemma tabulate_shape {A B : Type} (a : array A) (h w : nat) (f : nat -> nat -> B) :
  has_shape a h w ->
  tabulate (fst (shape a)) (snd (shape a)) f = tabulate h w f.
Proof.
  intros Ha; destruct h as [|h].
  - destruct Ha as [Hl _]; apply length_zero_iff_nil in Hl; subst a; reflexivity.
  - rewrite (has_shape_shape Ha); [reflexivity | lia].
Qed.

Lemma tabulate_ext {A : Type} (h w : nat) (f g : nat -> nat -> A) :
  (forall i j, (i < h)%nat -> (j < w)%nat -> f i j = g i j) ->
  tabulate h w f = tabulate h w g.
Proof.
  intros E; unfold tabulate.
  apply map_ext_in; intros i Hi; apply in_seq in Hi.
  apply map_ext_in; intros j Hj; apply in_seq in Hj.
  apply E; lia.
Qed.

Section ArrayFacts.

Context {T : Type} {ST : Scalar T}.

Lemma get_tabulate (h w : nat) (f : nat -> nat -> T) (i j : nat) :
  (i < h)%nat -> (j < w)%nat -> get (tabulate h w f) i j = f i j.
Proof.
  intros Hi Hj; unfold get, tabulate.
  rewrite (nth_map_seq (fun i => map (fun j => f i j) (seq 0 w))) by assumption.
  now rewrite (nth_map_seq (fun j => f i j)).
Qed.

Lemma get_map2 (f : T -> T -> T) (a b : array T) (h w i j : nat) :
  has_shape a h w -> has_shape b h w -> (i < h)%nat -> (j < w)%nat ->
  get (map2 (map2 f) a b) i j = f (get a i j) (get b i j).
Proof.
  intros Ha Hb Hi Hj; unfold get.
  pose proof (has_shape_length Ha) as La; pose proof (has_shape_length Hb) as Lb.
  rewrite (nth_map2 (map2 f) a b [] [] []) by lia.
  pose proof (has_shape_row Ha Hi) as Ra; pose proof (has_shape_row Hb Hi) as Rb.
  apply nth_map2; lia.
Qed.

Lemma has_shape_map2 (f : T -> T -> T) (a b : array T) (h w : nat) :
  has_shape a h w -> has_shape b h w -> has_shape (map2 (map2 f) a b) h w.
Proof.
  intros [La Ra] [Lb Rb]; subst h; revert b Lb Rb.
  induction a as [|r a IH]; intros [|s b] Lb Rb; simpl in *; try discriminate.
  - split; [reflexivity | constructor].
  - inversion Ra; subst; inversion Rb; subst.
    destruct (IH H2 b) as [L R]; [lia | assumption |].
    split; [simpl; lia |].
    constructor; [apply map2_length; lia | exact R].
Qed.

Lemma get_map (f : T -> T) (a : array T) (h w i j : nat) :
  has_shape a h w -> (i < h)%nat -> (j < w)%nat ->
  get (map (map f) a) i j = f (get a i j).
Proof.
  intros Ha Hi Hj; unfold get.
  pose proof (has_shape_length Ha) as La; pose proof (has_shape_row Ha Hi) as Ra.
  change (@nil T) with (map f []) at 1.
  rewrite map_nth.
  rewrite (nth_indep _ snan (f snan)) by (rewrite length_map; lia).
  apply map_nth.
Qed.

Lemma has_shape_map (f : T -> T) (a : array T) (h w : nat) :
  has_shape a h w -> has_shape (map (map f) a) h w.
Proof.
  intros [La Ra]; split; [now rewrite length_map|].
  apply Forall_forall; intros r Hr.
  apply in_map_iff in Hr; destruct Hr as [r' [<- Hr']].
  rewrite length_map; rewrite Forall_forall in Ra; auto.
Qed.

End ArrayFacts.

(** ** The filter on any scalar type *)

Section FilterFacts.

Context {T : Type} {ST : Scalar T}.

Local Open Scope scalar_scope.

Lemma uniform_filter1d_ok (img : array T) (size : Z) (axis h w : nat) :
  has_shape img h w -> (1 <= size)%Z ->
  uniform_filter1d img size axis = Ok (tabulate h w (line_mean img size axis)).
Proof.
  intros Hs H1; unfold uniform_filter1d.
  assert (0 <= size / 2 < size)%Z as Hd.
  { split; [apply Z.div_pos; lia | apply Z.div_lt_upper_bound; lia]. }
  destruct (Z.ltb_spec size 1); [lia|].
  destruct (Z.ltb_spec (size / 2) 0); [lia|].
  destruct (Z.leb_spec size (size / 2)); [lia|]; simpl.
  rewrite <- (tabulate_shape _ Hs); reflexivity.
Qed.

Lemma uniform_filter_ok (img : array T) (size : Z) (h w : nat) :
  has_shape img h w -> uniform_filter img size = Ok (filtered img size h w).
Proof.
  intros Hs; unfold uniform_filter, filtered.
  destruct (Z.ltb_spec 1 size); simpl; [|reflexivity].
  rewrite (uniform_filter1d_ok _ Hs) by lia.
  apply uniform_filter1d_ok; [apply has_shape_tabulate | lia].
Qed.

Lemma uniform_filter_small (img : array T) (size : Z) :
  (size <= 1)%Z -> uniform_filter img size = Ok img.
Proof.
  intros H; unfold uniform_filter.
  destruct (Z.ltb_spec 1 size); [lia | reflexivity].
Qed.

Lemma has_shape_filtered (img : array T) (size : Z) (h w : nat) :
  has_shape img h w -> has_shape (filtered img size h w) h w.
Proof.
  intros Hs; unfold filtered.
  destruct (1 <? size)%Z; [apply has_shape_tabulate | exact Hs].
Qed.

(** The cells of the locals of [lee_filter], one by one. *)
Lemma lee_filter_locals_cells (img : array T) (size : Z) (h w : nat) :
  has_shape img h w ->
  exists L : lee_locals,
    lee_filter_locals img size = Ok L /\
    img_mean L = filtered img size h w /\
    img_sqr_mean L = filtered (arr_sqr img) size h w /\
    overall_variance L = np_var img /\
    has_shape (img_output L) h w /\
    forall i j, (i < h)%nat -> (j < w)%nat ->
      get (img_variance L) i j
      = get (img_sqr_mean L) i j - get (img_mean L) i j * get (img_mean L) i j /\
      get (img_weights L) i j
      = get (img_variance L) i j / (get (img_variance L) i j + overall_variance L) /\
      get (img_output L) i j
      = get (img_mean L) i j
        + get (img_weights L) i j * (get img i j - get (img_mean L) i j).
Proof.
  intros Hs.
  assert (Hq : has_shape (arr_sqr img) h w) by (apply has_shape_map; exact Hs).
  pose proof (has_shape_filtered size Hs) as Hm.
  pose proof (has_shape_filtered size Hq) as Hsm.
  unfold lee_filter_locals.
  rewrite (uniform_filter_ok _ Hs), (uniform_filter_ok _ Hq); simpl.
  set (m := filtered img size h w) in *.
  set (sm := filtered (arr_sqr img) size h w) in *.
  assert (Hv : has_shape (arr_sub sm (arr_sqr m)) h w).
  { apply has_shape_map2; [exact Hsm | apply has_shape_map; exact Hm]. }
  assert (Hw : has_shape (arr_div (arr_sub sm (arr_sqr m))
                (arr_add_scalar (arr_sub sm (arr_sqr m)) (np_var img))) h w).
  { apply has_shape_map2; [exact Hv | apply has_shape_map; exact Hv]. }
  assert (Hd : has_shape (arr_sub img m) h w) by (apply has_shape_map2; assumption).
  eexists; split; [reflexivity|]; simpl.
  do 3 (split; [reflexivity|]).
  split; [apply has_shape_map2; [exact Hm | apply has_shape_map2; assumption]|].
  intros i j Hi Hj.
  unfold arr_sub, arr_sqr, arr_div, arr_add_scalar, arr_add, arr_mul in *.
  pose proof (has_shape_map (fun x => x * x) Hm) as Hm2.
  pose proof (has_shape_map (fun x => x + np_var img) Hv) as Hvo.
  rewrite (get_map2 _ Hm (has_shape_map2 _ Hw Hd)) by assumption.
  rewrite (get_map2 _ Hw Hd) by assumption.
  rewrite (get_map2 _ Hv Hvo) by assumption.
  rewrite (get_map _ Hv) by assumption.
  rewrite (get_map2 _ Hsm Hm2) by assumption.
  rewrite (get_map _ Hm) by assumption.
  rewrite (get_map2 _ Hs Hm) by assumption.
  auto.
Qed.

End FilterFacts.

(** ** Exact arithmetic *)

Lemma same_refl (a : xq) : same a a.
Proof. destruct a; simpl; auto; reflexivity. Qed.

Lemma same_sym (a b : xq) : same a b -> same b a.
Proof. destruct a, b; simpl; auto; intros H; symmetry; exact H. Qed.

Lemma same_trans (a b c : xq) : same a b -> same b c -> same a c.
Proof.
  destruct a, b, c; simpl; auto; try contradiction.
  intros H1 H2; rewrite H1; exact H2.
Qed.

#[export] Instance same_Equivalence : Equivalence same.
Proof.
  split; [exact same_refl | exact same_sym | exact same_trans].
Qed.

Lemma same_Num (a : xq) (q : Q) : same a (Num q) -> exists p, a = Num p /\ p == q.
Proof. destruct a; simpl; try contradiction; intros H; eauto. Qed.

Lemma same_num (q : Q) : same (num q) (Num q).
Proof. apply Qred_correct. Qed.

Lemma same_finite (a : xq) : is_finite a -> same a (Num (qval a)).
Proof. destruct a; simpl; try contradiction; reflexivity. Qed.

Lemma xadd_num (a b : xq) (p q : Q) :
  same a (Num p) -> same b (Num q) -> same (xadd a b) (Num (p + q)).
Proof.
  intros Ha Hb; apply same_Num in Ha, Hb.
  destruct Ha as [p' [-> Hp]], Hb as [q' [-> Hq]].
  unfold xadd, num, same; now rewrite Qred_correct, Hp, Hq.
Qed.

Lemma xsub_num (a b : xq) (p q : Q) :
  same a (Num p) -> same b (Num q) -> same (xsub a b) (Num (p - q)).
Proof.
  intros Ha Hb; apply same_Num in Ha, Hb.
  destruct Ha as [p' [-> Hp]], Hb as [q' [-> Hq]].
  unfold xsub, num, same; now rewrite Qred_correct, Hp, Hq.
Qed.

Lemma xmul_num (a b : xq) (p q : Q) :
  same a (Num p) -> same b (Num q) -> same (xmul a b) (Num (p * q)).
Proof.
  intros Ha Hb; apply same_Num in Ha, Hb.
  destruct Ha as [p' [-> Hp]], Hb as [q' [-> Hq]].
  unfold xmul, num, same; now rewrite Qred_correct, Hp, Hq.
Qed.

Lemma xdiv_num (a b : xq) (p q : Q) :
  same a (Num p) -> same b (Num q) -> ~ q == 0 ->
  same (xdiv a b) (Num (p / q)).
Proof.
  intros Ha Hb Hn; apply same_Num in Ha, Hb.
  destruct Ha as [p' [-> Hp]], Hb as [q' [-> Hq]]; unfold xdiv.
  destruct (Qeq_bool q' 0) eqn:E.
  - apply Qeq_bool_iff in E; rewrite Hq in E; contradiction.
  - unfold num, same; now rewrite Qred_correct, Hp, Hq.
Qed.

(** 0 / 0 *)
Lemma xdiv_zero_zero (a b : xq) :
  same a (Num 0) -> same b (Num 0) -> xdiv a b = NaN.
Proof.
  intros Ha Hb; apply same_Num in Ha, Hb.
  destruct Ha as [p' [-> Hp]], Hb as [q' [-> Hq]]; unfold xdiv.
  apply Qeq_bool_iff in Hq; rewrite Hq.
  apply Qeq_alt in Hp; rewrite Hp; reflexivity.
Qed.

Lemma xsign_comp (a a' : xq) : same a a' -> xsign a = xsign a'.
Proof.
  destruct a, a'; simpl; try contradiction; auto.
  intros H; now rewrite H.
Qed.

Lemma Qeq_bool_comp (p p' q q' : Q) : p == p' -> q == q' -> Qeq_bool p q = Qeq_bool p' q'.
Proof.
  intros Hp Hq.
  destruct (Qeq_bool p q) eqn:E, (Qeq_bool p' q') eqn:E'; auto.
  - apply Qeq_bool_iff in E. rewrite Hp, Hq in E. apply Qeq_bool_iff in E. congruence.
  - apply Qeq_bool_iff in E'. rewrite <- Hp, <- Hq in E'. apply Qeq_bool_iff in E'. congruence.
Qed.

Lemma Qle_bool_comp (p p' q q' : Q) : p == p' -> q == q' -> Qle_bool p q = Qle_bool p' q'.
Proof.
  intros Hp Hq.
  destruct (Qle_bool p q) eqn:E, (Qle_bool p' q') eqn:E'; auto.
  - apply Qle_bool_iff in E. rewrite Hp, Hq in E. apply Qle_bool_iff in E. congruence.
  - apply Qle_bool_iff in E'. rewrite <- Hp, <- Hq in E'. apply Qle_bool_iff in E'. congruence.
Qed.

(** The operations respect [same]. *)
Ltac same_cases a a' b b' Ha Hb :=
  destruct a as [p| | |], a' as [p'| | |]; cbn [same] in Ha; try contradiction;
  destruct b as [q| | |], b' as [q'| | |]; cbn [same] in Hb; try contradiction.

Lemma xadd_comp (a a' b b' : xq) :
  same a a' -> same b b' -> same (xadd a b) (xadd a' b').
Proof.
  intros Ha Hb; same_cases a a' b b' Ha Hb; try exact I.
  unfold xadd, num, same; now rewrite !Qred_correct, Ha, Hb.
Qed.

Lemma xsub_comp (a a' b b' : xq) :
  same a a' -> same b b' -> same (xsub a b) (xsub a' b').
Proof.
  intros Ha Hb; same_cases a a' b b' Ha Hb; try exact I.
  unfold xsub, num, same; now rewrite !Qred_correct, Ha, Hb.
Qed.

Lemma xmul_comp (a a' b b' : xq) :
  same a a' -> same b b' -> same (xmul a b) (xmul a' b').
Proof.
  intros Ha Hb; same_cases a a' b b' Ha Hb; try exact I.
  - unfold xmul, num, same; now rewrite !Qred_correct, Ha, Hb.
  - unfold xmul, xsign; rewrite Ha; apply same_refl.
  - unfold xmul, xsign; rewrite Ha; apply same_refl.
  - unfold xmul, xsign; rewrite Hb; apply same_refl.
  - unfold xmul, xsign; rewrite Hb; apply same_refl.
Qed.

Lemma xdiv_comp (a a' b b' : xq) :
  same a a' -> same b b' -> same (xdiv a b) (xdiv a' b').
Proof.
  intros Ha Hb; same_cases a a' b b' Ha Hb; try exact I; try apply Qeq_refl.
  - unfold xdiv; rewrite (Qeq_bool_comp Hb (Qeq_refl 0)).
    destruct (Qeq_bool q' 0).
    + rewrite Ha; apply same_refl.
    + unfold num, same; now rewrite !Qred_correct, Ha, Hb.
  - unfold xdiv; rewrite (Qle_bool_comp (Qeq_refl 0) Hb); apply same_refl.
  - unfold xdiv; rewrite (Qle_bool_comp (Qeq_refl 0) Hb); apply same_refl.
Qed.

#[export] Instance xadd_Proper : Proper (same ==> same ==> same) xadd.
Proof. intros a a' Ha b b' Hb; now apply xadd_comp. Qed.

#[export] Instance xsub_Proper : Proper (same ==> same ==> same) xsub.
Proof. intros a a' Ha b b' Hb; now apply xsub_comp. Qed.

#[export] Instance xmul_Proper : Proper (same ==> same ==> same) xmul.
Proof. intros a a' Ha b b' Hb; now apply xmul_comp. Qed.

#[export] Instance xdiv_Proper : Proper (same ==> same ==> same) xdiv.
Proof. intros a a' Ha b b' Hb; now apply xdiv_comp. Qed.

(** Sums of rationals. *)

Lemma Qsum_app (l1 l2 : list Q) : Qsum (l1 ++ l2) == Qsum l1 + Qsum l2.
Proof.
  induction l1 as [|x l1 IH]; simpl; [ring|].
  rewrite IH; ring.
Qed.

Lemma Qsum_map_ext {A : Type} (f g : A -> Q) (l : list A) :
  (forall x, In x l -> f x == g x) -> Qsum (map f l) == Qsum (map g l).
Proof.
  induction l as [|x l IH]; simpl; intros E; [reflexivity|].
  rewrite (E x) by auto; rewrite IH by auto; reflexivity.
Qed.

Lemma Qsum_map_scale {A : Type} (f : A -> Q) (c : Q) (l : list A) :
  Qsum (map (fun x => f x * c) l) == Qsum (map f l) * c.
Proof.
  induction l as [|x l IH]; simpl; [ring|].
  rewrite IH; ring.
Qed.

Lemma Qsum_map_const {A : Type} (c : Q) (l : list A) :
  Qsum (map (fun _ => c) l) == inject_Z (Z.of_nat (length l)) * c.
Proof.
  induction l as [|x l IH]; [simpl; ring|].
  cbn [map Qsum fold_right length]; fold (Qsum (map (fun _ => c) l)).
  rewrite IH, Nat2Z.inj_succ; unfold Z.succ; rewrite inject_Z_plus; ring.
Qed.

Lemma Qsum_flat_map {A B : Type} (f : A -> list B) (g : B -> Q) (l : list A) :
  Qsum (map g (flat_map f l)) == Qsum (map (fun x => Qsum (map g (f x))) l).
Proof.
  induction l as [|x l IH]; simpl; [reflexivity|].
  rewrite map_app, Qsum_app, IH; reflexivity.
Qed.

(** [ssum] on finite scalars is the sum of the rationals. *)
Lemma ssum_num (l : list xq) (ql : list Q) :
  Forall2 (fun a q => same a (Num q)) l ql ->
  same (ssum l) (Num (Qsum ql)).
Proof.
  unfold ssum; simpl.
  assert (G : forall acc qacc, same acc (Num qacc) ->
            Forall2 (fun a q => same a (Num q)) l ql ->
            same (fold_left xadd l acc) (Num (qacc + Qsum ql))).
  { intros acc qacc Hacc HF; revert acc qacc Hacc.
    induction HF as [|a q l ql Haq HF IH]; intros acc qacc Hacc; simpl.
    - rewrite Hacc; simpl; ring.
    - rewrite (IH (xadd acc a) (qacc + q)) by (now apply xadd_num).
      simpl; ring. }
  intros HF. rewrite (G (Num (inject_Z 0)) 0 (Qeq_refl 0) HF); simpl; ring.
Qed.

Lemma ssum_map_num {A : Type} (f : A -> xq) (g : A -> Q) (l : list A) :
  (forall x, In x l -> same (f x) (Num (g x))) ->
  same (ssum (map f l)) (Num (Qsum (map g l))).
Proof.
  intros E; apply ssum_num.
  induction l as [|x l IH]; simpl; constructor.
  - apply E; now left.
  - apply IH; intros y Hy; apply E; now right.
Qed.

(** ** Reflection at the boundary *)

Lemma reflect_lt (n : nat) (i : Z) : (0 < n)%nat -> (reflect n i < n)%nat.
Proof.
  intros Hn; unfold reflect.
  pose proof (Z.mod_pos_bound i (2 * Z.of_nat n)) as Hm.
  destruct (Z.ltb_spec (i mod (2 * Z.of_nat n)) (Z.of_nat n)); lia.
Qed.

Lemma reflect_inside (n : nat) (i : nat) : (i < n)%nat -> reflect n (Z.of_nat i) = i.
Proof.
  intros Hi; unfold reflect.
  rewrite Z.mod_small by lia.
  destruct (Z.ltb_spec (Z.of_nat i) (Z.of_nat n)); lia.
Qed.

(** ... c b a | a b c ...: cell [-1 - k] mirrors cell [k]. *)
Lemma reflect_before (n k : nat) :
  (k < n)%nat -> reflect n (- 1 - Z.of_nat k) = k.
Proof.
  intros Hk; unfold reflect.
  assert (E : ((- 1 - Z.of_nat k) mod (2 * Z.of_nat n)
               = 2 * Z.of_nat n - 1 - Z.of_nat k)%Z).
  { symmetry; apply (Z.mod_unique _ _ (-1)); lia. }
  rewrite E.
  destruct (Z.ltb_spec (2 * Z.of_nat n - 1 - Z.of_nat k) (Z.of_nat n)); lia.
Qed.

(** ... b c d | d c b ...: cell [n + k] mirrors cell [n - 1 - k]. *)
Lemma reflect_after (n k : nat) :
  (k < n)%nat -> reflect n (Z.of_nat n + Z.of_nat k) = (n - 1 - k)%nat.
Proof.
  intros Hk; unfold reflect.
  rewrite Z.mod_small by lia.
  destruct (Z.ltb_spec (Z.of_nat n + Z.of_nat k) (Z.of_nat n)); lia.
Qed.

Lemma mirror_at_reflect {A : Type} (d : A) (line : list A) (i : Z) :
  (0 < length line)%nat ->
  mirror_at d line i = nth (reflect (length line) i) line d.
Proof.
  intros Hn; unfold mirror_at, reflect.
  set (n := length line) in *.
  pose proof (Z.mod_pos_bound i (2 * Z.of_nat n)) as Hm.
  set (m := (i mod (2 * Z.of_nat n))%Z) in *.
  destruct (Z.ltb_spec m (Z.of_nat n)).
  - apply app_nth1; fold n; lia.
  - rewrite app_nth2 by (fold n; lia).
    rewrite rev_nth by (fold n; lia).
    fold n; f_equal; lia.
Qed.

Lemma window_length (n : nat) (size : Z) (p : nat) :
  length (window n size p) = Z.to_nat size.
Proof. unfold window; now rewrite length_map, length_seq. Qed.

Lemma window_lt (n : nat) (size : Z) (p y : nat) :
  (0 < n)%nat -> In y (window n size p) -> (y < n)%nat.
Proof.
  intros Hn Hy; unfold window in Hy.
  apply in_map_iff in Hy; destruct Hy as [k [<- _]].
  now apply reflect_lt.
Qed.

Lemma window_one (n p : nat) : (p < n)%nat -> window n 1 p = [p].
Proof.
  intros Hp; unfold window.
  change (Z.to_nat 1) with 1%nat; cbn [seq map].
  replace (Z.of_nat p - 1 / 2 + Z.of_nat 0)%Z with (Z.of_nat p)
    by (change (1 / 2)%Z with 0%Z; lia).
  now rewrite reflect_inside.
Qed.

Lemma window_cells_length (h w : nat) (size : Z) (i j : nat) :
  length (window_cells h w size i j) = (Z.to_nat size * Z.to_nat size)%nat.
Proof.
  unfold window_cells.
  assert (G : forall l : list nat,
            length (flat_map (fun y => map (fun x => (y, x)) (window w size j)) l)
            = (length l * Z.to_nat size)%nat).
  { induction l as [|y l IH]; simpl; [reflexivity|].
    now rewrite length_app, length_map, window_length, IH. }
  now rewrite G, window_length.
Qed.

Lemma window_cells_lt (h w : nat) (size : Z) (i j : nat) (c : nat * nat) :
  (0 < h)%nat -> (0 < w)%nat -> In c (window_cells h w size i j) ->
  (fst c < h)%nat /\ (snd c < w)%nat.
Proof.
  intros Hh Hw Hc; unfold window_cells in Hc.
  apply in_flat_map in Hc; destruct Hc as [y [Hy Hc]].
  apply in_map_iff in Hc; destruct Hc as [x [<- Hx]]; simpl.
  split; eapply window_lt; eauto.
Qed.

(** ** The filter on finite samples *)

Lemma holds_ext (a : array xq) (h w : nat) (f g : nat -> nat -> Q) :
  holds a h w f ->
  (forall i j, (i < h)%nat -> (j < w)%nat -> f i j == g i j) ->
  holds a h w g.
Proof.
  intros [Hs Hf] E; split; [exact Hs|].
  intros i j Hi Hj; rewrite (Hf i j Hi Hj); simpl; now apply E.
Qed.

Lemma finite_get (a : array xq) (h w i j : nat) :
  has_shape a h w -> finite_array a -> (i < h)%nat -> (j < w)%nat ->
  is_finite (get a i j).
Proof.
  intros Hs Hf Hi Hj; unfold get.
  pose proof (has_shape_length Hs) as Hl; pose proof (has_shape_row Hs Hi) as Hr.
  unfold finite_array in Hf; rewrite Forall_forall in Hf.
  assert (Hrow : Forall is_finite (nth i a [])) by (apply Hf, nth_In; lia).
  rewrite Forall_forall in Hrow; apply Hrow, nth_In; lia.
Qed.

Lemma finite_holds (a : array xq) (h w : nat) :
  has_shape a h w -> finite_array a ->
  holds a h w (fun i j => qval (get a i j)).
Proof.
  intros Hs Hf; split; [exact Hs|].
  intros i j Hi Hj; apply same_finite; eapply finite_get; eauto.
Qed.

Lemma inject_Z_nonzero (z : Z) : (1 <= z)%Z -> ~ inject_Z z == 0.
Proof.
  intros Hz E; unfold Qeq, inject_Z in E; simpl in E; lia.
Qed.

(** The moving mean of a line of finite samples is the mean of each
    window. *)

Lemma Qsum_seq_next (g : nat -> Q) (p s : nat) :
  Qsum (map g (seq (S p) (S s)))
  == Qsum (map g (seq p (S s))) + g (p + S s)%nat - g p.
Proof.
  rewrite (seq_S s (S p)), map_app, Qsum_app.
  replace (S p + s)%nat with (p + S s)%nat by lia.
  simpl; ring.
Qed.

Lemma seq_from (p s : nat) : seq p s = map (fun k => (p + k)%nat) (seq 0 s).
Proof.
  induction p as [|p IH]; simpl; [now rewrite map_id|].
  rewrite <- seq_shift, IH, map_map; reflexivity.
Qed.

Lemma running_mean_num (ext : nat -> xq) (qext : nat -> Q) (size : Z) (p : nat) :
  (1 <= size)%Z -> (forall k, same (ext k) (Num (qext k))) ->
  same (running_mean ext size p)
       (Num (Qsum (map qext (seq p (Z.to_nat size))) / inject_Z size)).
Proof.
  intros H1 He.
  pose proof (inject_Z_nonzero H1) as Hn.
  induction p as [|p IH]; cbn [running_mean].
  - apply xdiv_num; [| apply same_refl | exact Hn].
    apply ssum_map_num; intros k _; apply He.
  - change (@sadd xq Scalar_xq) with xadd; change (@ssub xq Scalar_xq) with xsub;
      change (@sdiv xq Scalar_xq) with xdiv.
    assert (Hd : same (xdiv (xsub (ext (p + Z.to_nat size)%nat) (ext p))
                            (of_int size))
                      (Num ((qext (p + Z.to_nat size)%nat - qext p) / inject_Z size))).
    { apply xdiv_num; [apply xsub_num; apply He | apply same_refl | exact Hn]. }
    rewrite (xadd_num _ _ _ _ IH Hd).
    destruct (Z.to_nat size) as [|s] eqn:Es; [lia|].
    unfold same; rewrite Qsum_seq_next; field; exact Hn.
Qed.

Lemma window_from (g : nat -> Q) (n : nat) (size : Z) (p : nat) :
  Qsum (map (fun k => g (reflect n (Z.of_nat k - size / 2))) (seq p (Z.to_nat size)))
  == Qsum (map g (window n size p)).
Proof.
  unfold window; rewrite seq_from, !map_map.
  apply Qsum_map_ext; intros k _.
  replace (Z.of_nat (p + k) - size / 2)%Z with (Z.of_nat p - size / 2 + Z.of_nat k)%Z
    by lia.
  reflexivity.
Qed.

Lemma line_mean_rows (a : array xq) (h w : nat) (f : nat -> nat -> Q)
      (size : Z) (i j : nat) :
  holds a h w f -> (1 <= size)%Z -> (i < h)%nat -> (j < w)%nat ->
  same (line_mean a size 0 i j)
       (Num (Qsum (map (fun y => f y j) (window h size i)) / inject_Z size)).
Proof.
  intros [Hs Hf] H1 Hi Hj; unfold line_mean.
  rewrite (has_shape_shape Hs) by lia.
  rewrite (@running_mean_num _ (fun k => f (reflect h (Z.of_nat k - size / 2)) j)
                             size i H1).
  - unfold same; rewrite (window_from (fun y => f y j)); reflexivity.
  - intros k; simpl; apply Hf; [apply reflect_lt; lia | exact Hj].
Qed.

Lemma line_mean_cols (a : array xq) (h w : nat) (f : nat -> nat -> Q)
      (size : Z) (i j : nat) :
  holds a h w f -> (1 <= size)%Z -> (i < h)%nat -> (j < w)%nat ->
  same (line_mean a size 1 i j)
       (Num (Qsum (map (fun x => f i x) (window w size j)) / inject_Z size)).
Proof.
  intros [Hs Hf] H1 Hi Hj; unfold line_mean.
  rewrite (has_shape_shape Hs) by lia.
  rewrite (@running_mean_num _ (fun k => f i (reflect w (Z.of_nat k - size / 2)))
                             size j H1).
  - unfold same; rewrite (window_from (fun x => f i x)); reflexivity.
  - intros k; simpl; apply Hf; [exact Hi | apply reflect_lt; lia].
Qed.

Lemma holds_filtered (a : array xq) (h w : nat) (f : nat -> nat -> Q) (size : Z) :
  holds a h w f -> holds (filtered a size h w) h w (qfiltered f h w size).
Proof.
  intros Ha; unfold filtered, qfiltered.
  destruct (Z.ltb_spec 1 size) as [H1|H1]; [|exact Ha].
  split; [apply has_shape_tabulate|].
  intros i j Hi Hj; rewrite get_tabulate by assumption.
  apply (line_mean_cols (h := h)
           (f := fun i x => Qsum (map (fun y => f y x) (window h size i))
                            / inject_Z size)); try assumption; try lia.
  split; [apply has_shape_tabulate|].
  intros i' j' Hi' Hj'; rewrite get_tabulate by assumption.
  apply (line_mean_rows (w := w)); try assumption; lia.
Qed.

Lemma holds_sqr (a : array xq) (h w : nat) (f : nat -> nat -> Q) :
  holds a h w f -> holds (arr_sqr a) h w (fun i j => f i j * f i j).
Proof.
  intros [Hs Hf]; split; [apply has_shape_map; exact Hs|].
  intros i j Hi Hj; unfold arr_sqr; rewrite (get_map _ Hs) by assumption.
  apply xmul_num; now apply Hf.
Qed.

Lemma Qsum_map_plus {A : Type} (f g : A -> Q) (l : list A) :
  Qsum (map (fun x => f x + g x) l) == Qsum (map f l) + Qsum (map g l).
Proof.
  induction l as [|x l IH]; simpl; [ring|].
  rewrite IH; ring.
Qed.

Lemma Qsum_swap {A B : Type} (g : A -> B -> Q) (la : list A) (lb : list B) :
  Qsum (map (fun x => Qsum (map (fun y => g y x) la)) lb)
  == Qsum (map (fun y => Qsum (map (fun x => g y x) lb)) la).
Proof.
  induction lb as [|x lb IH]; simpl.
  - induction la as [|y la IHa]; simpl; [reflexivity|]. rewrite <- IHa; ring.
  - rewrite IH, <- Qsum_map_plus; reflexivity.
Qed.

(** The two passes give the mean over the cells of the window. *)
Lemma qfiltered_mean (f : nat -> nat -> Q) (h w : nat) (size : Z) (i j : nat) :
  (1 <= size)%Z -> (i < h)%nat -> (j < w)%nat ->
  qfiltered f h w size i j
  == Qmean (map (fun c => f (fst c) (snd c)) (window_cells h w size i j)).
Proof.
  intros H1 Hi Hj; unfold qfiltered, Qmean.
  rewrite length_map, window_cells_length.
  destruct (Z.ltb_spec 1 size) as [Hs|Hs].
  - unfold window_cells; rewrite Qsum_flat_map.
    rewrite (Qsum_map_ext _ (fun x => Qsum (map (fun y => f y x) (window h size i))
                                        * / inject_Z size))
      by (intros; reflexivity).
    rewrite Qsum_map_scale, Qsum_swap.
    rewrite (Qsum_map_ext (fun x => Qsum (map (fun c => f (fst c) (snd c))
                                              (map (fun x0 => (x, x0)) (window w size j))))
                          (fun y => Qsum (map (fun x => f y x) (window w size j))))
      by (intros; rewrite map_map; reflexivity).
    rewrite Nat2Z.inj_mul, Z2Nat.id, inject_Z_mult by lia.
    field. now apply inject_Z_nonzero.
  - assert (size = 1%Z) by lia; subst size.
    unfold window_cells; rewrite !window_one by assumption; simpl.
    field.
Qed.

(** ** The window as a block of the padded array *)

Lemma firstn_skipn_nth {A : Type} (d : A) (s : nat) (l : list A) (i : nat) :
  (i + s <= length l)%nat ->
  firstn s (skipn i l) = map (fun k => nth (i + k) l d) (seq 0 s).
Proof.
  intros Hl.
  assert (Hlen : length (firstn s (skipn i l)) = s)
    by (rewrite length_firstn, length_skipn; lia).
  apply (nth_ext _ _ d d).
  - now rewrite Hlen, length_map, length_seq.
  - intros k Hk; rewrite Hlen in Hk.
    rewrite nth_firstn, nth_skipn.
    destruct (Nat.ltb_spec k s); [|lia].
    now rewrite (nth_map_seq (fun k => nth (i + k) l d)).
Qed.

Lemma reflect_pad_line_length {A : Type} (d : A) (before after : nat) (line : list A) :
  length (reflect_pad_line d before after line) = (before + length line + after)%nat.
Proof. unfold reflect_pad_line; now rewrite length_map, length_seq. Qed.

Lemma reflect_pad_line_nth {A : Type} (d d' : A) (before after : nat) (line : list A)
      (k : nat) :
  (k < before + length line + after)%nat -> (0 < length line)%nat ->
  nth k (reflect_pad_line d before after line) d'
  = nth (reflect (length line) (Z.of_nat k - Z.of_nat before)) line d.
Proof.
  intros Hk Hn; unfold reflect_pad_line.
  rewrite (nth_map_seq (fun k => mirror_at d line (Z.of_nat k - Z.of_nat before)))
    by assumption.
  now apply mirror_at_reflect.
Qed.

Lemma nth_map_in {A B : Type} (f : A -> B) (l : list A) (n : nat) (da : A) (db : B) :
  (n < length l)%nat -> nth n (map f l) db = f (nth n l da).
Proof.
  intros Hn; rewrite (nth_indep _ db (f da)) by (now rewrite length_map).
  apply map_nth.
Qed.

Lemma window_samples_cells (a : array Q) (h w : nat) (size : Z) (i j : nat) :
  has_shape a h w -> (1 <= size)%Z -> (i < h)%nat -> (j < w)%nat ->
  window_samples a size i j
  = map (fun c => nth (snd c) (nth (fst c) a []) 0) (window_cells h w size i j).
Proof.
  intros Hs H1 Hi Hj.
  assert (0 <= size / 2 < size)%Z as Hd.
  { split; [apply Z.div_pos; lia | apply Z.div_lt_upper_bound; lia]. }
  unfold window_samples, window_cells, flatten, block, reflect_pad.
  set (s := Z.to_nat size); set (b := Z.to_nat (size / 2)).
  set (g := reflect_pad_line 0 b (s - b - 1)).
  pose proof (has_shape_length Hs) as Hl.
  assert (Hb : (b < s)%nat) by (unfold b, s; lia).
  rewrite (firstn_skipn_nth [])
    by (rewrite reflect_pad_line_length, length_map; lia).
  rewrite flat_map_concat_map, concat_map, !map_map.
  unfold window; rewrite !map_map; f_equal.
  apply map_ext_in; intros k Hk; apply in_seq in Hk.
  rewrite (reflect_pad_line_nth [] [])
    by (rewrite length_map; lia).
  rewrite length_map, Hl.
  assert (Hy : (reflect h (Z.of_nat (i + k) - Z.of_nat b) < h)%nat)
    by (apply reflect_lt; lia).
  rewrite (nth_map_in g a [] []) by lia.
  pose proof (has_shape_row Hs Hy) as Hr.
  unfold g at 1.
  rewrite (firstn_skipn_nth 0)
    by (rewrite reflect_pad_line_length; lia).
  rewrite !map_map.
  apply map_ext_in; intros k' Hk'; apply in_seq in Hk'.
  rewrite (reflect_pad_line_nth 0 0) by lia.
  rewrite Hr; cbn [fst snd].
  replace (Z.of_nat (i + k) - Z.of_nat b)%Z
    with (Z.of_nat i - size / 2 + Z.of_nat k)%Z by (unfold b; lia).
  replace (Z.of_nat (j + k') - Z.of_nat b)%Z
    with (Z.of_nat j - size / 2 + Z.of_nat k')%Z by (unfold b; lia).
  reflexivity.
Qed.

Lemma to_q_shape (img : array xq) (h w : nat) :
  has_shape img h w -> has_shape (to_q img) h w.
Proof.
  intros [Hl Hr]; split; [unfold to_q; now rewrite length_map|].
  apply Forall_forall; intros r Hin.
  apply in_map_iff in Hin; destruct Hin as [r' [<- Hin]].
  rewrite length_map; rewrite Forall_forall in Hr; auto.
Qed.

Lemma to_q_nth (img : array xq) (h w i j : nat) :
  has_shape img h w -> (i < h)%nat -> (j < w)%nat ->
  nth j (nth i (to_q img) []) 0 = qval (get img i j).
Proof.
  intros Hs Hi Hj; unfold to_q, get.
  pose proof (has_shape_length Hs) as Hl; pose proof (has_shape_row Hs Hi) as Hr.
  rewrite (nth_map_in (map qval) img [] []) by lia.
  apply nth_map_in; lia.
Qed.

(** The samples of the window, read from the input through [reflect]. *)
Lemma window_samples_get (img : array xq) (h w : nat) (size : Z) (i j : nat) :
  has_shape img h w -> (1 <= size)%Z -> (i < h)%nat -> (j < w)%nat ->
  window_samples (to_q img) size i j
  = map (fun c => qval (get img (fst c) (snd c))) (window_cells h w size i j).
Proof.
  intros Hs H1 Hi Hj.
  rewrite (window_samples_cells (to_q_shape Hs)) by assumption.
  apply map_ext_in; intros c Hc.
  apply window_cells_lt in Hc; [|lia|lia]; destruct Hc.
  now apply (to_q_nth Hs).
Qed.

(** ** Means and variances of rationals *)

Lemma Qsum_sq_dev (m : Q) (l : list Q) :
  Qsum (map (fun x => (x - m) * (x - m)) l)
  == Qsum (map (fun x => x * x) l) - 2 * m * Qsum l
     + inject_Z (Z.of_nat (length l)) * (m * m).
Proof.
  induction l as [|x l IH]; [simpl; ring|].
  cbn [map Qsum fold_right length].
  fold (Qsum (map (fun x => (x - m) * (x - m)) l)).
  fold (Qsum (map (fun x => x * x) l)); fold (Qsum l).
  rewrite IH, Nat2Z.inj_succ; unfold Z.succ; rewrite inject_Z_plus; ring.
Qed.

Lemma length_nonzero {A : Type} (l : list A) :
  l <> [] -> ~ inject_Z (Z.of_nat (length l)) == 0.
Proof.
  intros Hl; apply inject_Z_nonzero.
  destruct l; [contradiction | simpl; lia].
Qed.

(** The variance is the mean of the squares minus the square of the mean. *)
Lemma Qvariance_alt (l : list Q) :
  l <> [] ->
  Qvariance l == Qmean (map (fun x => x * x) l) - Qmean l * Qmean l.
Proof.
  intros Hl; unfold Qvariance, Qmean at 1 3.
  rewrite !length_map, Qsum_sq_dev.
  pose proof (length_nonzero Hl) as Hn.
  unfold Qmean; rewrite length_map.
  set (n := inject_Z (Z.of_nat (length l))) in *.
  field; exact Hn.
Qed.

Lemma Qsum_nonneg (l : list Q) : (forall x, In x l -> 0 <= x) -> 0 <= Qsum l.
Proof.
  induction l as [|x l IH]; intros H; [apply Qle_refl|].
  assert (0 <= x) by (apply H; now left).
  assert (0 <= Qsum l) by (apply IH; intros; apply H; now right).
  change (Qsum (x :: l)) with (x + Qsum l); lra.
Qed.

Lemma Qsq_nonneg (x : Q) : 0 <= x * x.
Proof. nra. Qed.

Lemma Qvariance_nonneg (l : list Q) : 0 <= Qvariance l.
Proof.
  unfold Qvariance, Qmean at 1; rewrite length_map.
  set (n := inject_Z (Z.of_nat (length l))).
  assert (Hn : 0 <= n) by (unfold n, Qle; simpl; lia).
  assert (Hs : 0 <= Qsum (map (fun x => (x - Qmean l) * (x - Qmean l)) l)).
  { apply Qsum_nonneg; intros x Hx.
    apply in_map_iff in Hx; destruct Hx as [y [<- _]]; apply Qsq_nonneg. }
  unfold Qdiv; apply Qmult_le_0_compat; [exact Hs|].
  now apply Qinv_le_0_compat.
Qed.

(** A zero variance leaves every sample equal to the mean. *)
Lemma Qsum_zero (l : list Q) :
  (forall x, In x l -> 0 <= x) -> Qsum l == 0 -> forall x, In x l -> x == 0.
Proof.
  induction l as [|y l IH]; intros Hp H0 x Hx; [contradiction|].
  assert (0 <= y) by (apply Hp; now left).
  assert (0 <= Qsum l) by (apply Qsum_nonneg; intros; apply Hp; now right).
  change (Qsum (y :: l)) with (y + Qsum l) in H0.
  destruct Hx as [<-|Hx]; [lra|].
  apply IH; [intros; apply Hp; now right | lra | exact Hx].
Qed.

Lemma Qvariance_zero (l : list Q) :
  l <> [] -> Qvariance l == 0 -> forall x, In x l -> x == Qmean l.
Proof.
  intros Hl H0 x Hx; pose proof (length_nonzero Hl) as Hn.
  unfold Qvariance, Qmean at 1 in H0; rewrite length_map in H0.
  set (m := Qmean l) in *.
  assert (Hs : Qsum (map (fun x => (x - m) * (x - m)) l) == 0).
  { set (n := inject_Z (Z.of_nat (length l))) in *.
    set (s := Qsum _) in *.
    assert (E : s == s / n * n) by (field; exact Hn).
    rewrite E, H0; ring. }
  assert (Hd : (x - m) * (x - m) == 0).
  { apply (Qsum_zero (map (fun x => (x - m) * (x - m)) l)); auto.
    - intros y Hy; apply in_map_iff in Hy; destruct Hy as [z [<- _]].
      apply Qsq_nonneg.
    - apply in_map_iff; eauto. }
  apply Qmult_integral in Hd; destruct Hd; lra.
Qed.

Lemma Qmean_const (c : Q) (l : list Q) :
  l <> [] -> (forall x, In x l -> x == c) -> Qmean l == c.
Proof.
  intros Hl Hc; pose proof (length_nonzero Hl) as Hn; unfold Qmean.
  rewrite <- (map_id l) at 1.
  rewrite (Qsum_map_ext (fun x => x) (fun _ => c)) by exact Hc.
  rewrite Qsum_map_const; field; exact Hn.
Qed.

Lemma Qvariance_const (c : Q) (l : list Q) :
  l <> [] -> (forall x, In x l -> x == c) -> Qvariance l == 0.
Proof.
  intros Hl Hc; unfold Qvariance.
  apply Qmean_const.
  - destruct l; [contradiction | discriminate].
  - intros y Hy; apply in_map_iff in Hy; destruct Hy as [x [<- Hx]].
    rewrite (Hc x Hx), (Qmean_const Hl Hc); ring.
Qed.

(** ** numpy's sum on finite samples *)

Lemma Forall2_firstn {A B : Type} (R : A -> B -> Prop) (n : nat)
      (l : list A) (l' : list B) :
  Forall2 R l l' -> Forall2 R (firstn n l) (firstn n l').
Proof.
  intros H; revert n; induction H as [|a b l l' Hab _ IH]; intros [|n]; simpl;
    constructor; auto.
Qed.

Lemma Forall2_skipn {A B : Type} (R : A -> B -> Prop) (n : nat)
      (l : list A) (l' : list B) :
  Forall2 R l l' -> Forall2 R (skipn n l) (skipn n l').
Proof.
  intros H; revert n; induction H as [|a b l l' Hab H IH]; intros [|n]; simpl;
    auto; constructor; auto.
Qed.

Lemma Qsum_firstn_skipn (n : nat) (l : list Q) :
  Qsum l == Qsum (firstn n l) + Qsum (skipn n l).
Proof. rewrite <- Qsum_app, firstn_skipn; reflexivity. Qed.

Lemma Qsum_map2 (l1 l2 : list Q) :
  length l1 = length l2 -> Qsum (map2 Qplus l1 l2) == Qsum l1 + Qsum l2.
Proof.
  revert l2; induction l1 as [|a l1 IH]; intros [|b l2] Hl; simpl in *;
    try discriminate; [ring|].
  rewrite IH by lia; ring.
Qed.

Lemma fold_add_num (l : list xq) (ql : list Q) :
  Forall2 is_num l ql ->
  forall acc qacc, same acc (Num qacc) ->
    same (fold_left xadd l acc) (Num (qacc + Qsum ql)).
Proof.
  induction 1 as [|a q l ql Haq HF IH]; intros acc qacc Hacc; simpl.
  - rewrite Hacc; simpl; ring.
  - rewrite (IH (xadd acc a) (qacc + q)) by (now apply xadd_num).
    simpl; ring.
Qed.

Lemma map2_add_num (r b : list xq) (qr qb : list Q) :
  Forall2 is_num r qr -> Forall2 is_num b qb ->
  Forall2 is_num (map2 xadd r b) (map2 Qplus qr qb).
Proof.
  intros Hr; revert b qb; induction Hr as [|a q r qr Haq Hr IH];
    intros b qb Hb; simpl; [constructor|].
  destruct Hb as [|a' q' b qb Haq' Hb]; constructor; [now apply xadd_num | auto].
Qed.

Lemma accumulate_num (k : nat) :
  forall (r l : list xq) (qr ql : list Q),
    length r = 8%nat -> (8 * k <= length l)%nat ->
    Forall2 is_num r qr -> Forall2 is_num l ql ->
    exists qr' qrest,
      Forall2 is_num (fst (accumulate k r l)) qr' /\
      Forall2 is_num (snd (accumulate k r l)) qrest /\
      length (fst (accumulate k r l)) = 8%nat /\
      Qsum qr' + Qsum qrest == Qsum qr + Qsum ql.
Proof.
  induction k as [|k IH]; intros r l qr ql Hr Hl HR HL; cbn [accumulate].
  - exists qr, ql; repeat split; auto; reflexivity.
  - assert (Hb : length (firstn 8 l) = 8%nat) by (rewrite length_firstn; lia).
    destruct (IH (map2 xadd r (firstn 8 l)) (skipn 8 l)
                 (map2 Qplus qr (firstn 8 ql)) (skipn 8 ql))
      as [qr' [qrest [H1 [H2 [H3 H4]]]]].
    + rewrite map2_length; [exact Hr | now rewrite Hr, Hb].
    + rewrite length_skipn; lia.
    + apply map2_add_num; [exact HR | now apply Forall2_firstn].
    + now apply Forall2_skipn.
    + exists qr', qrest; repeat split; auto.
      rewrite H4, Qsum_map2, (Qsum_firstn_skipn 8 ql); [ring|].
      rewrite <- (Forall2_length HR), Hr, <- (Forall2_length (Forall2_firstn 8 HL)), Hb.
      reflexivity.
Qed.

Lemma sum8_num (r : list xq) (qr : list Q) :
  length r = 8%nat -> Forall2 is_num r qr -> same (sum8 r) (Num (Qsum qr)).
Proof.
  intros Hl HF.
  do 8 (destruct HF as [|? ? ? ? ? HF]; [discriminate|]).
  destruct HF; [|discriminate]; unfold sum8.
  eapply same_trans.
  - apply xadd_num; apply xadd_num; apply xadd_num; eassumption.
  - simpl; ring.
Qed.

Lemma unrolled_sum_num (l : list xq) (ql : list Q) :
  (8 <= length l)%nat -> Forall2 is_num l ql ->
  same (unrolled_sum l) (Num (Qsum ql)).
Proof.
  intros Hl HF; unfold unrolled_sum.
  assert (Hb : length (firstn 8 l) = 8%nat) by (rewrite length_firstn; lia).
  destruct (@accumulate_num (length l / 8 - 1) (firstn 8 l) (skipn 8 l)
                            (firstn 8 ql) (skipn 8 ql))
    as [qr' [qrest [H1 [H2 [H3 H4]]]]]; auto.
  - rewrite length_skipn.
    pose proof (Nat.Div0.mul_div_le (length l) 8); lia.
  - now apply Forall2_firstn.
  - now apply Forall2_skipn.
  - destruct (accumulate (length l / 8 - 1) (firstn 8 l) (skipn 8 l)) as [r rest].
    cbn [fst snd] in *.
    rewrite (fold_add_num H2 _ _ (sum8_num H3 H1)).
    unfold same; rewrite H4, (Qsum_firstn_skipn 8 ql); reflexivity.
Qed.

Lemma pairwise_sum_S {T : Type} {ST : Scalar T} (fuel : nat) (l : list T) :
  pairwise_sum (S fuel) l
  = if (length l <? 8)%nat then ssum l
    else if (length l <=? 128)%nat then unrolled_sum l
    else
      let n2 := (length l / 2 - (length l / 2) mod 8)%nat in
      sadd (pairwise_sum fuel (firstn n2 l)) (pairwise_sum fuel (skipn n2 l)).
Proof. reflexivity. Qed.

Lemma pairwise_sum_O {T : Type} {ST : Scalar T} (l : list T) :
  pairwise_sum 0 l
  = if (length l <? 8)%nat then ssum l else unrolled_sum l.
Proof. simpl; destruct (length l <? 8)%nat, (length l <=? 128)%nat; reflexivity. Qed.

(** The length of the run is fuel enough: with that much, the sum does
    not depend on the fuel. *)
Lemma pairwise_sum_fuel {T : Type} {ST : Scalar T} (fuel : nat) :
  forall (fuel' : nat) (l : list T),
    (length l <= fuel)%nat -> (length l <= fuel')%nat ->
    pairwise_sum fuel l = pairwise_sum fuel' l.
Proof.
  induction fuel as [|fuel IH]; intros [|fuel'] l H H';
    rewrite ?pairwise_sum_O, ?pairwise_sum_S;
    destruct (Nat.ltb_spec (length l) 8) as [H8|H8]; try reflexivity; try lia.
  destruct (Nat.leb_spec (length l) 128) as [Hb|Hb]; [reflexivity|].
  pose proof (Nat.mod_upper_bound (length l / 2) 8 ltac:(lia)) as Hm.
  pose proof (Nat.Div0.mul_div_le (length l) 2) as Hd.
  pose proof (Nat.mul_succ_div_gt (length l) 2 ltac:(lia)) as Hd'.
  cbv zeta; set (n2 := (length l / 2 - (length l / 2) mod 8)%nat) in *.
  f_equal; apply IH; rewrite ?length_firstn, ?length_skipn; lia.
Qed.

Lemma pairwise_sum_num (fuel : nat) :
  forall (l : list xq) (ql : list Q),
    Forall2 is_num l ql -> same (pairwise_sum fuel l) (Num (Qsum ql)).
Proof.
  induction fuel as [|fuel IH]; intros l ql HF.
  - rewrite pairwise_sum_O.
    destruct (Nat.ltb_spec (length l) 8); [now apply ssum_num|].
    now apply unrolled_sum_num.
  - rewrite pairwise_sum_S.
    destruct (Nat.ltb_spec (length l) 8); [now apply ssum_num|].
    destruct (length l <=? 128)%nat; [now apply unrolled_sum_num|].
    cbv zeta; set (n2 := (length l / 2 - (length l / 2) mod 8)%nat).
    change (@sadd xq Scalar_xq) with xadd.
    rewrite (xadd_num _ _ _ _ (IH _ _ (Forall2_firstn n2 HF))
                              (IH _ _ (Forall2_skipn n2 HF))).
    unfold same; rewrite (Qsum_firstn_skipn n2 ql); reflexivity.
Qed.

Lemma np_sum_num (l : list xq) (ql : list Q) :
  Forall2 is_num l ql -> same (np_sum l) (Num (Qsum ql)).
Proof. apply pairwise_sum_num. Qed.

Lemma np_sum_map_num {A : Type} (f : A -> xq) (g : A -> Q) (l : list A) :
  (forall x, In x l -> same (f x) (Num (g x))) ->
  same (np_sum (map f l)) (Num (Qsum (map g l))).
Proof.
  intros E; apply np_sum_num.
  induction l as [|x l IH]; simpl; constructor.
  - apply E; now left.
  - apply IH; intros y Hy; apply E; now right.
Qed.

Lemma np_sum_finite (l : list xq) :
  Forall is_finite l -> same (np_sum l) (Num (Qsum (map qval l))).
Proof.
  intros Hf; rewrite <- (map_id l) at 1.
  apply np_sum_map_num; intros x Hx.
  rewrite Forall_forall in Hf; now apply same_finite, Hf.
Qed.

(** ** [np.var] on finite samples *)

Lemma finite_flatten (a : array xq) : finite_array a -> Forall is_finite (flatten a).
Proof.
  unfold finite_array, flatten; intros Hf.
  induction Hf as [|r a Hr Ha IH]; simpl; [constructor|].
  apply Forall_app; split; assumption.
Qed.

Lemma flatten_to_q (a : array xq) : flatten (to_q a) = map qval (flatten a).
Proof. unfold flatten, to_q; now rewrite concat_map. Qed.

Lemma np_var_finite (a : array xq) :
  finite_array a -> flatten a <> [] ->
  same (np_var a) (Num (Qvariance (flatten (to_q a)))).
Proof.
  intros Hf Hne; apply finite_flatten in Hf.
  rewrite flatten_to_q; unfold np_var.
  set (cells := flatten a) in *.
  pose proof (length_nonzero Hne) as Hn.
  assert (Hm : same (sdiv (np_sum cells) (of_int (Z.of_nat (length cells))))
                    (Num (Qmean (map qval cells)))).
  { unfold Qmean; rewrite length_map.
    apply xdiv_num; [now apply np_sum_finite | apply same_refl | exact Hn]. }
  unfold Qvariance, Qmean at 1; rewrite !length_map, !map_map.
  apply xdiv_num; [| apply same_refl | exact Hn].
  apply np_sum_map_num; intros x Hx.
  rewrite Forall_forall in Hf.
  assert (Hd : same (ssub x (sdiv (np_sum cells) (of_int (Z.of_nat (length cells)))))
                    (Num (qval x - Qmean (map qval cells)))).
  { apply xsub_num; [now apply same_finite, Hf | exact Hm]. }
  now apply xmul_num.
Qed.

(** ** The locals of [lee_filter] on finite samples *)

Lemma flatten_nonempty (img : array xq) (h w i j : nat) :
  has_shape img h w -> (i < h)%nat -> (j < w)%nat -> flatten img <> [].
Proof.
  intros Hs Hi Hj E.
  pose proof (has_shape_length Hs) as Hl; pose proof (has_shape_row Hs Hi) as Hr.
  assert (Hin : In (get img i j) (flatten img)).
  { unfold flatten; apply in_concat; exists (nth i img []).
    split; apply nth_In; lia. }
  rewrite E in Hin; exact Hin.
Qed.

Lemma filtered_local_mean (img : array xq) (h w : nat) (size : Z) (i j : nat) :
  has_shape img h w -> finite_array img -> (1 <= size)%Z ->
  (i < h)%nat -> (j < w)%nat ->
  same (get (filtered img size h w) i j) (Num (local_mean (to_q img) size i j)).
Proof.
  intros Hs Hf H1 Hi Hj.
  destruct (holds_filtered size (finite_holds Hs Hf)) as [_ Hc].
  rewrite (Hc i j Hi Hj); cbn [same].
  rewrite qfiltered_mean by assumption.
  unfold local_mean; now rewrite (window_samples_get Hs).
Qed.

Lemma filtered_local_sq_mean (img : array xq) (h w : nat) (size : Z) (i j : nat) :
  has_shape img h w -> finite_array img -> (1 <= size)%Z ->
  (i < h)%nat -> (j < w)%nat ->
  same (get (filtered (arr_sqr img) size h w) i j)
       (Num (local_sq_mean (to_q img) size i j)).
Proof.
  intros Hs Hf H1 Hi Hj.
  destruct (holds_filtered size (holds_sqr (finite_holds Hs Hf))) as [_ Hc].
  rewrite (Hc i j Hi Hj); cbn [same].
  rewrite qfiltered_mean by assumption.
  unfold local_sq_mean; rewrite (window_samples_get Hs), map_map by assumption.
  reflexivity.
Qed.

(** The local variance is the variance of the samples of the window. *)
Lemma local_variance_window (a : array Q) (h w : nat) (size : Z) (i j : nat) :
  has_shape a h w -> (1 <= size)%Z -> (i < h)%nat -> (j < w)%nat ->
  local_variance a size i j == Qvariance (window_samples a size i j).
Proof.
  intros Hs H1 Hi Hj; unfold local_variance, local_sq_mean, local_mean.
  rewrite Qvariance_alt; [reflexivity|].
  intros E; apply (f_equal (@length Q)) in E.
  rewrite (window_samples_cells Hs), length_map, window_cells_length in E by assumption.
  simpl in E; nia.
Qed.

(** Every local of [lee_filter], cell by cell, in the words of the
    reference definitions. *)
Lemma lee_filter_locals_finite (img : array xq) (h w : nat) (size : Z) :
  has_shape img h w -> finite_array img -> (1 <= size)%Z ->
  exists L : lee_locals,
    lee_filter_locals img size = Ok L /\
    has_shape (img_output L) h w /\
    forall i j, (i < h)%nat -> (j < w)%nat ->
      let x := to_q img in
      same (get (img_mean L) i j) (Num (local_mean x size i j)) /\
      same (get (img_sqr_mean L) i j) (Num (local_sq_mean x size i j)) /\
      same (get (img_variance L) i j) (Num (local_variance x size i j)) /\
      same (overall_variance L) (Num (Qvariance (flatten x))) /\
      get (img_weights L) i j
      = xdiv (get (img_variance L) i j)
             (xadd (get (img_variance L) i j) (overall_variance L)) /\
      get (img_output L) i j
      = xadd (get (img_mean L) i j)
             (xmul (get (img_weights L) i j)
                   (xsub (get img i j) (get (img_mean L) i j))).
Proof.
  intros Hs Hf H1.
  destruct (lee_filter_locals_cells size Hs)
    as [L [HL [Hm [Hsm [Hov [Hshape Hcells]]]]]].
  exists L; split; [exact HL|]; split; [exact Hshape|].
  intros i j Hi Hj x.
  destruct (Hcells i j Hi Hj) as [Hv [Hw Ho]].
  assert (HM : same (get (img_mean L) i j) (Num (local_mean x size i j)))
    by (rewrite Hm; now apply filtered_local_mean).
  assert (HS : same (get (img_sqr_mean L) i j) (Num (local_sq_mean x size i j)))
    by (rewrite Hsm; now apply filtered_local_sq_mean).
  repeat split; try assumption.
  - rewrite Hv; unfold local_variance.
    apply xsub_num; [exact HS | now apply xmul_num].
  - rewrite Hov; apply np_var_finite; [exact Hf|].
    eapply flatten_nonempty; eauto.
Qed.

(** ** The filter formula (C1) *)

(** C1: for a 2-D array of finite samples and a positive window size,
    [lee_filter] returns an array of the same shape whose cell p is
    local_mean[p] + weight[p] * (input[p] - local_mean[p]), with
    local_mean[p] the mean over the size-by-size window of p (a block of
    the padded array, centred on p when the size is odd), local_sq_mean[p]
    the window mean of the squares, local_variance[p] their difference
    local_sq_mean[p] - local_mean[p]^2, overall_variance the variance of the
    whole input, and weight[p] the quotient
    local_variance[p] / (local_variance[p] + overall_variance). *)
Theorem lee_filter_formula (img : array xq) (h w : nat) (size : Z) :
  has_shape img h w -> finite_array img -> (0 < size)%Z ->
  (Z.odd size = true ->
   Z.to_nat (size / 2) = (Z.to_nat size - Z.to_nat (size / 2) - 1)%nat) /\
  exists out : array xq,
    lee_filter img size = Ok out /\
    has_shape out h w /\
    forall i j, (i < h)%nat -> (j < w)%nat ->
      let x := to_q img in
      let mean := Num (local_mean x size i j) in
      let variance :=
        Num (local_sq_mean x size i j - local_mean x size i j * local_mean x size i j) in
      let overall := Num (Qvariance (flatten x)) in
      let weight := xdiv variance (xadd variance overall) in
      same (get out i j) (xadd mean (xmul weight (xsub (get img i j) mean))).
Proof.
  intros Hs Hf H0; split.
  { intros Hodd; rewrite (Zdiv2_odd_eqn size) at 2; rewrite Hodd.
    rewrite <- Z.div2_div; lia. }
  destruct (lee_filter_locals_finite (size := size) Hs Hf) as [L [HL [Hshape Hc]]]; [lia|].
  exists (img_output L); split; [unfold lee_filter; now rewrite HL|].
  split; [exact Hshape|].
  intros i j Hi Hj x mean variance overall weight.
  destruct (Hc i j Hi Hj) as [HM [_ [HV [HO [Hw Ho]]]]].
  rewrite Ho, Hw.
  apply xadd_comp; [exact HM|].
  apply xmul_comp; [| apply xsub_comp; [apply same_refl | exact HM]].
  apply xdiv_comp; [exact HV | apply xadd_comp; [exact HV | exact HO]].
Qed.

(** A run of the filter: the spike of 10 in a 7-by-7 image of ones,
    size 3.  The centre comes out strictly between 1 and 10, its
    neighbours above 1, and a pixel whose window misses the spike stays
    1. *)
Example lee_filter_spike :
  exists out : array xq,
    lee_filter spike_7x7 3 = Ok out /\
    get out 3 3 = Num (24982 # 2887) /\
    get out 3 4 = Num (3373 # 2887) /\
    get out 2 2 = Num (3373 # 2887) /\
    get out 0 0 = Num 1 /\
    get out 3 5 = Num 1.
Proof.
  eexists; split; [vm_compute; reflexivity|].
  vm_compute; repeat split.
Qed.

Lemma has_shape_sample_2x2 : has_shape sample_2x2 2 2.
Proof. split; [reflexivity | repeat constructor]. Qed.

Lemma finite_sample_2x2 : finite_array sample_2x2.
Proof. repeat constructor. Qed.

Lemma lee_filter_formula_witness :
  exists out : array xq, lee_filter sample_2x2 3 = Ok out /\ has_shape out 2 2.
Proof.
  destruct (lee_filter_formula (size := 3) has_shape_sample_2x2 finite_sample_2x2)
    as [_ [out [H1 [H2 _]]]]; [lia|].
  exists out; split; assumption.
Defined.

(** ** Boundary handling (C10) *)

(** C10: at every pixel of a finite image, edge and corner pixels
    included, the local mean and the local squared mean that [lee_filter]
    computes are the arithmetic means over the size-by-size block of the
    mirror-reflected padding of the input; the block is read from the
    input through [reflect], and every index so read lies inside the
    input. *)
Theorem lee_filter_reflect_boundary (img : array xq) (h w : nat) (size : Z) :
  has_shape img h w -> finite_array img -> (0 < size)%Z ->
  exists L : lee_locals,
    lee_filter_locals img size = Ok L /\
    forall i j, (i < h)%nat -> (j < w)%nat ->
      let samples := window_samples (to_q img) size i j in
      same (get (img_mean L) i j) (Num (Qmean samples)) /\
      same (get (img_sqr_mean L) i j) (Num (Qmean (map (fun x => x * x) samples))) /\
      samples = map (fun c => qval (get img (fst c) (snd c)))
                    (window_cells h w size i j) /\
      length samples = (Z.to_nat size * Z.to_nat size)%nat /\
      forall c, In c (window_cells h w size i j) ->
                (fst c < h)%nat /\ (snd c < w)%nat.
Proof.
  intros Hs Hf H0.
  destruct (lee_filter_locals_finite (size := size) Hs Hf) as [L [HL [_ Hc]]]; [lia|].
  exists L; split; [exact HL|].
  intros i j Hi Hj samples.
  destruct (Hc i j Hi Hj) as [HM [HS _]].
  assert (E : samples = map (fun c => qval (get img (fst c) (snd c)))
                            (window_cells h w size i j))
    by (apply window_samples_get; try assumption; lia).
  split; [exact HM|]; split; [exact HS|]; split; [exact E|]; split.
  - now rewrite E, length_map, window_cells_length.
  - intros c Hin; eapply window_cells_lt; [| | exact Hin]; lia.
Qed.

Lemma lee_filter_reflect_boundary_witness :
  exists L : lee_locals,
    lee_filter_locals sample_2x2 3 = Ok L /\
    same (get (img_mean L) 0 0) (Num (Qmean (window_samples (to_q sample_2x2) 3 0 0))).
Proof.
  destruct (lee_filter_reflect_boundary (size := 3) has_shape_sample_2x2 finite_sample_2x2)
    as [L [HL Hc]]; [lia|].
  exists L; split; [exact HL|].
  destruct (Hc 0%nat 0%nat) as [HM _]; [lia | lia | exact HM].
Defined.

(** ** The local variance (C5) *)

(** C5, as the code has it: on finite samples and a positive size, the
    local variance that enters the weight is the plain difference
    local_sq_mean[p] - local_mean[p]^2, with no clamp; in exact arithmetic
    that difference is never negative. *)
Theorem lee_filter_variance_unclamped (img : array xq) (h w : nat) (size : Z) :
  has_shape img h w -> finite_array img -> (0 < size)%Z ->
  exists L : lee_locals,
    lee_filter_locals img size = Ok L /\
    img_variance L = arr_sub (img_sqr_mean L) (arr_sqr (img_mean L)) /\
    img_weights L
    = arr_div (img_variance L) (arr_add_scalar (img_variance L) (overall_variance L)) /\
    forall i j, (i < h)%nat -> (j < w)%nat ->
      exists v : Q,
        get (img_variance L) i j = Num v /\
        v == local_sq_mean (to_q img) size i j
             - local_mean (to_q img) size i j * local_mean (to_q img) size i j /\
        0 <= v.
Proof.
  intros Hs Hf H0.
  destruct (lee_filter_locals_finite (size := size) Hs Hf) as [L [HL [_ Hc]]]; [lia|].
  exists L; split; [exact HL|].
  assert (HL' := HL); unfold lee_filter_locals in HL'.
  destruct (uniform_filter img size) as [m|e]; [|discriminate].
  destruct (uniform_filter (arr_sqr img) size) as [sm|e]; [|discriminate].
  simpl in HL'; injection HL' as <-; simpl.
  split; [reflexivity|]; split; [reflexivity|].
  intros i j Hi Hj.
  destruct (Hc i j Hi Hj) as [_ [_ [HV _]]]; simpl in HV.
  apply same_Num in HV; destruct HV as [v [Ev Hv]].
  exists v; split; [exact Ev|]; split; [exact Hv|].
  rewrite Hv.
  change (0 <= local_variance (to_q img) size i j).
  rewrite (local_variance_window (to_q_shape Hs)) by (assumption || lia).
  apply Qvariance_nonneg.
Qed.

Lemma lee_filter_variance_unclamped_witness :
  exists L : lee_locals,
    lee_filter_locals sample_2x2 3 = Ok L /\
    exists v : Q, get (img_variance L) 1 1 = Num v /\ 0 <= v.
Proof.
  destruct (lee_filter_variance_unclamped (size := 3) has_shape_sample_2x2
              finite_sample_2x2) as [L [HL [_ [_ Hc]]]]; [lia|].
  exists L; split; [exact HL|].
  destruct (Hc 1%nat 1%nat) as [v [Ev [_ Hv]]]; [lia | lia |].
  exists v; split; assumption.
Defined.

(** C5 fails in binary64: on the 1-by-1 image [[0.1]] with size 3 the
    rounded difference local_sq_mean - local_mean^2 is negative; it is not
    replaced by its clamp, and the weight is computed from it. *)
Lemma lee_filter_variance_negative_binary64 :
  exists L : lee_locals,
    lee_filter_locals tenth_pixel 3 = Ok L /\
    let v := get (img_variance L) 0 0 in
    v = ssub (get (img_sqr_mean L) 0 0)
             (smul (get (img_mean L) 0 0) (get (img_mean L) 0 0)) /\
    PrimFloat.ltb v 0 = true /\
    PrimFloat.eqb v (clamp0 v) = false /\
    get (img_weights L) 0 0 = sdiv v (sadd v (overall_variance L)) /\
    PrimFloat.eqb (get (img_weights L) 0 0) 1 = true /\
    PrimFloat.is_nan (sdiv (clamp0 v) (sadd (clamp0 v) (overall_variance L))) = true.
Proof.
  eexists; split; [vm_compute; reflexivity|].
  vm_compute; repeat split.
Qed.

(** ** The IEEE rules on zeros and NaN

    The rules of [Ieee] on the exact scalars. *)

Lemma Qeq_bool_red (q p : Q) : Qeq_bool (Qred q) p = Qeq_bool q p.
Proof.
  destruct (Qeq_bool q p) eqn:E.
  - apply Qeq_bool_iff; rewrite Qred_correct; now apply Qeq_bool_iff.
  - destruct (Qeq_bool (Qred q) p) eqn:E'; [|reflexivity].
    apply Qeq_bool_iff in E'; rewrite Qred_correct in E'.
    apply Qeq_bool_iff in E'; congruence.
Qed.

Lemma xfinite_sqr (x : xq) : xfinite (xmul x x) = true -> xfinite x = true.
Proof. destruct x; simpl; auto. Qed.

Lemma xsub_self (y : xq) : xfinite y = true -> xzero (xsub y y) = true.
Proof.
  destruct y as [q| | |]; try discriminate; intros _.
  unfold xsub, num, xzero; rewrite Qeq_bool_red; apply Qeq_bool_iff; ring.
Qed.

Lemma xsub_self_nan (y : xq) : xfinite y = false -> xisnan (xsub y y) = true.
Proof. destruct y; simpl; auto. Qed.

Lemma xadd_zero_l (d v : xq) :
  xzero d = true -> xzero (xadd d v) = xzero v /\ xisnan (xadd d v) = xisnan v.
Proof.
  destruct d as [q| | |]; try discriminate; intros Hq.
  apply Qeq_bool_iff in Hq.
  destruct v as [p| | |]; try (split; reflexivity); split; [|reflexivity].
  unfold xadd, num, xzero; rewrite Qeq_bool_red.
  apply Qeq_bool_comp; [rewrite Hq; ring | reflexivity].
Qed.

Lemma xdiv_zero_l (d u : xq) :
  xzero d = true ->
  if xzero u || xisnan u then xisnan (xdiv d u) = true else xzero (xdiv d u) = true.
Proof.
  destruct d as [q| | |]; try discriminate; intros Hq.
  apply Qeq_bool_iff in Hq.
  destruct u as [p| | |]; try reflexivity.
  unfold xzero at 1, xisnan at 1, xdiv; rewrite orb_false_r.
  destruct (Qeq_bool p 0) eqn:Ep.
  - apply Qeq_alt in Hq; rewrite Hq; reflexivity.
  - unfold num, xzero; rewrite Qeq_bool_red; apply Qeq_bool_iff; rewrite Hq.
    unfold Qdiv; ring.
Qed.

Lemma xdiv_nan_l (d u : xq) : xisnan d = true -> xisnan (xdiv d u) = true.
Proof. destruct d; simpl; try discriminate; auto. Qed.

Lemma xmul_zero (a b : xq) : xzero a = true -> xzero b = true -> xzero (xmul a b) = true.
Proof.
  destruct a as [p| | |], b as [q| | |]; try discriminate; intros Hp Hq.
  apply Qeq_bool_iff in Hp; unfold xmul, num, xzero.
  rewrite Qeq_bool_red; apply Qeq_bool_iff; rewrite Hp; ring.
Qed.

Lemma xmul_isnan_l (a b : xq) : xisnan a = true -> xisnan (xmul a b) = true.
Proof. destruct a; simpl; try discriminate; auto. Qed.

Lemma xadd_zero_r (x z : xq) :
  xfinite x = true -> xzero z = true -> xeqb (xadd x z) x = true.
Proof.
  destruct x as [p| | |], z as [q| | |]; try discriminate; intros _ Hq.
  apply Qeq_bool_iff in Hq; unfold xadd, num, xeqb.
  rewrite Qeq_bool_red; apply Qeq_bool_iff; rewrite Hq; ring.
Qed.

Lemma xadd_isnan_r (x p : xq) : xisnan p = true -> xisnan (xadd x p) = true.
Proof. destruct p; simpl; try discriminate; destruct x; auto. Qed.

Lemma xeqb_nan_l (a b : xq) : xisnan a = true -> xeqb a b = false.
Proof. destruct a; simpl; try discriminate; auto. Qed.

#[export] Instance Ieee_xq : Ieee Scalar_xq := {|
  sfinite := xfinite;
  szero := xzero;
  seqb := xeqb;
  sfinite_sqr := xfinite_sqr;
  ssub_self := xsub_self;
  ssub_self_nan := xsub_self_nan;
  sadd_zero_l := xadd_zero_l;
  sdiv_zero_l := xdiv_zero_l;
  sdiv_nan_l := xdiv_nan_l;
  smul_zero := xmul_zero;
  smul_nan_l := xmul_isnan_l;
  sadd_zero_r := xadd_zero_r;
  sadd_nan_r := xadd_isnan_r;
  seqb_nan_l := xeqb_nan_l
|}.

(** The same rules on binary64, from the specification of the primitive
    operations. *)

Local Open Scope float_scope.

Lemma is_nan_Prim2SF (x : float) :
  PrimFloat.is_nan x = match Prim2SF x with S754_nan => true | _ => false end.
Proof.
  unfold PrimFloat.is_nan; rewrite FloatAxioms.eqb_spec; unfold SFeqb, SFcompare.
  destruct (Prim2SF x) as [s|s| |s m e]; try reflexivity.
  - destruct s; reflexivity.
  - rewrite Z.compare_refl, Pos.compare_cont_refl; destruct s; reflexivity.
Qed.

Lemma SFcompare_refl (x : spec_float) :
  x <> S754_nan -> SFcompare x x = Some Eq.
Proof.
  destruct x as [s|s| |s m e]; intros H; try reflexivity; try contradiction.
  - destruct s; reflexivity.
  - simpl; rewrite Z.compare_refl, Pos.compare_cont_refl; destruct s; reflexivity.
Qed.

Lemma SFsub_self (s : bool) (m : positive) (e : Z) :
  SF64sub (S754_finite s m e) (S754_finite s m e) = S754_zero false.
Proof.
  unfold SF64sub, SFsub.
  change (IntDef.Z.min e e) with (Z.min e e); rewrite Z.min_id.
  rewrite Z.sub_diag; reflexivity.
Qed.

Lemma ffinite_sqr (x : float) : ffinite (x * x) = true -> ffinite x = true.
Proof.
  unfold ffinite; rewrite FloatAxioms.mul_spec.
  destruct (Prim2SF x) as [s|s| |s m e]; try (intros _; reflexivity); simpl; auto.
Qed.

Lemma fsub_self (y : float) : ffinite y = true -> fzero (y - y) = true.
Proof.
  unfold ffinite, fzero; rewrite FloatAxioms.sub_spec.
  destruct (Prim2SF y) as [s|s| |s m e]; try discriminate; intros _.
  - destruct s; reflexivity.
  - now rewrite SFsub_self.
Qed.

Lemma fsub_self_nan (y : float) : ffinite y = false -> PrimFloat.is_nan (y - y) = true.
Proof.
  unfold ffinite; rewrite is_nan_Prim2SF, FloatAxioms.sub_spec.
  destruct (Prim2SF y) as [s|s| |s m e]; try discriminate; intros _.
  - destruct s; reflexivity.
  - reflexivity.
Qed.

Lemma fadd_zero_l (d v : float) :
  fzero d = true ->
  fzero (d + v) = fzero v /\ PrimFloat.is_nan (d + v) = PrimFloat.is_nan v.
Proof.
  unfold fzero; rewrite !is_nan_Prim2SF, FloatAxioms.add_spec.
  destruct (Prim2SF d) as [s|s| |s m e]; try discriminate; intros _.
  destruct (Prim2SF v) as [t|t| |t n f]; try (split; reflexivity).
  destruct s, t; split; reflexivity.
Qed.

Lemma fdiv_zero_l (d u : float) :
  fzero d = true ->
  if fzero u || PrimFloat.is_nan u
  then PrimFloat.is_nan (d / u) = true
  else fzero (d / u) = true.
Proof.
  unfold fzero; rewrite !is_nan_Prim2SF, FloatAxioms.div_spec.
  destruct (Prim2SF d) as [s|s| |s m e]; try discriminate; intros _.
  destruct (Prim2SF u) as [t|t| |t n f]; reflexivity.
Qed.

Lemma fdiv_nan_l (d u : float) :
  PrimFloat.is_nan d = true -> PrimFloat.is_nan (d / u) = true.
Proof.
  rewrite !is_nan_Prim2SF, FloatAxioms.div_spec.
  destruct (Prim2SF d) as [s|s| |s m e]; try discriminate; intros _; reflexivity.
Qed.

Lemma fmul_zero (a b : float) : fzero a = true -> fzero b = true -> fzero (a * b) = true.
Proof.
  unfold fzero; rewrite FloatAxioms.mul_spec.
  destruct (Prim2SF a) as [s|s| |s m e]; try discriminate; intros _.
  destruct (Prim2SF b) as [t|t| |t n f]; try discriminate; intros _; reflexivity.
Qed.

Lemma fmul_nan_l (a b : float) :
  PrimFloat.is_nan a = true -> PrimFloat.is_nan (a * b) = true.
Proof.
  rewrite !is_nan_Prim2SF, FloatAxioms.mul_spec.
  destruct (Prim2SF a) as [s|s| |s m e]; try discriminate; intros _; reflexivity.
Qed.

Lemma fadd_zero_r (x z : float) :
  ffinite x = true -> fzero z = true -> PrimFloat.eqb (x + z) x = true.
Proof.
  unfold ffinite, fzero; rewrite FloatAxioms.eqb_spec, FloatAxioms.add_spec.
  destruct (Prim2SF x) as [s|s| |s m e]; try discriminate; intros _;
    destruct (Prim2SF z) as [t|t| |t n f]; try discriminate; intros _.
  - destruct s, t; reflexivity.
  - unfold SF64add, SFadd, SFeqb; rewrite SFcompare_refl; [reflexivity | discriminate].
Qed.

Lemma fadd_nan_r (x p : float) :
  PrimFloat.is_nan p = true -> PrimFloat.is_nan (x + p) = true.
Proof.
  rewrite !is_nan_Prim2SF, FloatAxioms.add_spec.
  destruct (Prim2SF p) as [s|s| |s m e]; try discriminate; intros _.
  destruct (Prim2SF x); reflexivity.
Qed.

Lemma feqb_nan_l (a b : float) : PrimFloat.is_nan a = true -> PrimFloat.eqb a b = false.
Proof.
  rewrite is_nan_Prim2SF, FloatAxioms.eqb_spec.
  destruct (Prim2SF a) as [s|s| |s m e]; try discriminate; intros _; reflexivity.
Qed.

Local Close Scope float_scope.

#[export] Instance Ieee_float : Ieee Scalar_float := {|
  sfinite := ffinite;
  szero := fzero;
  seqb := PrimFloat.eqb;
  sfinite_sqr := ffinite_sqr;
  ssub_self := fsub_self;
  ssub_self_nan := fsub_self_nan;
  sadd_zero_l := fadd_zero_l;
  sdiv_zero_l := fdiv_zero_l;
  sdiv_nan_l := fdiv_nan_l;
  smul_zero := fmul_zero;
  smul_nan_l := fmul_nan_l;
  sadd_zero_r := fadd_zero_r;
  sadd_nan_r := fadd_nan_r;
  seqb_nan_l := feqb_nan_l
|}.

Section Blend.

Context {T : Type} {ST : Scalar T} {IT : Ieee ST}.

Local Open Scope scalar_scope.

(** The blend at a pixel whose local variance and overall variance are
    both zero: the weight is 0 / 0. *)
Lemma blend_both_zero (m x v V : T) :
  szero v = true -> szero V = true ->
  sisnan (v / (v + V)) = true /\
  sisnan (m + v / (v + V) * (x - m)) = true /\
  seqb (m + v / (v + V) * (x - m)) x = false.
Proof.
  intros Hv HV.
  destruct (sadd_zero_l v V Hv) as [Ez _].
  pose proof (sdiv_zero_l v (v + V) Hv) as Hw.
  rewrite Ez, HV in Hw; simpl in Hw.
  assert (Ho : sisnan (m + v / (v + V) * (x - m)) = true)
    by (apply sadd_nan_r, smul_nan_l, Hw).
  split; [exact Hw|]; split; [exact Ho | now apply seqb_nan_l].
Qed.

(** The blend of a sample with itself, which is what [lee_filter]
    computes at a pixel when the window is the pixel alone: the local
    mean is the sample and the mean of the squares is its square. *)
Lemma blend_with_itself (x V : T) :
  let d := x * x - x * x in
  let out := x + d / (d + V) * (x - x) in
  if sfinite (x * x) && negb (szero V) && negb (sisnan V)
  then seqb out x = true
  else sisnan out = true /\ seqb out x = false.
Proof.
  intros d out.
  assert (Hnan : sisnan (d / (d + V)) = true ->
                 sisnan out = true /\ seqb out x = false).
  { intros Hw.
    assert (Ho : sisnan out = true) by (apply sadd_nan_r, smul_nan_l, Hw).
    split; [exact Ho | now apply seqb_nan_l]. }
  destruct (sfinite (x * x)) eqn:F; simpl.
  - pose proof (ssub_self _ F) as Hd; fold d in Hd.
    pose proof (ssub_self _ (sfinite_sqr _ F)) as Hxx.
    destruct (sadd_zero_l d V Hd) as [Ez En].
    pose proof (sdiv_zero_l d (d + V) Hd) as Hw; rewrite Ez, En in Hw.
    destruct (szero V), (sisnan V); simpl in *; auto.
    apply sadd_zero_r; [now apply sfinite_sqr | now apply smul_zero].
  - apply Hnan, sdiv_nan_l, ssub_self_nan, F.
Qed.

End Blend.

(** ** Zero variance (C2, C3) *)

Lemma xadd_nan_r (a : xq) : xadd a NaN = NaN.
Proof. destruct a; reflexivity. Qed.

Lemma xmul_nan_l (a : xq) : xmul NaN a = NaN.
Proof. destruct a; reflexivity. Qed.

(** The blend at a cell whose two variances are zero. *)
Lemma blend_zero_variance (m x v ov : xq) :
  same v (Num 0) -> same ov (Num 0) ->
  xdiv v (xadd v ov) = NaN /\
  xadd m (xmul (xdiv v (xadd v ov)) (xsub x m)) = NaN.
Proof.
  intros Hv Ho.
  assert (Ew : xdiv v (xadd v ov) = NaN).
  { apply xdiv_zero_zero; [exact Hv|].
    rewrite (xadd_num _ _ _ _ Hv Ho); simpl; ring. }
  split; [exact Ew|].
  now rewrite Ew, xmul_nan_l, xadd_nan_r.
Qed.

(** C2, as the code has it: at a pixel where the local variance and the
    overall variance are both zero, the quotient 0 / 0 is evaluated; no
    exception is raised, the weight is NaN and so is the output at that
    pixel. *)
Theorem lee_filter_zero_variance_nan
        (img : array xq) (h w : nat) (size : Z) (L : lee_locals) (i j : nat) :
  has_shape img h w -> (i < h)%nat -> (j < w)%nat ->
  lee_filter_locals img size = Ok L ->
  same (get (img_variance L) i j) (Num 0) ->
  same (overall_variance L) (Num 0) ->
  lee_filter img size = Ok (img_output L) /\
  get (img_weights L) i j = NaN /\
  get (img_output L) i j = NaN.
Proof.
  intros Hs Hi Hj HL Hv Ho.
  destruct (lee_filter_locals_cells size Hs) as [L' [HL' [_ [_ [_ [_ Hc]]]]]].
  rewrite HL in HL'; injection HL' as <-.
  destruct (Hc i j Hi Hj) as [_ [Hw Hout]].
  split; [unfold lee_filter; now rewrite HL|].
  rewrite Hout, Hw.
  now apply blend_zero_variance.
Qed.

Lemma has_shape_ones_3x3 : has_shape ones_3x3 3 3.
Proof. split; [reflexivity | repeat constructor]. Qed.

Lemma lee_filter_zero_variance_nan_witness :
  exists L : lee_locals,
    lee_filter_locals ones_3x3 3 = Ok L /\
    get (img_weights L) 1 1 = NaN /\ get (img_output L) 1 1 = NaN.
Proof.
  eexists; split; [vm_compute; reflexivity|].
  refine (proj2 (lee_filter_zero_variance_nan 3 (i := 1) (j := 1)
                   has_shape_ones_3x3 _ _ eq_refl _ _)).
  - lia.
  - lia.
  - vm_compute; reflexivity.
  - vm_compute; reflexivity.
Defined.

(** C2 fails on the 3-by-3 image of ones with size 3: at the centre both
    variances are zero, the weight is NaN and not 0, and the output is NaN
    and not the local mean 1; in binary64 as in exact arithmetic. *)
Lemma lee_filter_zero_variance_counterexample :
  exists L : lee_locals,
    lee_filter_locals ones_3x3 3 = Ok L /\
    get (img_variance L) 1 1 = Num 0 /\
    overall_variance L = Num 0 /\
    get (img_mean L) 1 1 = Num 1 /\
    get (img_weights L) 1 1 = NaN /\
    xeqb (get (img_weights L) 1 1) (Num 0) = false /\
    get (img_output L) 1 1 = NaN /\
    xeqb (get (img_output L) 1 1) (get (img_mean L) 1 1) = false /\
    fmap (fun F => (get (img_weights F) 1 1, get (img_output F) 1 1))
         (lee_filter_locals ones_3x3_binary64 3)
    = Ok (PrimFloat.nan, PrimFloat.nan).
Proof.
  eexists; split; [vm_compute; reflexivity|].
  vm_compute; repeat split.
Qed.

Lemma uniform_finite (c : Q) (a : array xq) : uniform_array c a -> finite_array a.
Proof.
  unfold uniform_array, finite_array; intros H.
  eapply Forall_impl; [|exact H]; intros r Hr.
  eapply Forall_impl; [|exact Hr]; intros x Hx.
  apply same_Num in Hx; destruct Hx as [p [-> _]]; exact I.
Qed.

Lemma uniform_get (c : Q) (a : array xq) (h w i j : nat) :
  has_shape a h w -> uniform_array c a -> (i < h)%nat -> (j < w)%nat ->
  qval (get a i j) == c.
Proof.
  intros Hs Hu Hi Hj; unfold get.
  pose proof (has_shape_length Hs) as Hl; pose proof (has_shape_row Hs Hi) as Hr.
  unfold uniform_array in Hu; rewrite Forall_forall in Hu.
  assert (Hrow : Forall (fun x => same x (Num c)) (nth i a []))
    by (apply Hu, nth_In; lia).
  rewrite Forall_forall in Hrow.
  assert (Hx : same (nth j (nth i a []) snan) (Num c)) by (apply Hrow, nth_In; lia).
  apply same_Num in Hx; destruct Hx as [p [-> Hp]]; exact Hp.
Qed.

Lemma uniform_flatten (c : Q) (a : array xq) :
  uniform_array c a -> forall x, In x (flatten (to_q a)) -> x == c.
Proof.
  intros Hu x Hx; rewrite flatten_to_q in Hx.
  apply in_map_iff in Hx; destruct Hx as [y [<- Hy]].
  unfold flatten in Hy; apply in_concat in Hy; destruct Hy as [r [Hr Hy]].
  unfold uniform_array in Hu; rewrite Forall_forall in Hu.
  specialize (Hu r Hr); rewrite Forall_forall in Hu.
  specialize (Hu y Hy); apply same_Num in Hu; destruct Hu as [p [-> Hp]]; exact Hp.
Qed.

(** C3, as the code has it.  The filter has no convention for a zero
    weight: at every pixel where the local variance and the overall
    variance are both computed as zero, the weight is 0 / 0 and the output
    is NaN and not == the input sample, in binary64 and in exact
    arithmetic alike.  In exact arithmetic that is every pixel of every
    uniform finite image, for every positive size: the local mean is c,
    both variances are zero, and the output is NaN at every pixel, so that
    the filter is not a fixpoint.  In binary64 it depends on how the window
    sums round.  Where they are exact the same happens (the image of ones,
    in the counterexample below); on the 3-by-3 image of 0.1 with size 3
    they are not: the local variance comes out as -2^-59, the overall
    variance as 0 and the weight as 1, and the input is returned. *)
Theorem lee_filter_uniform_nan :
  (forall (T : Type) (ST : Scalar T) (IT : Ieee ST) (img : array T) (h w : nat)
          (size : Z) (L : lee_locals) (i j : nat),
      has_shape img h w -> (i < h)%nat -> (j < w)%nat ->
      lee_filter_locals img size = Ok L ->
      szero (get (img_variance L) i j) = true ->
      szero (overall_variance L) = true ->
      sisnan (get (img_output L) i j) = true /\
      seqb (get (img_output L) i j) (get img i j) = false) /\
  (forall (img : array xq) (c : Q) (h w : nat) (size : Z),
      has_shape img h w -> uniform_array c img -> (0 < size)%Z ->
      exists out : array xq,
        lee_filter img size = Ok out /\
        has_shape out h w /\
        forall i j, (i < h)%nat -> (j < w)%nat ->
          local_mean (to_q img) size i j == c /\
          local_variance (to_q img) size i j == 0 /\
          Qvariance (flatten (to_q img)) == 0 /\
          get out i j = NaN) /\
  (exists L : lee_locals,
      lee_filter_locals tenths_3x3 3 = Ok L /\
      img_variance L = tabulate 3 3 (fun _ _ => (- 0x1p-59)%float) /\
      overall_variance L = 0%float /\
      img_weights L = tabulate 3 3 (fun _ _ => 1%float) /\
      img_output L = tenths_3x3).
Proof.
  split; [|split;
            [|eexists; split; [vm_compute; reflexivity | vm_compute; repeat split]]].
  { intros T ST IT img h w size L i j Hs Hi Hj HL Hv Ho.
    destruct (lee_filter_locals_cells size Hs) as [L' [HL' [_ [_ [_ [_ Hc]]]]]].
    rewrite HL in HL'; injection HL' as <-.
    destruct (Hc i j Hi Hj) as [_ [Hw Hout]].
    rewrite Hout, Hw.
    apply (@blend_both_zero T ST IT (get (img_mean L) i j) (get img i j)
                            (get (img_variance L) i j) (overall_variance L) Hv Ho). }
  intros img c h w size Hs Hu H0.
  pose proof (uniform_finite Hu) as Hf.
  destruct (lee_filter_locals_finite (size := size) Hs Hf) as [L [HL [Hshape Hc]]]; [lia|].
  exists (img_output L); split; [unfold lee_filter; now rewrite HL|].
  split; [exact Hshape|].
  intros i j Hi Hj.
  destruct (Hc i j Hi Hj) as [_ [_ [HV [HO [Hw Ho]]]]]; simpl in HV, HO.
  assert (Hne : window_samples (to_q img) size i j <> []).
  { intros E; apply (f_equal (@length Q)) in E.
    rewrite (window_samples_get Hs), length_map, window_cells_length in E
      by (assumption || lia).
    simpl in E; nia. }
  assert (Hwc : forall x, In x (window_samples (to_q img) size i j) -> x == c).
  { intros x Hx; rewrite (window_samples_get Hs) in Hx by (assumption || lia).
    apply in_map_iff in Hx; destruct Hx as [p [<- Hp]].
    apply window_cells_lt in Hp; [|lia|lia]; destruct Hp.
    now apply (uniform_get Hs Hu). }
  assert (Elv : local_variance (to_q img) size i j == 0).
  { rewrite (local_variance_window (to_q_shape Hs)) by (assumption || lia).
    now apply (Qvariance_const (c := c)). }
  assert (Eov : Qvariance (flatten (to_q img)) == 0).
  { apply (Qvariance_const (c := c)); [|now apply uniform_flatten].
    rewrite flatten_to_q; intros E; apply map_eq_nil in E.
    now apply (flatten_nonempty Hs Hi Hj). }
  split; [now apply Qmean_const|]; split; [exact Elv|]; split; [exact Eov|].
  rewrite Ho, Hw.
  apply blend_zero_variance.
  - rewrite HV; exact Elv.
  - rewrite HO; exact Eov.
Qed.

Lemma uniform_ones_3x3 : uniform_array 1 ones_3x3.
Proof. repeat (constructor; try reflexivity). Qed.

Lemma has_shape_ones_3x3_binary64 : has_shape ones_3x3_binary64 3 3.
Proof. split; [reflexivity | repeat constructor]. Qed.

Lemma lee_filter_uniform_nan_witness :
  (exists L : lee_locals,
      lee_filter_locals ones_3x3_binary64 3 = Ok L /\
      PrimFloat.is_nan (get (img_output L) 1 1) = true) /\
  (exists out : array xq,
      lee_filter ones_3x3 3 = Ok out /\ get out 0 2 = NaN).
Proof.
  split.
  - eexists; split; [vm_compute; reflexivity|].
    refine (proj1 (proj1 lee_filter_uniform_nan float Scalar_float Ieee_float
                         ones_3x3_binary64 3%nat 3%nat 3%Z _ 1%nat 1%nat
                         has_shape_ones_3x3_binary64 _ _ eq_refl _ _)).
    + lia.
    + lia.
    + vm_compute; reflexivity.
    + vm_compute; reflexivity.
  - destruct (proj1 (proj2 lee_filter_uniform_nan) ones_3x3 1 3%nat 3%nat 3%Z
                    has_shape_ones_3x3 uniform_ones_3x3)
      as [out [H1 [_ H2]]]; [lia|].
    exists out; split; [exact H1|].
    destruct (H2 0%nat 2%nat) as [_ [_ [_ H3]]]; [lia | lia | exact H3].
Defined.

(** C3 fails on the 3-by-3 image of ones with size 3: the output is NaN
    everywhere and is not equal to the input; in binary64 as in exact
    arithmetic. *)
Lemma lee_filter_uniform_counterexample :
  lee_filter ones_3x3 3
  = Ok [[NaN; NaN; NaN]; [NaN; NaN; NaN]; [NaN; NaN; NaN]] /\
  (exists out : array xq,
      lee_filter ones_3x3 3 = Ok out /\ array_equal out ones_3x3 = false) /\
  lee_filter ones_3x3_binary64 3
  = Ok (tabulate 3 3 (fun _ _ => PrimFloat.nan)).
Proof.
  split; [vm_compute; reflexivity|].
  split; [eexists; split; vm_compute; reflexivity|].
  vm_compute; reflexivity.
Qed.

(** ** Window size 1 (C4) *)

Lemma forallb_combine {A B : Type} (P : A -> B -> bool) (da : A) (db : B) :
  forall (l1 : list A) (l2 : list B),
    length l1 = length l2 ->
    (forall n, (n < length l1)%nat -> P (nth n l1 da) (nth n l2 db) = true) ->
    forallb (fun xy => P (fst xy) (snd xy)) (combine l1 l2) = true.
Proof.
  induction l1 as [|a l1 IH]; intros [|b l2] Hl Hp; simpl in *;
    try discriminate; [reflexivity|].
  rewrite (Hp 0%nat) by lia; simpl.
  apply IH; [lia|].
  intros n Hn; apply (Hp (S n)); lia.
Qed.

Lemma array_equal_intro (a b : array xq) (h w : nat) :
  has_shape a h w -> has_shape b h w ->
  (forall i j, (i < h)%nat -> (j < w)%nat -> xeqb (get a i j) (get b i j) = true) ->
  array_equal a b = true.
Proof.
  intros Ha Hb Hc; unfold array_equal.
  pose proof (has_shape_length Ha) as La; pose proof (has_shape_length Hb) as Lb.
  rewrite La, Lb, Nat.eqb_refl; simpl.
  apply (forallb_combine
           (fun r s => (length r =? length s)%nat
                       && forallb (fun xy => xeqb (fst xy) (snd xy)) (combine r s))
           [] []); [lia|].
  intros i Hi; rewrite La in Hi.
  pose proof (has_shape_row Ha Hi) as Ra; pose proof (has_shape_row Hb Hi) as Rb.
  rewrite Ra, Rb, Nat.eqb_refl; simpl.
  apply (forallb_combine xeqb snan snan); [lia|].
  intros j Hj; rewrite Ra in Hj; now apply Hc.
Qed.

Lemma get_in_flatten (img : array xq) (h w i j : nat) :
  has_shape img h w -> (i < h)%nat -> (j < w)%nat ->
  In (get img i j) (flatten img).
Proof.
  intros Hs Hi Hj.
  pose proof (has_shape_length Hs) as Hl; pose proof (has_shape_row Hs Hi) as Hr.
  unfold flatten; apply in_concat; exists (nth i img []).
  split; apply nth_In; lia.
Qed.

(** The overall variance of an image with two different samples is not
    zero. *)
Lemma overall_variance_nonzero (img : array xq) (h w i j i' j' : nat) :
  has_shape img h w ->
  (i < h)%nat -> (j < w)%nat -> (i' < h)%nat -> (j' < w)%nat ->
  ~ qval (get img i j) == qval (get img i' j') ->
  ~ Qvariance (flatten (to_q img)) == 0.
Proof.
  intros Hs Hi Hj Hi' Hj' Hd E.
  assert (Hne : flatten (to_q img) <> []).
  { rewrite flatten_to_q; intros N; apply map_eq_nil in N.
    now apply (flatten_nonempty Hs Hi Hj). }
  pose proof (Qvariance_zero Hne E) as Hall.
  apply Hd.
  rewrite (Hall (qval (get img i j))), (Hall (qval (get img i' j'))); [reflexivity| |];
    rewrite flatten_to_q; apply in_map; eapply get_in_flatten; eauto.
Qed.

(** In exact arithmetic the overall variance of a finite image is zero
    only if all its samples are equal; on every other finite image the
    filter with window size 1 returns the input: filter(x, 1) == x. *)
Lemma size_one_identity_exact (img : array xq) (h w : nat) :
  has_shape img h w -> finite_array img ->
  (exists i j i' j',
      (i < h)%nat /\ (j < w)%nat /\ (i' < h)%nat /\ (j' < w)%nat /\
      ~ qval (get img i j) == qval (get img i' j')) ->
  exists out : array xq,
    lee_filter img 1 = Ok out /\ array_equal out img = true.
Proof.
  intros Hs Hf [i0 [j0 [i1 [j1 [Hi0 [Hj0 [Hi1 [Hj1 Hd]]]]]]]].
  pose proof (overall_variance_nonzero Hs Hi0 Hj0 Hi1 Hj1 Hd) as Hnz.
  destruct (lee_filter_locals_cells 1 Hs) as [L [HL [Hm [Hsm [Hov [Hshape Hc]]]]]].
  exists (img_output L); split; [unfold lee_filter; now rewrite HL|].
  apply (array_equal_intro Hshape Hs); intros i j Hi Hj.
  destruct (Hc i j Hi Hj) as [Hv [Hw Ho]].
  unfold filtered in Hm, Hsm; simpl in Hm, Hsm.
  rewrite Hm in *; rewrite Hsm in Hv.
  unfold arr_sqr in Hv; rewrite (get_map _ Hs) in Hv by assumption.
  pose proof (same_finite _ (finite_get Hs Hf Hi Hj)) as Hx.
  set (x := get img i j) in *; set (q := qval x) in *.
  set (V := Qvariance (flatten (to_q img))) in *.
  assert (HO : same (overall_variance L) (Num V)).
  { rewrite Hov; apply np_var_finite; [exact Hf | eapply flatten_nonempty; eauto]. }
  assert (HV : same (get (img_variance L) i j) (Num (q * q - q * q))).
  { rewrite Hv; apply xsub_num; now apply xmul_num. }
  assert (HW : same (get (img_weights L) i j)
                    (Num ((q * q - q * q) / (q * q - q * q + V)))).
  { rewrite Hw; apply xdiv_num; [exact HV | now apply xadd_num |].
    intros E; apply Hnz; rewrite <- E; ring. }
  assert (HOut : same (get (img_output L) i j)
                      (Num (q + (q * q - q * q) / (q * q - q * q + V) * (q - q)))).
  { rewrite Ho; apply xadd_num; [exact Hx|].
    apply xmul_num; [exact HW | now apply xsub_num]. }
  apply same_Num in HOut; destruct HOut as [p [-> Hp]].
  apply same_Num in Hx; destruct Hx as [q' [-> Hq']].
  apply Qeq_bool_iff; rewrite Hp, Hq'; ring.
Qed.

(** C4, as the code has it, in binary64 and in exact arithmetic alike.
    With window size 1 the filter takes no mean, and at every pixel it
    blends the sample x with itself by the weight 0 / (0 + np.var(img)).
    The output is == x at every pixel whose square x * x is finite
    (x is finite and its square does not overflow), provided that the
    overall variance, the number that np.var(img) returned, is neither
    zero nor NaN.  In every other case the output at the pixel is NaN, and
    so not == x: when x * x is not finite, and, at every pixel, when the
    overall variance is zero (as it is on a one-pixel image, or when the
    squared deviations underflow) or NaN. *)
Theorem lee_filter_size_one
        (T : Type) (ST : Scalar T) (IT : Ieee ST) (img : array T) (h w : nat) :
  has_shape img h w ->
  exists L : lee_locals,
    lee_filter_locals img 1 = Ok L /\
    lee_filter img 1 = Ok (img_output L) /\
    forall i j, (i < h)%nat -> (j < w)%nat ->
      let x := get img i j in
      let V := overall_variance L in
      if sfinite (smul x x) && negb (szero V) && negb (sisnan V)
      then seqb (get (img_output L) i j) x = true
      else sisnan (get (img_output L) i j) = true
           /\ seqb (get (img_output L) i j) x = false.
Proof.
  intros Hs.
  destruct (lee_filter_locals_cells 1 Hs) as [L [HL [Hm [Hsm [_ [_ Hc]]]]]].
  exists L; split; [exact HL|]; split; [unfold lee_filter; now rewrite HL|].
  intros i j Hi Hj x V.
  destruct (Hc i j Hi Hj) as [Hv [Hw Ho]].
  unfold filtered in Hm, Hsm; simpl in Hm, Hsm.
  rewrite Hm in Hv, Ho; rewrite Hsm in Hv.
  unfold arr_sqr in Hv; rewrite (get_map _ Hs) in Hv by assumption.
  rewrite Ho, Hw, Hv.
  apply blend_with_itself.
Qed.

Lemma has_shape_huge_pair : has_shape huge_pair 1 2.
Proof. split; [reflexivity | repeat constructor]. Qed.

Lemma lee_filter_size_one_witness :
  exists L : lee_locals,
    lee_filter_locals huge_pair 1 = Ok L /\
    PrimFloat.is_nan (get (img_output L) 0 0) = true /\
    PrimFloat.eqb (get (img_output L) 0 1) (get huge_pair 0 1) = true.
Proof.
  destruct (lee_filter_size_one Ieee_float has_shape_huge_pair) as [L [HL [_ Hc]]].
  exists L; split; [exact HL|].
  pose proof (Hc 0%nat 0%nat ltac:(lia) ltac:(lia)) as H0.
  pose proof (Hc 0%nat 1%nat ltac:(lia) ltac:(lia)) as H1.
  vm_compute in HL; injection HL as <-.
  split; [exact (proj1 H0) | exact H1].
Defined.

(** C4 fails on the 1-by-1 image [[1]]: the overall variance is zero, the
    weight is 0 / 0, and the output [[NaN]] is not equal to the input; in
    binary64 as in exact arithmetic.  It fails in the same way on the
    3-by-3 image of ones.  In binary64 it also fails on finite images whose
    samples differ: on [[2^700, 0]] the square of the first sample
    overflows and the output is [[NaN, 0]], and on [[2^-600, 2^-599]] the
    overall variance underflows to zero and the output is NaN. *)
Lemma lee_filter_size_one_counterexample :
  lee_filter one_pixel 1 = Ok [[NaN]] /\
  (exists out : array xq,
      lee_filter one_pixel 1 = Ok out /\ array_equal out one_pixel = false) /\
  (exists out : array xq,
      lee_filter ones_3x3 1 = Ok out /\ array_equal out ones_3x3 = false) /\
  lee_filter one_pixel_binary64 1 = Ok [[PrimFloat.nan]] /\
  lee_filter huge_pair 1 = Ok [[PrimFloat.nan; 0%float]] /\
  lee_filter tiny_pair 1 = Ok [[PrimFloat.nan; PrimFloat.nan]].
Proof.
  split; [vm_compute; reflexivity|].
  split; [eexists; split; vm_compute; reflexivity|].
  split; [eexists; split; vm_compute; reflexivity|].
  repeat split; vm_compute; reflexivity.
Qed.

(** ** The filter raises nothing *)

Section Totality.

Context {T : Type} {ST : Scalar T}.

Lemma uniform_filter1d_total (img : array T) (size : Z) (axis : nat) :
  (1 <= size)%Z -> exists out, uniform_filter1d img size axis = Ok out.
Proof.
  intros H1; unfold uniform_filter1d.
  assert (0 <= size / 2 < size)%Z as Hd.
  { split; [apply Z.div_pos; lia | apply Z.div_lt_upper_bound; lia]. }
  destruct (Z.ltb_spec size 1); [lia|].
  destruct (Z.ltb_spec (size / 2) 0); [lia|].
  destruct (Z.leb_spec size (size / 2)); [lia|]; simpl.
  eexists; reflexivity.
Qed.

Lemma uniform_filter_total (img : array T) (size : Z) :
  exists out, uniform_filter img size = Ok out.
Proof.
  unfold uniform_filter.
  destruct (Z.ltb_spec 1 size) as [H1|H1]; simpl; [|eexists; reflexivity].
  destruct (uniform_filter1d_total img 0 (size := size)) as [a0 ->]; [lia|]; simpl.
  apply uniform_filter1d_total; lia.
Qed.

Lemma lee_filter_locals_total (img : array T) (size : Z) :
  exists L, lee_filter_locals img size = Ok L.
Proof.
  unfold lee_filter_locals.
  destruct (uniform_filter_total img size) as [m ->].
  destruct (uniform_filter_total (arr_sqr img) size) as [sm ->]; simpl.
  eexists; reflexivity.
Qed.

Lemma lee_filter_total (img : array T) (size : Z) :
  exists out, lee_filter img size = Ok out.
Proof.
  unfold lee_filter.
  destruct (lee_filter_locals_total img size) as [L ->]; simpl.
  eexists; reflexivity.
Qed.

End Totality.

(** ** Leading dimensions *)

Lemma ndarray_induction {A : Type} (P : ndarray A -> Prop) :
  (forall p, P (Plane p)) ->
  (forall l, Forall P l -> P (Stack l)) ->
  forall a, P a.
Proof.
  intros HP HS; fix IH 1; intros [p|l]; [apply HP|].
  apply HS; induction l as [|x l IHl]; constructor; [apply IH | exact IHl].
Qed.

Lemma mapM_Forall2 {A B : Type} (f : A -> result B) (l : list A) (l' : list B) :
  mapM f l = Ok l' -> Forall2 (fun x y => f x = Ok y) l l'.
Proof.
  revert l'; induction l as [|x l IH]; intros l' H; simpl in H.
  - injection H as <-; constructor.
  - destruct (f x) as [y|e] eqn:Ef; [|discriminate]; simpl in H.
    destruct (mapM f l) as [ys|e]; [|discriminate]; simpl in H.
    injection H as <-; constructor; auto.
Qed.

Lemma mapM_total {A B : Type} (f : A -> result B) (l : list A) :
  Forall (fun x => exists y, f x = Ok y) l -> exists l', mapM f l = Ok l'.
Proof.
  induction 1 as [|x l [y Hy] _ [ys Hys]]; simpl; [eexists; reflexivity|].
  rewrite Hy; simpl; rewrite Hys; simpl; eexists; reflexivity.
Qed.

Lemma mapM_map {A B C : Type} (g : A -> B) (f : B -> result C) (l : list A) :
  mapM f (map g l) = mapM (fun x => f (g x)) l.
Proof.
  induction l as [|x l IH]; simpl; [reflexivity|]; now rewrite IH.
Qed.

Lemma Forall2_nth_error {A B : Type} (R : A -> B -> Prop) (l : list A) (l' : list B) :
  Forall2 R l l' ->
  forall n, match nth_error l n, nth_error l' n with
            | Some x, Some y => R x y
            | None, None => True
            | _, _ => False
            end.
Proof.
  induction 1 as [|x y l l' Hxy _ IH]; intros [|n]; simpl; auto.
  apply IH.
Qed.

Lemma slice_at_nd_map {A B : Type} (f : A -> B) (a : ndarray A) :
  forall idx, slice_at (nd_map f a) idx = option_map (map (map f)) (slice_at a idx).
Proof.
  induction a as [p|l IH] using ndarray_induction; intros [|t idx]; simpl; auto.
  rewrite nth_error_map.
  destruct (nth_error l t) as [s|] eqn:E; simpl; [|reflexivity].
  rewrite Forall_forall in IH; apply IH.
  eapply nth_error_In; eauto.
Qed.

Lemma cell_at_nd_map {A B : Type} (f : A -> B) (a : ndarray A) (idx : list nat)
      (i j : nat) :
  cell_at (nd_map f a) idx i j = option_map f (cell_at a idx i j).
Proof.
  unfold cell_at; rewrite slice_at_nd_map.
  destruct (slice_at a idx) as [p|]; simpl; [|reflexivity].
  rewrite nth_error_map; destruct (nth_error p i) as [row|]; simpl; [|reflexivity].
  apply nth_error_map.
Qed.

Section LeadingFacts.

Context {T : Type} {ST : Scalar T}.

Lemma apply_ufunc_total (f : array T -> result (array T)) :
  (forall p, exists q, f p = Ok q) ->
  forall a, exists b, apply_ufunc f a = Ok b.
Proof.
  intros Hf a; induction a as [p|l IH] using ndarray_induction; simpl.
  - destruct (Hf p) as [q ->]; simpl; eexists; reflexivity.
  - destruct (mapM_total _ IH) as [l' ->]; simpl; eexists; reflexivity.
Qed.

Lemma apply_ufunc_slices (f : array T -> result (array T)) (a : ndarray T) :
  forall b, apply_ufunc f a = Ok b ->
  forall idx,
    match slice_at a idx with
    | Some p => exists q, f p = Ok q /\ slice_at b idx = Some q
    | None => slice_at b idx = None
    end.
Proof.
  induction a as [p|l IH] using ndarray_induction; intros b Hb idx; simpl in Hb.
  - destruct (f p) as [q|e] eqn:Ef; [|discriminate]; simpl in Hb.
    injection Hb as <-; destruct idx; simpl; [eauto | reflexivity].
  - destruct (mapM (apply_ufunc f) l) as [l'|e] eqn:El; [|discriminate]; simpl in Hb.
    injection Hb as <-; destruct idx as [|t idx]; simpl; [reflexivity|].
    pose proof (Forall2_nth_error (mapM_Forall2 _ _ El) t) as Hn.
    destruct (nth_error l t) as [s|] eqn:Es, (nth_error l' t) as [s'|] eqn:Es';
      try contradiction; [|reflexivity].
    rewrite Forall_forall in IH.
    apply (IH s (nth_error_In _ _ Es) s' Hn idx).
Qed.

End LeadingFacts.

(** ** Window sizes and errors (C6) *)




(** ** Planes of a stack (C7) *)

(** C7: with extra leading dimensions, [apply_lee_filter] returns an
    array of the same leading structure in which every y-x plane is what
    [lee_filter] gives on that plane alone (after [fillna(0)]), with the
    overall variance taken over that plane only; it is also what
    [apply_lee_filter] gives on the plane by itself, and a stack is
    filtered member by member.  This holds on every scalar type. *)
Theorem apply_lee_filter_per_slice
        (T : Type) (ST : Scalar T) (data_array : ndarray T) (size : Z) :
  exists out : ndarray T,
    apply_lee_filter data_array size = Ok out /\
    (forall idx,
        match slice_at data_array idx with
        | Some p =>
            exists L : lee_locals,
              lee_filter_locals (map (map fillna0) p) size = Ok L /\
              overall_variance L = np_var (map (map fillna0) p) /\
              lee_filter (map (map fillna0) p) size = Ok (img_output L) /\
              slice_at out idx = Some (img_output L) /\
              apply_lee_filter (Plane p) size = Ok (Plane (img_output L))
        | None => slice_at out idx = None
        end) /\
    (forall l : list (ndarray T),
        apply_lee_filter (Stack l) size
        = fmap Stack (mapM (fun s => apply_lee_filter s size) l)).
Proof.
  unfold apply_lee_filter.
  destruct (apply_ufunc_total (fun img => lee_filter img size)
              (fun p => lee_filter_total p size) (nd_map fillna0 data_array))
    as [out Hout].
  exists out; split; [exact Hout|]; split.
  - intros idx.
    pose proof (apply_ufunc_slices _ _ Hout idx) as Hs.
    rewrite slice_at_nd_map in Hs.
    destruct (slice_at data_array idx) as [p|]; simpl in Hs; [|exact Hs].
    destruct Hs as [q [Hq Hs]].
    destruct (lee_filter_locals_total (map (map fillna0) p) size) as [L HL].
    assert (Eq : q = img_output L).
    { unfold lee_filter in Hq; rewrite HL in Hq; simpl in Hq; congruence. }
    subst q; exists L; split; [exact HL|]; split.
    + unfold lee_filter_locals in HL.
      destruct (uniform_filter (map (map fillna0) p) size); [|discriminate].
      destruct (uniform_filter (arr_sqr (map (map fillna0) p)) size); [|discriminate].
      simpl in HL; injection HL as <-; reflexivity.
    + split; [exact Hq|]; split; [exact Hs|].
      simpl; now rewrite Hq.
  - intros l; simpl; now rewrite mapM_map.
Qed.

(** ** Masking (C8) *)

Lemma nd_map2_stack {A B C : Type} (f : A -> B -> C)
      (l : list (ndarray A)) (m : list (ndarray B)) :
  nd_map2 f (Stack l) (Stack m) = Stack (map2 (nd_map2 f) l m).
Proof.
  simpl; f_equal; revert m.
  induction l as [|x l IH]; intros [|y m]; simpl; try reflexivity.
  now rewrite IH.
Qed.

Lemma nth_error_map2 {A B C : Type} (f : A -> B -> C) (l1 : list A) (l2 : list B) :
  forall n x y,
    nth_error l1 n = Some x -> nth_error l2 n = Some y ->
    nth_error (map2 f l1 l2) n = Some (f x y).
Proof.
  revert l2; induction l1 as [|a l1 IH]; intros [|b l2] [|n] x y; simpl;
    try discriminate.
  - intros [= <-] [= <-]; reflexivity.
  - apply IH.
Qed.

Lemma Forall2_map2 {A B C : Type} (R : A -> C -> Prop) (S : A -> B -> Prop)
      (f : A -> B -> C) (l1 : list A) (l2 : list B) :
  Forall2 S l1 l2 ->
  Forall (fun x => forall y, S x y -> R x (f x y)) l1 ->
  Forall2 R l1 (map2 f l1 l2).
Proof.
  induction 1 as [|x y l1 l2 Hxy _ IH]; intros HF; simpl; [constructor|].
  inversion HF; subst; constructor; auto.
Qed.

Lemma map2_row_length {A B C : Type} (f : A -> B -> C) (p : array A) (q : array B) :
  Forall2 (fun r s => length r = length s) p q ->
  Forall2 (fun r s => length r = length s) p (map2 (map2 f) p q).
Proof.
  induction 1 as [|r s p q Hrs _ IH]; simpl; constructor; [|exact IH].
  now rewrite map2_length.
Qed.

Section MaskFacts.

Context {T : Type} {ST : Scalar T}.

Lemma xr_where_mask_dims (mask : ndarray mask_value) :
  forall band : ndarray T,
    same_dims mask band -> same_dims mask (xr_where_mask mask band).
Proof.
  unfold xr_where_mask.
  induction mask as [p|l IH] using ndarray_induction; intros band Hd;
    inversion Hd; subst.
  - simpl; constructor; now apply map2_row_length.
  - rewrite nd_map2_stack; constructor.
    eapply Forall2_map2; [eassumption|].
    eapply Forall_impl; [|exact IH]; intros x Hx y Hxy; now apply Hx.
Qed.

Lemma xr_where_mask_cell (mask : ndarray mask_value) :
  forall (band : ndarray T) (idx : list nat) (i j : nat) (m : mask_value) (v : T),
    cell_at mask idx i j = Some m ->
    cell_at band idx i j = Some v ->
    cell_at (xr_where_mask mask band) idx i j
    = Some (if mask_eq0 m then v else snan).
Proof.
  unfold xr_where_mask, cell_at.
  induction mask as [p|l IH] using ndarray_induction;
    intros [q|l'] idx i j m v Hm Hv; destruct idx as [|t idx];
    simpl in Hm, Hv; try discriminate.
  - simpl.
    destruct (nth_error p i) as [r|] eqn:Er; [|discriminate].
    destruct (nth_error q i) as [s|] eqn:Es; [|discriminate].
    rewrite (nth_error_map2 _ _ _ _ Er Es).
    exact (nth_error_map2 (fun m v => if mask_eq0 m then v else snan) r s j Hm Hv).
  - rewrite nd_map2_stack; simpl.
    destruct (nth_error l t) as [a|] eqn:Ea; [|discriminate].
    destruct (nth_error l' t) as [b|] eqn:Eb; [|discriminate].
    rewrite (nth_error_map2 _ _ _ _ Ea Eb).
    rewrite Forall_forall in IH.
    apply (IH a (nth_error_In _ _ Ea) b idx i j m v Hm Hv).
Qed.

End MaskFacts.

(** C8: for a band and a mask of one shape, the masking step returns an
    array of that shape in which a cell whose mask value is not 0 (1, 2, 3,
    the invalid sentinel 255, NaN or any other code) holds NaN, and a cell
    whose mask value is 0 holds the value of the band; each cell depends on
    the mask and the band at that cell only.  This holds on every scalar
    type. *)
Theorem xr_where_mask_elementwise
        (T : Type) (ST : Scalar T) (mask : ndarray mask_value) (band : ndarray T) :
  same_dims mask band ->
  same_dims mask (xr_where_mask mask band) /\
  forall (idx : list nat) (i j : nat) (m : mask_value) (v : T),
    cell_at mask idx i j = Some m ->
    cell_at band idx i j = Some v ->
    (m <> Code 0 -> cell_at (xr_where_mask mask band) idx i j = Some snan) /\
    (m = Code 0 -> cell_at (xr_where_mask mask band) idx i j = Some v).
Proof.
  intros Hd; split; [now apply xr_where_mask_dims|].
  intros idx i j m v Hm Hv.
  rewrite (xr_where_mask_cell _ _ _ _ _ Hm Hv).
  destruct m as [c|]; simpl.
  - destruct (Z.eqb_spec c 0); split; intros; congruence.
  - split; intros; [reflexivity | discriminate].
Qed.

Lemma xr_where_mask_elementwise_witness :
  cell_at (xr_where_mask sample_mask sample_band) [0%nat] 1 0 = Some NaN /\
  cell_at (xr_where_mask sample_mask sample_band) [0%nat] 1 1 = Some (Num 4).
Proof.
  assert (Hd : same_dims sample_mask sample_band) by (repeat constructor).
  destruct (xr_where_mask_elementwise Scalar_xq Hd) as [_ Hc].
  split.
  - refine (proj1 (Hc [0%nat] 1%nat 0%nat (Code 255) (Num 3) eq_refl eq_refl) _).
    discriminate.
  - exact (proj2 (Hc [0%nat] 1%nat 1%nat (Code 0) (Num 4) eq_refl eq_refl) eq_refl).
Defined.

(** ** Decibels (C9) *)

Module DecibelFacts.

Import Reals Lra Decibel.
Local Open Scope R_scope.

Lemma ln_10_pos : 0 < ln 10.
Proof. rewrite <- ln_1; apply ln_increasing; lra. Qed.

Lemma to_db_positive (x : R) : 0 < x -> to_db (RNum x) = RNum (10 * log10 x).
Proof.
  intros Hx; unfold to_db, np_log10.
  destruct (Rlt_dec 0 x); [reflexivity | contradiction].
Qed.

Lemma from_db_to_db (x : R) : 0 < x -> from_db (10 * log10 x) = x.
Proof.
  intros Hx; unfold from_db, log10, Rpower.
  pose proof ln_10_pos as H10.
  replace (10 * (ln x / ln 10) / 10 * ln 10) with (ln x) by (field; lra).
  now apply exp_ln.
Qed.

(** C9: on a positive linear value the conversion gives
    10 * log10(value), cell by cell, and 10 ** (db / 10) gives the
    linear value back, exactly over the reals. *)
Theorem linear_to_db_round_trip
        (band : ndarray xr) (idx : list nat) (i j : nat) (x : R) :
  cell_at band idx i j = Some (RNum x) -> 0 < x ->
  cell_at (linear_to_db band) idx i j = Some (RNum (10 * log10 x)) /\
  from_db (10 * log10 x) = x.
Proof.
  intros Hc Hx; split; [|now apply from_db_to_db].
  unfold linear_to_db; rewrite cell_at_nd_map, Hc; simpl.
  now rewrite to_db_positive.
Qed.

Lemma linear_to_db_round_trip_witness :
  cell_at (linear_to_db (Plane [[RNum 100]])) [] 0 0
  = Some (RNum (10 * log10 100)) /\
  from_db (10 * log10 100) = 100.
Proof.
  apply linear_to_db_round_trip; [reflexivity | lra].
Defined.

End DecibelFacts.

(** * Further properties of the code *)

(** ** Samples that are not finite *)

Lemma xkind_add (a b : xq) : xkind (xadd a b) = kind_add (xkind a) (xkind b).
Proof. destruct a, b; reflexivity. Qed.

Lemma xkind_sub (a b : xq) : xkind (xsub a b) = kind_sub (xkind a) (xkind b).
Proof. destruct a, b; reflexivity. Qed.

Lemma xkind_mul_nan (a b : xq) :
  xkind a = KNaN \/ xkind b = KNaN -> xkind (xmul a b) = KNaN.
Proof. destruct a, b; simpl; intros [H|H]; try discriminate; reflexivity. Qed.

Lemma xkind_div_nan (a b : xq) : xkind b = KNaN -> xkind (xdiv a b) = KNaN.
Proof. destruct a, b; simpl; intros H; try discriminate; reflexivity. Qed.

Lemma xkind_div_count (a : xq) (n : Z) :
  (0 < n)%Z -> xkind a <> KFin -> xkind (xdiv a (Num (inject_Z n))) = xkind a.
Proof.
  intros Hn Ha.
  assert (E : Qle_bool 0 (inject_Z n) = true)
    by (apply Qle_bool_iff; unfold Qle; simpl; lia).
  destruct a; simpl in *; try congruence; now rewrite E.
Qed.

Lemma xkind_isnan (a : xq) : xisnan a = true <-> xkind a = KNaN.
Proof. destruct a; simpl; split; intros H; try discriminate; reflexivity. Qed.

#[export] Instance Kinded_xq : Kinded Scalar_xq := {|
  kind_of := xkind;
  kind_sadd := xkind_add;
  kind_ssub := xkind_sub;
  kind_smul_nan := xkind_mul_nan;
  kind_sdiv_nan := xkind_div_nan;
  kind_sdiv_count := xkind_div_count;
  kind_sisnan := xkind_isnan
|}.

Lemma kind_add_nan_r (a : kind) : kind_add a KNaN = KNaN.
Proof. destruct a; reflexivity. Qed.

Lemma poisoned_by_add_l (c a b : kind) :
  poisoned_by c a -> poisoned_by c (kind_add a b).
Proof.
  destruct c; simpl; auto.
  - intros [-> | ->]; destruct b; simpl; auto.
  - intros [-> | ->]; destruct b; simpl; auto.
  - intros ->; reflexivity.
Qed.

Lemma poisoned_by_add_r (c a : kind) : poisoned_by c (kind_add a c).
Proof. destruct c, a; simpl; auto. Qed.

Lemma poisoned_by_sub (c s : kind) :
  c <> KFin -> poisoned_by c s -> kind_sub c s = KNaN.
Proof.
  destruct c; simpl; intros Hc Hs; try congruence;
    destruct Hs as [-> | ->]; reflexivity.
Qed.

Lemma poisoned_by_refl (c : kind) : poisoned_by c c.
Proof. destruct c; simpl; auto. Qed.

Lemma poisoned_by_add (c a b : kind) :
  poisoned_by c a \/ poisoned_by c b -> poisoned_by c (kind_add a b).
Proof.
  intros [H | H]; [now apply poisoned_by_add_l|].
  destruct c; simpl in *; auto.
  - destruct H as [-> | ->]; destruct a; simpl; auto.
  - destruct H as [-> | ->]; destruct a; simpl; auto.
  - subst b; destruct a; reflexivity.
Qed.

Section PoisonedSum.

Context {T : Type} {ST : Scalar T} {KT : Kinded ST}.

Variable c : T.

Lemma poisoned_sadd (a b : T) :
  poisoned c a \/ poisoned c b -> poisoned c (sadd a b).
Proof. unfold poisoned; rewrite kind_sadd; apply poisoned_by_add. Qed.

Lemma poisoned_fold_left (l : list T) :
  forall acc,
    Exists (poisoned c) l \/ poisoned c acc -> poisoned c (fold_left sadd l acc).
Proof.
  induction l as [|x l IH]; intros acc [H | H]; simpl.
  - inversion H.
  - exact H.
  - apply IH; inversion H as [? ? Hx | ? ? Hl]; subst.
    + right; apply poisoned_sadd; now right.
    + now left.
  - apply IH; right; apply poisoned_sadd; now left.
Qed.

Lemma poisoned_map2 (r b : list T) :
  length r = length b ->
  Exists (poisoned c) r \/ Exists (poisoned c) b ->
  Exists (poisoned c) (map2 sadd r b).
Proof.
  revert b; induction r as [|x r IH]; intros [|y b] Hl H; simpl in *; try discriminate.
  - destruct H as [H | H]; inversion H.
  - destruct H as [H | H]; inversion H as [? ? Hx | ? ? Hr]; subst.
    + left; apply poisoned_sadd; now left.
    + right; apply IH; [lia | now left].
    + left; apply poisoned_sadd; now right.
    + right; apply IH; [lia | now right].
Qed.

Lemma Exists_firstn_skipn (n : nat) (l : list T) :
  Exists (poisoned c) l ->
  Exists (poisoned c) (firstn n l) \/ Exists (poisoned c) (skipn n l).
Proof.
  intros H; rewrite <- (firstn_skipn n l) in H; now apply Exists_app in H.
Qed.

Lemma accumulate_poisoned (k : nat) :
  forall r l : list T,
    length r = 8%nat -> (8 * k <= length l)%nat ->
    Exists (poisoned c) r \/ Exists (poisoned c) l ->
    (Exists (poisoned c) (fst (accumulate k r l)) \/
     Exists (poisoned c) (snd (accumulate k r l))) /\
    length (fst (accumulate k r l)) = 8%nat.
Proof.
  induction k as [|k IH]; intros r l Hr Hl H; cbn [accumulate]; [auto|].
  assert (Hb : length (firstn 8 l) = 8%nat) by (rewrite length_firstn; lia).
  apply IH.
  - rewrite map2_length; [exact Hr | now rewrite Hr, Hb].
  - rewrite length_skipn; lia.
  - destruct H as [H | H].
    + left; apply poisoned_map2; [now rewrite Hr, Hb | now left].
    + destruct (Exists_firstn_skipn 8 H) as [H' | H']; [|now right].
      left; apply poisoned_map2; [now rewrite Hr, Hb | now right].
Qed.

Lemma sum8_poisoned (r : list T) :
  length r = 8%nat -> Exists (poisoned c) r -> poisoned c (sum8 r).
Proof.
  intros Hl H.
  do 8 (destruct r as [|? r]; [discriminate|]).
  destruct r; [|discriminate]; unfold sum8.
  repeat (apply Exists_cons in H; destruct H as [H | H]);
    [.. | inversion H]; auto 10 using poisoned_sadd.
Qed.

Lemma unrolled_sum_poisoned (l : list T) :
  (8 <= length l)%nat -> Exists (poisoned c) l -> poisoned c (unrolled_sum l).
Proof.
  intros Hl H; unfold unrolled_sum.
  assert (Hb : length (firstn 8 l) = 8%nat) by (rewrite length_firstn; lia).
  destruct (@accumulate_poisoned (length l / 8 - 1) (firstn 8 l) (skipn 8 l))
    as [H1 H2]; auto.
  - rewrite length_skipn.
    pose proof (Nat.Div0.mul_div_le (length l) 8); lia.
  - now apply Exists_firstn_skipn.
  - destruct (accumulate (length l / 8 - 1) (firstn 8 l) (skipn 8 l)) as [r rest].
    cbn [fst snd] in *.
    apply poisoned_fold_left.
    destruct H1 as [H1 | H1]; [right; now apply sum8_poisoned | now left].
Qed.

Lemma pairwise_sum_poisoned (fuel : nat) :
  forall l : list T, Exists (poisoned c) l -> poisoned c (pairwise_sum fuel l).
Proof.
  induction fuel as [|fuel IH]; intros l H.
  - rewrite pairwise_sum_O.
    destruct (Nat.ltb_spec (length l) 8);
      [apply poisoned_fold_left; now left | now apply unrolled_sum_poisoned].
  - rewrite pairwise_sum_S.
    destruct (Nat.ltb_spec (length l) 8); [apply poisoned_fold_left; now left|].
    destruct (length l <=? 128)%nat; [now apply unrolled_sum_poisoned|].
    cbv zeta; apply poisoned_sadd.
    destruct (Exists_firstn_skipn (length l / 2 - (length l / 2) mod 8) H);
      [left | right]; now apply IH.
Qed.

End PoisonedSum.

Lemma poisoned_np_sum {T : Type} {ST : Scalar T} {KT : Kinded ST}
      (c : T) (l : list T) :
  In c l -> poisoned_by (kind_of c) (kind_of (np_sum l)).
Proof.
  intros Hin; apply pairwise_sum_poisoned.
  apply Exists_exists; exists c; split; [exact Hin | apply poisoned_by_refl].
Qed.

Section NonFinite.

Context {T : Type} {ST : Scalar T} {KT : Kinded ST}.

Lemma poisoned_by_nonfin (c s : kind) : c <> KFin -> poisoned_by c s -> s <> KFin.
Proof.
  destruct c; simpl; intros Hc Hs; try congruence;
    destruct Hs as [-> | ->]; discriminate.
Qed.

(** One sample that is NaN or an infinity makes [np.var] NaN. *)
Lemma np_var_nonfinite (a : array T) (c : T) :
  In c (flatten a) -> kind_of c <> KFin -> kind_of (np_var a) = KNaN.
Proof.
  intros Hin Hc; unfold np_var.
  set (cells := flatten a) in *.
  assert (Hn : (0 < Z.of_nat (length cells))%Z)
    by (destruct cells; [contradiction | simpl; lia]).
  set (n := Z.of_nat (length cells)) in *.
  set (arrmean := sdiv (np_sum cells) (of_int n)).
  assert (Hsum : poisoned_by (kind_of c) (kind_of (np_sum cells)))
    by (now apply poisoned_np_sum).
  assert (Hmean : poisoned_by (kind_of c) (kind_of arrmean)).
  { unfold arrmean; rewrite kind_sdiv_count; [exact Hsum | exact Hn |].
    eapply poisoned_by_nonfin; eauto. }
  assert (Hdev : kind_of (ssub c arrmean) = KNaN)
    by (rewrite kind_ssub; now apply poisoned_by_sub).
  set (sq := smul (ssub c arrmean) (ssub c arrmean)).
  assert (Hsq : kind_of sq = KNaN) by (apply kind_smul_nan; now left).
  assert (Hin' : In sq (map (fun d => smul d d) (map (fun c => ssub c arrmean) cells))).
  { rewrite map_map; apply in_map_iff; exists c; split; [reflexivity | exact Hin]. }
  pose proof (poisoned_np_sum sq _ Hin') as Hs.
  rewrite Hsq in Hs; simpl in Hs.
  rewrite kind_sdiv_count; [exact Hs | exact Hn |].
  rewrite Hs; discriminate.
Qed.

Lemma get_in_flatten_any (img : array T) (h w i j : nat) :
  has_shape img h w -> (i < h)%nat -> (j < w)%nat ->
  In (get img i j) (flatten img).
Proof.
  intros Hs Hi Hj.
  pose proof (has_shape_length Hs) as Hl; pose proof (has_shape_row Hs Hi) as Hr.
  unfold flatten; apply in_concat; exists (nth i img []).
  split; apply nth_In; lia.
Qed.

(** With an overall variance that is NaN, every cell of the output is
    NaN. *)
Lemma lee_filter_nan_variance (img : array T) (h w : nat) (size : Z) :
  has_shape img h w -> kind_of (np_var img) = KNaN ->
  exists L : lee_locals,
    lee_filter_locals img size = Ok L /\
    has_shape (img_output L) h w /\
    forall i j, (i < h)%nat -> (j < w)%nat ->
      kind_of (get (img_weights L) i j) = KNaN /\
      kind_of (get (img_output L) i j) = KNaN.
Proof.
  intros Hs Hv.
  destruct (lee_filter_locals_cells size Hs) as [L [HL [_ [_ [Hov [Hshape Hc]]]]]].
  exists L; split; [exact HL|]; split; [exact Hshape|].
  intros i j Hi Hj; destruct (Hc i j Hi Hj) as [_ [Hw Ho]].
  assert (Ew : kind_of (get (img_weights L) i j) = KNaN).
  { rewrite Hw; apply kind_sdiv_nan.
    rewrite kind_sadd, Hov, Hv; apply kind_add_nan_r. }
  split; [exact Ew|].
  rewrite Ho, kind_sadd, (kind_smul_nan _ _ (or_introl Ew)).
  apply kind_add_nan_r.
Qed.

End NonFinite.

(** X1: a sample that is NaN or an infinity anywhere in the image makes
    the overall variance NaN, and with it every cell of the output of
    [lee_filter], whatever the window size. *)
Theorem lee_filter_nonfinite_input
        (T : Type) (ST : Scalar T) (KT : Kinded ST)
        (img : array T) (h w : nat) (size : Z) (i0 j0 : nat) :
  has_shape img h w -> (i0 < h)%nat -> (j0 < w)%nat ->
  kind_of (get img i0 j0) <> KFin ->
  exists out : array T,
    lee_filter img size = Ok out /\
    has_shape out h w /\
    forall i j, (i < h)%nat -> (j < w)%nat -> sisnan (get out i j) = true.
Proof.
  intros Hs Hi Hj Hk.
  assert (Hv : kind_of (np_var img) = KNaN)
    by (eapply np_var_nonfinite; [eapply get_in_flatten_any; eauto | exact Hk]).
  destruct (lee_filter_nan_variance size Hs Hv) as [L [HL [Hshape Hc]]].
  exists (img_output L); split; [unfold lee_filter; now rewrite HL|].
  split; [exact Hshape|].
  intros i j Hi' Hj'; apply kind_sisnan; now apply Hc.
Qed.

Lemma lee_filter_nonfinite_input_witness :
  exists out : array xq,
    lee_filter sample_inf 3 = Ok out /\ sisnan (get out 0 0) = true.
Proof.
  assert (Hs : has_shape sample_inf 2 2) by (split; [reflexivity | repeat constructor]).
  destruct (lee_filter_nonfinite_input Kinded_xq 3 (i0 := 1) (j0 := 0) Hs)
    as [out [H1 [_ H2]]]; [lia | lia | discriminate |].
  exists out; split; [exact H1 | apply H2; lia].
Defined.

(** ** The filter on the decibel band *)

Module RealScalarFacts.

Import Reals Lra Decibel RealScalar.
Local Open Scope R_scope.

Lemma rkind_add (a b : xr) : rkind (radd a b) = kind_add (rkind a) (rkind b).
Proof. destruct a, b; reflexivity. Qed.

Lemma rkind_sub (a b : xr) : rkind (rsub a b) = kind_sub (rkind a) (rkind b).
Proof. destruct a, b; reflexivity. Qed.

Lemma rkind_mul_nan (a b : xr) :
  rkind a = KNaN \/ rkind b = KNaN -> rkind (rmul a b) = KNaN.
Proof. destruct a, b; simpl; intros [H|H]; try discriminate; reflexivity. Qed.

Lemma rkind_div_nan (a b : xr) : rkind b = KNaN -> rkind (rdiv a b) = KNaN.
Proof. destruct a, b; simpl; intros H; try discriminate; reflexivity. Qed.

Lemma rkind_div_count (a : xr) (n : Z) :
  (0 < n)%Z -> rkind a <> KFin -> rkind (rdiv a (RNum (IZR n))) = rkind a.
Proof.
  intros Hn Ha.
  assert (0 < IZR n) by (now apply IZR_lt).
  destruct a; simpl in *; try congruence;
    destruct (Rle_dec 0 (IZR n)); try lra; reflexivity.
Qed.

Lemma rkind_isnan (a : xr) : risnan a = true <-> rkind a = KNaN.
Proof. destruct a; simpl; split; intros H; try discriminate; reflexivity. Qed.

#[export] Instance Kinded_xr : Kinded Scalar_xr := {|
  kind_of := rkind;
  kind_sadd := rkind_add;
  kind_ssub := rkind_sub;
  kind_smul_nan := rkind_mul_nan;
  kind_sdiv_nan := rkind_div_nan;
  kind_sdiv_count := rkind_div_count;
  kind_sisnan := rkind_isnan
|}.

Lemma to_db_zero : to_db (RNum 0) = RNegInf.
Proof.
  unfold to_db, np_log10.
  destruct (Rlt_dec 0 0) as [H|_]; [lra|].
  destruct (Req_dec_T 0 0) as [_|H]; [reflexivity | contradiction].
Qed.

Lemma to_db_negative (x : R) : x < 0 -> to_db (RNum x) = RNaN.
Proof.
  intros Hx; unfold to_db, np_log10.
  destruct (Rlt_dec 0 x) as [H|_]; [lra|].
  destruct (Req_dec_T x 0) as [H|_]; [lra | reflexivity].
Qed.

(** X2: in the notebook that filters the decibel band, a sample of zero
    backscatter becomes minus infinity in decibels, is not touched by
    [fillna(0)], and turns its whole plane into NaN; an infinite sample
    does the same. *)
Theorem HH_dB_filtered_zero_sample
        (HH : ndarray xr) (idx : list nat) (p : array xr) (h w i0 j0 : nat) :
  slice_at HH idx = Some p -> has_shape p h w ->
  (i0 < h)%nat -> (j0 < w)%nat ->
  get p i0 j0 = RNum 0 \/ get p i0 j0 = RPosInf ->
  exists (out : ndarray xr) (q : array xr),
    HH_dB_filtered HH = Ok out /\
    slice_at out idx = Some q /\
    has_shape q h w /\
    forall i j, (i < h)%nat -> (j < w)%nat -> get q i j = RNaN.
Proof.
  intros Hp Hs Hi Hj Hc; unfold HH_dB_filtered, apply_lee_filter, linear_to_db.
  destruct (apply_ufunc_total (fun img => lee_filter img 7)
              (fun p => lee_filter_total p 7)
              (nd_map fillna0 (nd_map to_db HH))) as [out Hout].
  pose proof (apply_ufunc_slices _ _ Hout idx) as Hsl.
  rewrite !slice_at_nd_map, Hp in Hsl; simpl in Hsl.
  destruct Hsl as [q [Hq Hsl]].
  set (p' := map (map fillna0) (map (map to_db) p)) in *.
  assert (Hs' : has_shape p' h w) by (unfold p'; now do 2 apply has_shape_map).
  assert (Hk : kind_of (get p' i0 j0) <> KFin).
  { unfold p'; rewrite (get_map _ (has_shape_map to_db Hs)) by assumption.
    rewrite (get_map _ Hs) by assumption.
    destruct Hc as [-> | ->]; [rewrite to_db_zero | ]; simpl; discriminate. }
  assert (Hv : kind_of (np_var p') = KNaN)
    by (eapply np_var_nonfinite; [eapply get_in_flatten_any; eauto | exact Hk]).
  destruct (lee_filter_nan_variance 7 Hs' Hv) as [L [HL [Hshape Hcells]]].
  assert (Eq : q = img_output L).
  { unfold lee_filter in Hq; rewrite HL in Hq; simpl in Hq; congruence. }
  subst q; exists out, (img_output L).
  split; [exact Hout|]; split; [exact Hsl|]; split; [exact Hshape|].
  intros i j Hi' Hj'; destruct (Hcells i j Hi' Hj') as [_ Hn].
  simpl in Hn; destruct (get (img_output L) i j); simpl in Hn;
    try discriminate; reflexivity.
Qed.

Lemma HH_dB_filtered_zero_sample_witness :
  exists (out : ndarray xr) (q : array xr),
    HH_dB_filtered (Stack [Plane [[RNum 1; RNum 0]]]) = Ok out /\
    slice_at out [0%nat] = Some q /\
    get q 0 0 = RNaN.
Proof.
  destruct (HH_dB_filtered_zero_sample
              (Stack [Plane [[RNum 1; RNum 0]]]) [0%nat]
              (p := [[RNum 1; RNum 0]]) (h := 1) (w := 2) (i0 := 0) (j0 := 1))
    as [out [q [H1 [H2 [_ H3]]]]].
  - reflexivity.
  - split; [reflexivity | repeat constructor].
  - lia.
  - lia.
  - left; reflexivity.
  - exists out, q; split; [exact H1|]; split; [exact H2|]; apply H3; lia.
Defined.

End RealScalarFacts.

(** ** Bounds on the output *)

(** On a finite image with two different samples: the weight and the
    output of every pixel as rationals. *)
Lemma lee_filter_blend_finite (img : array xq) (h w : nat) (size : Z)
      (i0 j0 i1 j1 : nat) :
  has_shape img h w -> finite_array img -> (0 < size)%Z ->
  (i0 < h)%nat -> (j0 < w)%nat -> (i1 < h)%nat -> (j1 < w)%nat ->
  ~ qval (get img i0 j0) == qval (get img i1 j1) ->
  exists L : lee_locals,
    lee_filter_locals img size = Ok L /\
    has_shape (img_output L) h w /\
    forall i j, (i < h)%nat -> (j < w)%nat ->
      exists wq oq : Q,
        get (img_weights L) i j = Num wq /\
        get (img_output L) i j = Num oq /\
        let m := local_mean (to_q img) size i j in
        let v := local_variance (to_q img) size i j in
        let V := Qvariance (flatten (to_q img)) in
        0 <= v /\ 0 < V /\
        wq == v / (v + V) /\
        oq == m + wq * (qval (get img i j) - m).
Proof.
  intros Hs Hf H0 Hi0 Hj0 Hi1 Hj1 Hd.
  pose proof (overall_variance_nonzero Hs Hi0 Hj0 Hi1 Hj1 Hd) as Hnz.
  pose proof (Qvariance_nonneg (flatten (to_q img))) as Hge.
  destruct (lee_filter_locals_finite (size := size) Hs Hf) as [L [HL [Hshape Hc]]]; [lia|].
  exists L; split; [exact HL|]; split; [exact Hshape|].
  intros i j Hi Hj.
  destruct (Hc i j Hi Hj) as [HM [_ [HV [HO [Hw Ho]]]]]; simpl in HM, HV, HO.
  set (m := local_mean (to_q img) size i j) in *.
  set (v := local_variance (to_q img) size i j) in *.
  set (V := Qvariance (flatten (to_q img))) in *.
  assert (Hv : 0 <= v).
  { unfold v; rewrite (local_variance_window (to_q_shape Hs)) by (assumption || lia).
    apply Qvariance_nonneg. }
  assert (HV0 : 0 < V) by (apply Qle_lteq in Hge; destruct Hge as [H|H];
                           [exact H | exfalso; apply Hnz; symmetry; exact H]).
  assert (HW : same (get (img_weights L) i j) (Num (v / (v + V)))).
  { rewrite Hw; apply xdiv_num; [exact HV | now apply xadd_num |].
    intros E; lra. }
  apply same_Num in HW; destruct HW as [wq [Ew Hwq]].
  pose proof (same_finite _ (finite_get Hs Hf Hi Hj)) as Hx.
  assert (HOut : same (get (img_output L) i j)
                      (Num (m + wq * (qval (get img i j) - m)))).
  { rewrite Ho, Ew; apply xadd_num; [exact HM|].
    apply xmul_num; [apply same_refl | now apply xsub_num]. }
  apply same_Num in HOut; destruct HOut as [oq [Eo Hoq]].
  exists wq, oq; split; [exact Ew|]; split; [exact Eo|].
  repeat split; assumption.
Qed.

Lemma Qsum_bounds (lo hi : Q) (l : list Q) :
  (forall x, In x l -> lo <= x <= hi) ->
  inject_Z (Z.of_nat (length l)) * lo <= Qsum l
  <= inject_Z (Z.of_nat (length l)) * hi.
Proof.
  induction l as [|x l IH]; intros Hb.
  - cbn [length]; change (inject_Z (Z.of_nat 0)) with 0; change (Qsum []) with 0.
    split; lra.
  - assert (Hx : lo <= x <= hi) by (apply Hb; now left).
    assert (Hl : forall y, In y l -> lo <= y <= hi) by (intros; apply Hb; now right).
    specialize (IH Hl).
    change (Qsum (x :: l)) with (x + Qsum l).
    replace (length (x :: l)) with (S (length l)) by reflexivity.
    rewrite Nat2Z.inj_succ; unfold Z.succ; rewrite inject_Z_plus.
    change (inject_Z 1) with 1.
    set (n := inject_Z (Z.of_nat (length l))) in *.
    destruct IH as [IH1 IH2], Hx as [Hx1 Hx2].
    split.
    + setoid_replace ((n + 1) * lo) with (n * lo + lo) by ring.
      set (a := n * lo) in *; lra.
    + setoid_replace ((n + 1) * hi) with (n * hi + hi) by ring.
      set (b := n * hi) in *; lra.
Qed.

Lemma Qmean_bounds (lo hi : Q) (l : list Q) :
  l <> [] -> (forall x, In x l -> lo <= x <= hi) -> lo <= Qmean l <= hi.
Proof.
  intros Hne Hb; pose proof (@Qsum_bounds lo hi l Hb) as [H1 H2].
  unfold Qmean.
  assert (Hn : 0 < inject_Z (Z.of_nat (length l))).
  { destruct l; [contradiction|]; unfold Qlt; simpl; lia. }
  set (n := inject_Z (Z.of_nat (length l))) in *.
  split.
  - apply Qle_shift_div_l; [exact Hn | lra].
  - apply Qle_shift_div_r; [exact Hn | lra].
Qed.

Lemma weight_unit_interval (v V : Q) : 0 <= v -> 0 < V -> 0 <= v / (v + V) < 1.
Proof.
  intros Hv HV; split.
  - apply Qle_shift_div_l; lra.
  - apply Qlt_shift_div_r; lra.
Qed.

(** X3: on a finite image whose samples are not all equal, every weight
    lies in [0, 1) and every output sample lies between the local mean and
    the input sample of its pixel: the filter pulls a pixel towards its
    neighbourhood and never past it. *)
Theorem lee_filter_between_mean_and_sample
        (img : array xq) (h w : nat) (size : Z) (i0 j0 i1 j1 : nat) :
  has_shape img h w -> finite_array img -> (0 < size)%Z ->
  (i0 < h)%nat -> (j0 < w)%nat -> (i1 < h)%nat -> (j1 < w)%nat ->
  ~ qval (get img i0 j0) == qval (get img i1 j1) ->
  exists L : lee_locals,
    lee_filter_locals img size = Ok L /\
    forall i j, (i < h)%nat -> (j < w)%nat ->
      exists wq oq : Q,
        get (img_weights L) i j = Num wq /\
        get (img_output L) i j = Num oq /\
        0 <= wq < 1 /\
        let m := local_mean (to_q img) size i j in
        let x := qval (get img i j) in
        (m <= x -> m <= oq <= x) /\ (x <= m -> x <= oq <= m).
Proof.
  intros Hs Hf H0 Hi0 Hj0 Hi1 Hj1 Hd.
  destruct (lee_filter_blend_finite Hs Hf H0 Hi0 Hj0 Hi1 Hj1 Hd)
    as [L [HL [_ Hc]]].
  exists L; split; [exact HL|].
  intros i j Hi Hj; destruct (Hc i j Hi Hj) as [wq [oq [Ew [Eo [Hv [HV [Hwq Hoq]]]]]]].
  exists wq, oq; split; [exact Ew|]; split; [exact Eo|].
  pose proof (weight_unit_interval Hv HV) as [W0 W1].
  rewrite <- Hwq in W0, W1.
  split; [split; assumption|].
  simpl; split; intros Hmx; rewrite Hoq; split; nra.
Qed.

Lemma lee_filter_between_mean_and_sample_witness :
  exists L : lee_locals,
    lee_filter_locals sample_2x2 3 = Ok L /\
    exists wq : Q, get (img_weights L) 0 0 = Num wq /\ 0 <= wq < 1.
Proof.
  destruct (lee_filter_between_mean_and_sample (size := 3) (i0 := 0) (j0 := 0)
              (i1 := 1) (j1 := 1) has_shape_sample_2x2 finite_sample_2x2)
    as [L [HL Hc]]; try lia.
  - vm_compute; discriminate.
  - exists L; split; [exact HL|].
    destruct (Hc 0%nat 0%nat) as [wq [oq [Ew [_ [Hw _]]]]]; [lia | lia |].
    exists wq; split; assumption.
Defined.

(** X4: in exact arithmetic, on a finite image whose samples are not
    all equal, the output stays within the range of the input: bounds that
    hold for every input sample hold for every output sample.  The
    statement is one of exact arithmetic: binary64 rounds the window sums,
    and [lee_filter_rounding_binary64] below has an output sample one unit
    in the last place above every input sample. *)
Theorem lee_filter_range
        (img : array xq) (h w : nat) (size : Z) (i0 j0 i1 j1 : nat) (lo hi : Q) :
  has_shape img h w -> finite_array img -> (0 < size)%Z ->
  (i0 < h)%nat -> (j0 < w)%nat -> (i1 < h)%nat -> (j1 < w)%nat ->
  ~ qval (get img i0 j0) == qval (get img i1 j1) ->
  (forall i j, (i < h)%nat -> (j < w)%nat -> lo <= qval (get img i j) <= hi) ->
  exists out : array xq,
    lee_filter img size = Ok out /\
    forall i j, (i < h)%nat -> (j < w)%nat ->
      exists oq : Q, get out i j = Num oq /\ lo <= oq <= hi.
Proof.
  intros Hs Hf H0 Hi0 Hj0 Hi1 Hj1 Hd Hb.
  destruct (lee_filter_blend_finite Hs Hf H0 Hi0 Hj0 Hi1 Hj1 Hd)
    as [L [HL [_ Hc]]].
  exists (img_output L); split; [unfold lee_filter; now rewrite HL|].
  intros i j Hi Hj; destruct (Hc i j Hi Hj) as [wq [oq [_ [Eo [Hv [HV [Hwq Hoq]]]]]]].
  exists oq; split; [exact Eo|].
  pose proof (weight_unit_interval Hv HV) as [W0 W1].
  rewrite <- Hwq in W0, W1.
  assert (Hm : lo <= local_mean (to_q img) size i j <= hi).
  { unfold local_mean; rewrite (window_samples_get Hs) by (assumption || lia).
    apply Qmean_bounds.
    - intros E; apply (f_equal (@length Q)) in E.
      rewrite length_map, window_cells_length in E; simpl in E; nia.
    - intros x Hx; apply in_map_iff in Hx; destruct Hx as [c [<- Hin]].
      apply window_cells_lt in Hin; [|lia|lia]; destruct Hin; now apply Hb. }
  pose proof (Hb i j Hi Hj) as Hx.
  simpl in Hoq; rewrite Hoq; split; nra.
Qed.

Lemma lee_filter_range_witness :
  exists out : array xq,
    lee_filter sample_2x2 3 = Ok out /\
    exists oq : Q, get out 1 0 = Num oq /\ 1 <= oq <= 4.
Proof.
  destruct (lee_filter_range (size := 3) (i0 := 0) (j0 := 0) (i1 := 1) (j1 := 1)
              (lo := 1) (hi := 4) has_shape_sample_2x2 finite_sample_2x2)
    as [out [H1 H2]]; try lia.
  - vm_compute; discriminate.
  - intros [|[|i]] [|[|j]] Hi Hj; try lia; vm_compute; split; discriminate.
  - exists out; split; [exact H1 | apply H2; lia].
Defined.

(** X5: in exact arithmetic, on a finite image whose samples are not
    all equal, a pixel whose window is flat (every sample of the window
    equals the pixel) is returned unchanged: output == input at that
    pixel.  The statement is one of exact arithmetic: in binary64 the mean
    of a flat window need not be the sample
    ([lee_filter_rounding_binary64] below). *)
Theorem lee_filter_flat_window
        (img : array xq) (h w : nat) (size : Z) (i0 j0 i1 j1 i j : nat) :
  has_shape img h w -> finite_array img -> (0 < size)%Z ->
  (i0 < h)%nat -> (j0 < w)%nat -> (i1 < h)%nat -> (j1 < w)%nat ->
  ~ qval (get img i0 j0) == qval (get img i1 j1) ->
  (i < h)%nat -> (j < w)%nat ->
  (forall c, In c (window_cells h w size i j) ->
             qval (get img (fst c) (snd c)) == qval (get img i j)) ->
  exists out : array xq,
    lee_filter img size = Ok out /\
    xeqb (get out i j) (get img i j) = true.
Proof.
  intros Hs Hf H0 Hi0 Hj0 Hi1 Hj1 Hd Hi Hj Hflat.
  destruct (lee_filter_blend_finite Hs Hf H0 Hi0 Hj0 Hi1 Hj1 Hd)
    as [L [HL [_ Hc]]].
  exists (img_output L); split; [unfold lee_filter; now rewrite HL|].
  destruct (Hc i j Hi Hj) as [wq [oq [_ [Eo [_ [_ [_ Hoq]]]]]]].
  assert (Hne : window_samples (to_q img) size i j <> []).
  { intros E; apply (f_equal (@length Q)) in E.
    rewrite (window_samples_get Hs), length_map, window_cells_length in E
      by (assumption || lia).
    simpl in E; nia. }
  assert (Hm : local_mean (to_q img) size i j == qval (get img i j)).
  { apply Qmean_const; [exact Hne|].
    intros x Hx; rewrite (window_samples_get Hs) in Hx by (assumption || lia).
    apply in_map_iff in Hx; destruct Hx as [c [<- Hin]]; now apply Hflat. }
  pose proof (finite_get Hs Hf Hi Hj) as Hfin.
  rewrite Eo; destruct (get img i j) as [x| | |]; try contradiction.
  simpl in *; apply Qeq_bool_iff; rewrite Hoq, Hm; ring.
Qed.

Lemma lee_filter_flat_window_witness :
  exists out : array xq,
    lee_filter spike_7x7 3 = Ok out /\
    xeqb (get out 0 0) (get spike_7x7 0 0) = true.
Proof.
  assert (Hs : has_shape spike_7x7 7 7) by apply has_shape_tabulate.
  assert (Hf : finite_array spike_7x7).
  { unfold spike_7x7, tabulate, finite_array.
    apply Forall_forall; intros r Hr; apply in_map_iff in Hr.
    destruct Hr as [i [<- _]]; apply Forall_forall; intros x Hx.
    apply in_map_iff in Hx; destruct Hx as [j [<- _]].
    destruct ((i =? 3) && (j =? 3))%nat; exact I. }
  apply (lee_filter_flat_window (size := 3) (i0 := 0) (j0 := 0) (i1 := 3) (j1 := 3)
           (i := 0) (j := 0) Hs Hf); try lia.
  - vm_compute; discriminate.
  - intros c Hc; vm_compute in Hc.
    repeat (destruct Hc as [<- | Hc]; [vm_compute; reflexivity|]).
    contradiction.
Defined.

(** In binary64 the window sums round.  On [[0.1, 0.1, 0.1, 0.0]] with
    size 3 the window of pixel (0, 0) holds 0.1 only, and 0.1 is the
    largest sample; the mean of that window and the output at the pixel
    are the next binary64 number above 0.1. *)
Example lee_filter_rounding_binary64 :
  exists L : lee_locals,
    lee_filter_locals tenths_row 3 = Ok L /\
    get (img_mean L) 0 0 = 0x1.999999999999bp-4%float /\
    get (img_output L) 0 0 = 0x1.999999999999bp-4%float /\
    PrimFloat.ltb (get tenths_row 0 0) (get (img_output L) 0 0) = true.
Proof. eexists; split; [vm_compute; reflexivity | vm_compute; repeat split]. Qed.

(** ** Change of scale and offset *)

Lemma Qmean_affine {A : Type} (a b : Q) (g g' : A -> Q) (l : list A) :
  l <> [] -> (forall x, In x l -> g' x == a * g x + b) ->
  Qmean (map g' l) == a * Qmean (map g l) + b.
Proof.
  intros Hne Hg; unfold Qmean; rewrite !length_map.
  pose proof (length_nonzero Hne) as Hn.
  rewrite (@Qsum_map_ext A g' (fun x => a * g x + b) l Hg).
  rewrite (@Qsum_map_plus A (fun x => a * g x) (fun _ => b) l), Qsum_map_const.
  assert (E : forall x, In x l -> a * g x == g x * a) by (intros; ring).
  rewrite (@Qsum_map_ext A _ _ l E).
  rewrite Qsum_map_scale.
  set (n := inject_Z (Z.of_nat (length l))) in *.
  field; exact Hn.
Qed.

Lemma Qvariance_affine {A : Type} (a b : Q) (g g' : A -> Q) (l : list A) :
  l <> [] -> (forall x, In x l -> g' x == a * g x + b) ->
  Qvariance (map g' l) == a * a * Qvariance (map g l).
Proof.
  intros Hne Hg; pose proof (@Qmean_affine A a b g g' l Hne Hg) as Hm.
  unfold Qvariance.
  set (mu' := Qmean (map g' l)) in *; set (mu := Qmean (map g l)) in *.
  unfold Qmean; rewrite !length_map, !map_map.
  assert (E : forall x, In x l ->
            (g' x - mu') * (g' x - mu') == (g x - mu) * (g x - mu) * (a * a))
    by (intros x Hx; rewrite (Hg x Hx), Hm; ring).
  rewrite (@Qsum_map_ext A _ _ l E).
  rewrite Qsum_map_scale.
  pose proof (length_nonzero Hne) as Hn.
  set (n := inject_Z (Z.of_nat (length l))) in *.
  field; exact Hn.
Qed.

Lemma affine_image_shape (a b : Q) (img : array xq) (h w : nat) :
  has_shape img h w -> has_shape (affine_image a b img) h w.
Proof. intros Hs; unfold affine_image; now apply has_shape_map. Qed.

Lemma affine_image_finite (a b : Q) (img : array xq) :
  finite_array img -> finite_array (affine_image a b img).
Proof.
  unfold finite_array, affine_image; intros Hf.
  apply Forall_forall; intros r Hr; apply in_map_iff in Hr.
  destruct Hr as [r' [<- Hr']]; rewrite Forall_forall in Hf.
  specialize (Hf r' Hr'); apply Forall_forall; intros x Hx.
  apply in_map_iff in Hx; destruct Hx as [y [<- Hy]].
  rewrite Forall_forall in Hf; specialize (Hf y Hy).
  destruct y; simpl in *; try contradiction; exact I.
Qed.

Lemma affine_cell (a b : Q) (x : xq) :
  is_finite x -> qval (xadd (xmul (Num a) x) (Num b)) == a * qval x + b.
Proof.
  destruct x as [q| | |]; intros H; try contradiction.
  unfold xmul, num, xadd, num, qval; now rewrite !Qred_correct.
Qed.

Lemma affine_image_get (a b : Q) (img : array xq) (h w i j : nat) :
  has_shape img h w -> finite_array img -> (i < h)%nat -> (j < w)%nat ->
  qval (get (affine_image a b img) i j) == a * qval (get img i j) + b.
Proof.
  intros Hs Hf Hi Hj; unfold affine_image.
  rewrite (get_map _ Hs) by assumption.
  apply affine_cell; eapply finite_get; eauto.
Qed.

(** X6: in exact arithmetic the filter commutes with a change of scale
    and offset of the samples.  For a finite image and rational numbers
    a <> 0 and b, filtering [a * img + b] gives [a * out + b], where [out]
    is the filtered [img] (NaN cells matching NaN cells).  The statement is
    one of exact arithmetic: in binary64 the two sides round differently
    ([lee_filter_offset_binary64] below). *)
Theorem lee_filter_affine
        (img : array xq) (h w : nat) (size : Z) (a b : Q) :
  has_shape img h w -> finite_array img -> (0 < size)%Z -> ~ a == 0 ->
  exists out out' : array xq,
    lee_filter img size = Ok out /\
    lee_filter (affine_image a b img) size = Ok out' /\
    forall i j, (i < h)%nat -> (j < w)%nat ->
      same (get out' i j) (xadd (xmul (Num a) (get out i j)) (Num b)).
Proof.
  intros Hs Hf H0 Ha.
  pose proof (affine_image_shape a b Hs) as Hs'.
  pose proof (affine_image_finite a b Hf) as Hf'.
  destruct (lee_filter_locals_finite (size := size) Hs Hf) as [L [HL [_ Hc]]]; [lia|].
  destruct (lee_filter_locals_finite (size := size) Hs' Hf') as [L' [HL' [_ Hc']]]; [lia|].
  exists (img_output L), (img_output L').
  split; [unfold lee_filter; now rewrite HL|].
  split; [unfold lee_filter; now rewrite HL'|].
  intros i j Hi Hj.
  destruct (Hc i j Hi Hj) as [HM [_ [HV [HO [Hw Ho]]]]].
  destruct (Hc' i j Hi Hj) as [HM' [_ [HV' [HO' [Hw' Ho']]]]].
  simpl in HM, HV, HO, HM', HV', HO'.
  set (img' := affine_image a b img) in *.
  pose proof (same_finite _ (finite_get Hs Hf Hi Hj)) as Hx.
  pose proof (same_finite _ (finite_get Hs' Hf' Hi Hj)) as Hx'.
  set (cells := window_cells h w size i j).
  assert (Hne : cells <> []).
  { intros E; apply (f_equal (@length (nat * nat))) in E.
    unfold cells in E; rewrite window_cells_length in E; simpl in E; nia. }
  assert (Hcell : forall c, In c cells ->
            qval (get img' (fst c) (snd c)) == a * qval (get img (fst c) (snd c)) + b).
  { intros c Hin; apply window_cells_lt in Hin; [|lia|lia]; destruct Hin.
    now apply (affine_image_get a b Hs Hf). }
  assert (Em : local_mean (to_q img') size i j
               == a * local_mean (to_q img) size i j + b).
  { unfold local_mean.
    rewrite (window_samples_get Hs'), (window_samples_get Hs) by (assumption || lia).
    now apply Qmean_affine. }
  assert (Ev : local_variance (to_q img') size i j
               == a * a * local_variance (to_q img) size i j).
  { rewrite (local_variance_window (to_q_shape Hs')),
            (local_variance_window (to_q_shape Hs)) by (assumption || lia).
    rewrite (window_samples_get Hs'), (window_samples_get Hs) by (assumption || lia).
    now apply (@Qvariance_affine _ a b). }
  assert (EV : Qvariance (flatten (to_q img'))
               == a * a * Qvariance (flatten (to_q img))).
  { rewrite !flatten_to_q.
    assert (Efl : flatten img' = map (fun x => xadd (xmul (Num a) x) (Num b)) (flatten img))
      by (unfold img', affine_image, flatten; now rewrite concat_map).
    rewrite Efl, map_map.
    apply (@Qvariance_affine _ a b).
    - intros E; now apply (flatten_nonempty Hs Hi Hj).
    - intros x Hin; apply affine_cell.
      pose proof (finite_flatten Hf) as Hall; rewrite Forall_forall in Hall; auto. }
  set (m := local_mean (to_q img) size i j) in *.
  set (v := local_variance (to_q img) size i j) in *.
  set (V := Qvariance (flatten (to_q img))) in *.
  set (m' := local_mean (to_q img') size i j) in *.
  set (v' := local_variance (to_q img') size i j) in *.
  set (V' := Qvariance (flatten (to_q img'))) in *.
  set (x := qval (get img i j)) in *.
  assert (Ex : qval (get img' i j) == a * x + b)
    by (now apply (affine_image_get a b Hs Hf)).
  set (x' := qval (get img' i j)) in *.
  rewrite Ho, Ho', Hw, Hw'.
  destruct (Qeq_dec (v + V) 0) as [Ez | Enz].
  - assert (Hv0 : 0 <= v).
    { unfold v; rewrite (local_variance_window (to_q_shape Hs)) by (assumption || lia).
      apply Qvariance_nonneg. }
    pose proof (Qvariance_nonneg (flatten (to_q img))) as HV0; fold V in HV0.
    assert (Ev0 : v == 0) by lra.
    assert (EV0 : V == 0) by lra.
    assert (N : xdiv (get (img_variance L) i j)
                     (xadd (get (img_variance L) i j) (overall_variance L)) = NaN).
    { apply xdiv_zero_zero; [now rewrite HV|].
      rewrite (xadd_num _ _ _ _ HV HO); simpl; lra. }
    assert (N' : xdiv (get (img_variance L') i j)
                      (xadd (get (img_variance L') i j) (overall_variance L')) = NaN).
    { apply xdiv_zero_zero; [rewrite HV'; simpl; rewrite Ev, Ev0; ring|].
      rewrite (xadd_num _ _ _ _ HV' HO'); simpl; rewrite Ev, EV, Ev0, EV0; ring. }
    rewrite N, N', !xmul_nan_l, !xadd_nan_r; reflexivity.
  - assert (Enz' : ~ v' + V' == 0).
    { rewrite Ev, EV; intros E; apply Enz.
      assert (E2 : a * a * (v + V) == 0) by (rewrite <- E; ring).
      apply Qmult_integral in E2; destruct E2 as [E2 | E2]; [|exact E2].
      apply Qmult_integral in E2; destruct E2; contradiction. }
    assert (W : same (xdiv (get (img_variance L) i j)
                           (xadd (get (img_variance L) i j) (overall_variance L)))
                     (Num (v / (v + V))))
      by (apply xdiv_num; [exact HV | now apply xadd_num | exact Enz]).
    assert (W' : same (xdiv (get (img_variance L') i j)
                            (xadd (get (img_variance L') i j) (overall_variance L')))
                      (Num (v' / (v' + V'))))
      by (apply xdiv_num; [exact HV' | now apply xadd_num | exact Enz']).
    rewrite W, W', HM, HM', Hx, Hx'.
    unfold xsub, xmul, xadd, num, same.
    rewrite !Qred_correct, Ev, EV, Em, Ex.
    field; split; [exact Enz|].
    intros E; apply Enz'; rewrite Ev, EV; rewrite <- E; ring.
Qed.

Lemma lee_filter_affine_witness :
  exists out out' : array xq,
    lee_filter sample_2x2 3 = Ok out /\
    lee_filter (affine_image 10 (-3) sample_2x2) 3 = Ok out' /\
    same (get out' 0 1) (xadd (xmul (Num 10) (get out 0 1)) (Num (-3))).
Proof.
  destruct (lee_filter_affine (size := 3) (a := 10) (-3)
              has_shape_sample_2x2 finite_sample_2x2)
    as [out [out' [H1 [H2 H3]]]]; [lia | discriminate |].
  exists out, out'; split; [exact H1|]; split; [exact H2 | apply H3; lia].
Defined.

(** In binary64 the offset and the filter do not commute: at pixel
    (0, 0) of [[1, 2], [3, 4]] moved by 2^30, the filter of the moved
    image and the moved output of the filter differ. *)
Example lee_filter_offset_binary64 :
  exists out out' : array float,
    lee_filter sample_2x2_binary64 3 = Ok out /\
    lee_filter (offset_image 0x1p30 sample_2x2_binary64) 3 = Ok out' /\
    get out' 0 0 = 1073741826%float /\
    PrimFloat.eqb (get out' 0 0) (PrimFloat.add (get out 0 0) 0x1p30) = false.
Proof.
  do 2 eexists; split; [vm_compute; reflexivity|].
  split; [vm_compute; reflexivity | vm_compute; split; reflexivity].
Qed.

(** ** Counting the scenes *)

Module CatalogFacts.

Import Catalog.
Local Open Scope string_scope.

Lemma scene_ids_done (items : list item) :
  Forall (fun it => exists s, scene_id it = Done s) items ->
  exists l, scene_ids items = Done l /\
            Forall2 (fun it s => scene_id it = Done s) items l.
Proof.
  induction 1 as [|it items [s Hs] _ [l [Hl HF]]]; simpl.
  - exists []; split; [reflexivity | constructor].
  - rewrite Hs, Hl; exists (s :: l); split; [reflexivity | now constructor].
Qed.

Lemma scene_ids_fail (before after : list item) (it : item) (e : lookup_error) :
  Forall (fun it => exists s, scene_id it = Done s) before ->
  scene_id it = Fail e ->
  scene_ids (before ++ it :: after) = Fail e.
Proof.
  intros Hb He; induction Hb as [|x before [s Hs] _ IH]; simpl.
  - now rewrite He.
  - now rewrite Hs, IH.
Qed.

(** X7: the count of unique scenes fails at the first item that cannot
    give a scene id, with a KeyError when the item has no "nrb:scene_id"
    property and an IndexError when that property is an empty list;
    nothing is counted in either case. *)
Theorem count_unique_scenes_fails (before after : list item) (it : item) :
  Forall (fun it => exists s, scene_id it = Done s) before ->
  (dict_get (properties it) "nrb:scene_id" = Fail (KeyError "nrb:scene_id") ->
   count_unique_scenes (before ++ it :: after) = Fail (KeyError "nrb:scene_id")) /\
  (dict_get (properties it) "nrb:scene_id" = Done [] ->
   count_unique_scenes (before ++ it :: after) = Fail IndexError).
Proof.
  intros Hb; unfold count_unique_scenes, unique_scenes; split; intros Hd.
  - rewrite (@scene_ids_fail before after it (KeyError "nrb:scene_id") Hb);
      [reflexivity|].
    unfold scene_id; now rewrite Hd.
  - rewrite (@scene_ids_fail before after it IndexError Hb); [reflexivity|].
    unfold scene_id; now rewrite Hd.
Qed.

Lemma count_unique_scenes_fails_witness :
  count_unique_scenes
    (sample_items ++ {| properties := [("datetime", ["2020-06-02"])] |} :: sample_items)
  = Fail (KeyError "nrb:scene_id") /\
  count_unique_scenes
    (sample_items ++ {| properties := [("nrb:scene_id", [])] |} :: sample_items)
  = Fail IndexError.
Proof.
  assert (Hb : Forall (fun it => exists s, scene_id it = Done s) sample_items)
    by (repeat constructor; eexists; reflexivity).
  split.
  - apply (proj1 (@count_unique_scenes_fails sample_items sample_items _ Hb));
      reflexivity.
  - apply (proj2 (@count_unique_scenes_fails sample_items sample_items _ Hb));
      reflexivity.
Defined.

(** X8: when every item gives a scene id, the count succeeds: the set
    holds exactly the scene ids of the items, each once, so the count is
    at most the number of items and at least 1 when there is an item. *)
Theorem count_unique_scenes_bounds (items : list item) :
  Forall (fun it => exists s, scene_id it = Done s) items ->
  exists scenes : list string,
    unique_scenes items = Done scenes /\
    count_unique_scenes items = Done (length scenes) /\
    NoDup scenes /\
    (forall s, In s scenes <-> exists it, In it items /\ scene_id it = Done s) /\
    (length scenes <= length items)%nat /\
    (items <> [] -> (1 <= length scenes)%nat).
Proof.
  intros Hall; destruct (scene_ids_done Hall) as [l [Hl HF]].
  exists (nodup string_dec l); unfold count_unique_scenes, unique_scenes.
  rewrite Hl; split; [reflexivity|]; split; [reflexivity|].
  split; [apply NoDup_nodup|].
  assert (Hin : forall s, In s l <-> exists it, In it items /\ scene_id it = Done s).
  { clear Hl Hall; induction HF as [|it s items l Hs _ IH]; intros s'; simpl.
    - split; [contradiction | intros [it [[] _]]].
    - split.
      + intros [<- | H]; [exists it; auto|].
        apply IH in H; destruct H as [it' [Hi Hs']]; exists it'; auto.
      + intros [it' [[<- | Hi] Hs']]; [left; congruence|].
        right; apply IH; eauto. }
  split; [intros s; rewrite nodup_In; apply Hin|].
  assert (Hlen : length l = length items) by (symmetry; eapply Forall2_length; eauto).
  split.
  - rewrite <- Hlen; apply NoDup_incl_length; [apply NoDup_nodup|].
    intros s Hs; now apply nodup_In in Hs.
  - intros Hne; destruct l as [|s l]; [destruct items; [contradiction | discriminate]|].
    assert (Hs : In s (nodup string_dec (s :: l))) by (apply nodup_In; now left).
    destruct (nodup string_dec (s :: l)); [contradiction | simpl; lia].
Qed.

Lemma count_unique_scenes_bounds_witness :
  count_unique_scenes sample_items = Done 2%nat.
Proof.
  assert (Hb : Forall (fun it => exists s, scene_id it = Done s) sample_items)
    by (repeat constructor; eexists; reflexivity).
  destruct (count_unique_scenes_bounds Hb) as [scenes [H1 [H2 _]]].
  rewrite H2; f_equal.
  assert (E : Done scenes = Done (nodup string_dec ["S1A_1"; "S1A_2"; "S1A_1"]))
    by (rewrite <- H1; reflexivity).
  injection E as ->; reflexivity.
Defined.

End CatalogFacts.

(** ** The files of the time steps *)

Module CogExportFacts.

Import CogExport.
Local Open Scope string_scope.

Lemma append_cancel_l (a x y : string) : a ++ x = a ++ y -> x = y.
Proof. induction a as [|c a IH]; simpl; intros H; [exact H | injection H; auto]. Qed.

Lemma no_underscore_digits (d : Decimal.uint) :
  no_underscore (DecimalString.NilEmpty.string_of_uint d).
Proof. induction d; simpl; auto; split; auto; discriminate. Qed.

Lemma no_underscore_str_of_nat (n : nat) : no_underscore (str_of_nat n).
Proof.
  unfold str_of_nat, DecimalString.NilZero.string_of_uint.
  destruct (Nat.to_uint n) eqn:E; try (rewrite <- E; apply no_underscore_digits);
    try (apply (no_underscore_digits (Decimal.D0 _)) || simpl; auto).
  simpl; split; [discriminate | exact I].
Qed.

(** Two strings without an underscore, each followed by one, are equal
    when the whole strings are. *)
Lemma split_at_underscore (a b x y : string) :
  no_underscore a -> no_underscore b ->
  a ++ "_" ++ x = b ++ "_" ++ y -> a = b.
Proof.
  revert b; induction a as [|c a IH]; intros [|c' b] Ha Hb H; simpl in *.
  - reflexivity.
  - injection H as Hc _; destruct Hb as [Hb _]; congruence.
  - injection H as Hc _; destruct Ha as [Ha _]; congruence.
  - injection H as Hc H; destruct Ha as [_ Ha], Hb as [_ Hb].
    f_equal; [exact Hc | now apply IH].
Qed.

Lemma to_uint_not_nil (n : nat) : Nat.to_uint n <> Decimal.Nil.
Proof.
  intros E; assert (H : n = 0%nat)
    by (rewrite <- (DecimalNat.Unsigned.of_to n), E; reflexivity).
  subst n; discriminate.
Qed.

Lemma str_of_nat_inj (n m : nat) : str_of_nat n = str_of_nat m -> n = m.
Proof.
  unfold str_of_nat; intros H.
  apply (f_equal DecimalString.NilZero.uint_of_string) in H.
  rewrite !DecimalString.NilZero.usu in H by apply to_uint_not_nil.
  injection H as H; now apply DecimalNat.Unsigned.to_uint_inj.
Qed.

(** The names of two time steps differ, whatever their dates. *)
Lemma cog_name_inj (stem : string) (t1 t2 : nat) (d1 d2 : string) :
  cog_name stem t1 d1 = cog_name stem t2 d2 -> t1 = t2.
Proof.
  unfold cog_name; intros H.
  apply append_cancel_l in H; apply append_cancel_l in H.
  apply (append_cancel_l "_t") in H.
  apply str_of_nat_inj.
  eapply split_at_underscore; [| | exact H]; apply no_underscore_str_of_nat.
Qed.

Section Loop.

Context {A : Type} (d : A) (stem : string) (ds : list (string * A)).

Lemma read_after_other_steps (ts : list nat) (name : string) :
  forall files,
    (forall t, In t ts -> cog_name stem t (nth t (map fst ds) "") <> name) ->
    read_file (fold_left (export_step d stem ds) ts files) name
    = read_file files name.
Proof.
  induction ts as [|t ts IH]; intros files Hn; [reflexivity|].
  cbn [fold_left]; rewrite IH by (intros t' Ht'; apply Hn; now right).
  unfold export_step, write_cog; cbn [read_file].
  destruct (String.eqb_spec (cog_name stem t (nth t (map fst ds) "")) name) as [E|_];
    [|reflexivity].
  exfalso; apply (Hn t); [now left | exact E].
Qed.

Lemma read_after_own_step (ts : list nat) :
  forall files t,
    NoDup ts -> In t ts ->
    read_file (fold_left (export_step d stem ds) ts files)
              (cog_name stem t (nth t (map fst ds) ""))
    = Some (nth t (map snd ds) d).
Proof.
  induction ts as [|t0 ts IH]; intros files t Hnd Hin; [contradiction|].
  inversion Hnd as [|? ? Hnotin Hnd']; subst; cbn [fold_left].
  destruct Hin as [-> | Hin]; [|now apply IH].
  rewrite read_after_other_steps.
  - unfold export_step, write_cog; cbn [read_file]; now rewrite String.eqb_refl.
  - intros t' Ht' E; apply cog_name_inj in E; subst t'; contradiction.
Qed.

End Loop.

(** X9: after the loop over the time steps, the file of every time step
    holds the plane of that time step: no step overwrites the file of
    another, even when two steps fall on one date, because the step number
    is part of the name. *)
Theorem export_time_steps_readable
        (A : Type) (d : A) (stem : string) (ds : list (string * A))
        (files : list (string * A)) (t : nat) :
  (t < length ds)%nat ->
  read_file (export_time_steps d stem ds files)
            (cog_name stem t (fst (nth t ds ("", d))))
  = Some (snd (nth t ds ("", d))) /\
  forall t', (t' < length ds)%nat -> t' <> t ->
    cog_name stem t' (fst (nth t' ds ("", d)))
    <> cog_name stem t (fst (nth t ds ("", d))).
Proof.
  intros Ht; split.
  - unfold export_time_steps.
    rewrite <- (map_nth fst ds ("", d) t), <- (map_nth snd ds ("", d) t); simpl.
    apply read_after_own_step; [apply seq_NoDup | apply in_seq; lia].
  - intros t' _ Hne E; apply cog_name_inj in E; contradiction.
Qed.

Lemma export_time_steps_readable_witness :
  read_file
    (export_time_steps 0%nat "band" [("2020-06-01", 7%nat); ("2020-06-01", 8%nat)] [])
    (cog_name "band" 0 "2020-06-01")
  = Some 7%nat.
Proof.
  assert (Ht : (0 < length [("2020-06-01", 7%nat); ("2020-06-01", 8%nat)])%nat)
    by (simpl; lia).
  exact (proj1 (export_time_steps_readable 0%nat "band"
                  [("2020-06-01", 7%nat); ("2020-06-01", 8%nat)] [] Ht)).
Defined.

(** X10: the loop leaves every file alone whose name is not the name of
    one of its time steps: reading such a path gives what it gave before
    the loop. *)
Theorem export_time_steps_other_files
        (A : Type) (d : A) (stem : string) (ds : list (string * A))
        (files : list (string * A)) (name : string) :
  (forall t, (t < length ds)%nat ->
             cog_name stem t (fst (nth t ds ("", d))) <> name) ->
  read_file (export_time_steps d stem ds files) name = read_file files name.
Proof.
  intros Hn; unfold export_time_steps.
  apply read_after_other_steps.
  intros t Ht; apply in_seq in Ht.
  change (nth t (map fst ds) "") with (nth t (map fst ds) (fst ("", d))).
  rewrite map_nth; apply Hn; lia.
Qed.

Lemma export_time_steps_other_files_witness :
  read_file
    (export_time_steps 0%nat "band" [("2020-06-01", 7%nat)]
       [("outputs/band_single_timestep.cog", 5%nat)])
    "outputs/band_single_timestep.cog"
  = Some 5%nat.
Proof.
  rewrite export_time_steps_other_files; [reflexivity|].
  intros [|t] Ht; simpl in Ht; [|lia].
  vm_compute; discriminate.
Defined.

End CogExportFacts.

(** ** Shapes and sizes, on every scalar type *)

Lemma mapM_ext_in {A B : Type} (f g : A -> result B) (l : list A) :
  Forall (fun x => f x = g x) l -> mapM f l = mapM g l.
Proof.
  induction 1 as [|x l Hx _ IH]; simpl; [reflexivity|].
  now rewrite Hx, IH.
Qed.

Lemma apply_ufunc_ext {T : Type} (f g : array T -> result (array T)) :
  (forall p, f p = g p) -> forall a, apply_ufunc f a = apply_ufunc g a.
Proof.
  intros E a; induction a as [p|l IH] using ndarray_induction; simpl.
  - now rewrite E.
  - now rewrite (mapM_ext_in _ _ IH).
Qed.

(** X11: [apply_lee_filter] keeps the shape of its input, for every
    window size and on every scalar type: the result has a plane exactly
    where the input has one, and a plane of shape (h, w) is filtered to
    a plane of shape (h, w). *)
Theorem apply_lee_filter_shape
        (T : Type) (ST : Scalar T) (data_array : ndarray T) (size : Z) :
  exists out : ndarray T,
    apply_lee_filter data_array size = Ok out /\
    forall idx,
      match slice_at data_array idx with
      | Some p =>
          exists q, slice_at out idx = Some q /\
                    forall h w, has_shape p h w -> has_shape q h w
      | None => slice_at out idx = None
      end.
Proof.
  unfold apply_lee_filter.
  destruct (apply_ufunc_total (fun img => lee_filter img size)
              (fun p => lee_filter_total p size) (nd_map fillna0 data_array))
    as [out Hout].
  exists out; split; [exact Hout|].
  intros idx; pose proof (apply_ufunc_slices _ _ Hout idx) as Hs.
  rewrite slice_at_nd_map in Hs.
  destruct (slice_at data_array idx) as [p|]; simpl in Hs; [|exact Hs].
  destruct Hs as [q [Hq Hs]]; exists q; split; [exact Hs|].
  intros h w Hp.
  destruct (lee_filter_locals_cells size (has_shape_map fillna0 Hp))
    as [L [HL [_ [_ [_ [Hshape _]]]]]].
  unfold lee_filter in Hq; rewrite HL in Hq; simpl in Hq.
  injection Hq as <-; exact Hshape.
Qed.

Lemma apply_lee_filter_shape_witness :
  exists (out : ndarray xq) (q : array xq),
    apply_lee_filter sample_band 5 = Ok out /\
    slice_at out [0%nat] = Some q /\ has_shape q 2 2.
Proof.
  destruct (apply_lee_filter_shape Scalar_xq sample_band 5) as [out [H1 H2]].
  specialize (H2 [0%nat]); simpl in H2; destruct H2 as [q [H2 H3]].
  exists out, q; split; [exact H1|]; split; [exact H2|].
  apply H3; split; [reflexivity | repeat constructor].
Defined.

(** X12: every window size of 1 or less, zero and the negative sizes
    included, gives the result of size 1, for [lee_filter] and for
    [apply_lee_filter], on every scalar type. *)
Theorem lee_filter_small_size
        (T : Type) (ST : Scalar T) (img : array T) (data_array : ndarray T)
        (size : Z) :
  (size <= 1)%Z ->
  lee_filter img size = lee_filter img 1 /\
  apply_lee_filter data_array size = apply_lee_filter data_array 1.
Proof.
  intros Hs.
  assert (E : forall p : array T, lee_filter p size = lee_filter p 1).
  { intros p; unfold lee_filter, lee_filter_locals.
    pose proof (uniform_filter_small p Hs) as A1.
    pose proof (uniform_filter_small (arr_sqr p) Hs) as A2.
    rewrite A1, A2; reflexivity. }
  split; [apply E|].
  unfold apply_lee_filter; now apply apply_ufunc_ext.
Qed.

Lemma lee_filter_small_size_witness :
  lee_filter sample_2x2 (-5) = lee_filter sample_2x2 1 /\
  apply_lee_filter sample_band (-5) = apply_lee_filter sample_band 1.
Proof. apply lee_filter_small_size; lia. Defined.

(** ** Decibels: order, products and the masked band *)

Module DecibelAlgebra.

Import Reals Lra Decibel RealScalar.
Local Open Scope R_scope.

Lemma ln_10_positive : 0 < ln 10.
Proof. rewrite <- ln_1; apply ln_increasing; lra. Qed.

(** X13: on positive values the conversion to decibels keeps the order
    strictly, sends 1 to 0 dB, and turns a product into a sum, so that a
    tenfold value is exactly 10 dB more. *)
Theorem to_db_order_and_product (x y : R) :
  0 < x -> 0 < y ->
  exists dx dy dxy : R,
    to_db (RNum x) = RNum dx /\ to_db (RNum y) = RNum dy /\
    to_db (RNum (x * y)) = RNum dxy /\
    (x < y -> dx < dy) /\
    dxy = dx + dy /\
    to_db (RNum 1) = RNum 0 /\
    to_db (RNum (10 * x)) = RNum (10 + dx).
Proof.
  intros Hx Hy; pose proof ln_10_positive as H10.
  assert (P : forall z, 0 < z -> to_db (RNum z) = RNum (10 * (ln z / ln 10))).
  { intros z Hz; unfold to_db, np_log10, log10.
    destruct (Rlt_dec 0 z); [reflexivity | contradiction]. }
  exists (10 * (ln x / ln 10)), (10 * (ln y / ln 10)), (10 * (ln (x * y) / ln 10)).
  split; [now apply P|]; split; [now apply P|].
  split; [apply P; now apply Rmult_lt_0_compat|].
  split; [|split; [|split]].
  - intros Hlt; pose proof (ln_increasing x y Hx Hlt) as Hl.
    apply Rmult_lt_compat_l; [lra|].
    unfold Rdiv; apply Rmult_lt_compat_r; [now apply Rinv_0_lt_compat | exact Hl].
  - rewrite (ln_mult x y Hx Hy); field; lra.
  - rewrite (P 1) by lra; rewrite ln_1; f_equal; field; lra.
  - rewrite (P (10 * x)) by lra.
    rewrite (ln_mult 10 x) by lra; f_equal; field; lra.
Qed.

Lemma to_db_order_and_product_witness :
  exists dx dy dxy : R,
    to_db (RNum 2) = RNum dx /\ to_db (RNum 5) = RNum dy /\
    to_db (RNum (2 * 5)) = RNum dxy /\ dxy = dx + dy.
Proof.
  destruct (@to_db_order_and_product 2 5) as [dx [dy [dxy [H1 [H2 [H3 [_ [H4 _]]]]]]]];
    [lra | lra |].
  exists dx, dy, dxy; repeat split; assumption.
Defined.

(** X14: in the band that is masked and then converted, a cell whose
    mask value is not 0 is NaN, and a cell whose mask value is 0 holds the
    decibels of the filtered value: 10 * log10(v) for a positive v,
    minus infinity for 0, NaN for a negative v. *)
Theorem VV_filtered_masked_db_cells
        (mask : ndarray mask_value) (VV_filtered : ndarray xr)
        (idx : list nat) (i j : nat) (m : mask_value) (v : xr) :
  cell_at mask idx i j = Some m ->
  cell_at VV_filtered idx i j = Some v ->
  (m <> Code 0 ->
   cell_at (VV_filtered_masked_db mask VV_filtered) idx i j = Some RNaN) /\
  (m = Code 0 ->
   cell_at (VV_filtered_masked_db mask VV_filtered) idx i j = Some (to_db v) /\
   (forall x, v = RNum x -> 0 < x -> to_db v = RNum (10 * log10 x)) /\
   (v = RNum 0 -> to_db v = RNegInf) /\
   (forall x, v = RNum x -> x < 0 -> to_db v = RNaN)).
Proof.
  intros Hm Hv; unfold VV_filtered_masked_db, linear_to_db.
  rewrite cell_at_nd_map, (xr_where_mask_cell _ _ _ _ _ Hm Hv); simpl.
  split.
  - intros Hne; destruct m as [c|]; simpl; [|reflexivity].
    destruct (Z.eqb_spec c 0); [congruence | reflexivity].
  - intros ->; simpl; split; [reflexivity|]; split; [|split].
    + intros x -> Hx; unfold to_db, np_log10.
      destruct (Rlt_dec 0 x); [reflexivity | contradiction].
    + intros ->; unfold to_db, np_log10.
      destruct (Rlt_dec 0 0) as [H|_]; [lra|].
      destruct (Req_dec_T 0 0) as [_|H]; [reflexivity | contradiction].
    + intros x -> Hx; unfold to_db, np_log10.
      destruct (Rlt_dec 0 x) as [H|_]; [lra|].
      destruct (Req_dec_T x 0) as [H|_]; [lra | reflexivity].
Qed.

Lemma VV_filtered_masked_db_cells_witness :
  cell_at (VV_filtered_masked_db (Plane [[Code 2; Code 0]])
                                 (Plane [[RNum 3; RNum 100]])) [] 0 0
  = Some RNaN /\
  cell_at (VV_filtered_masked_db (Plane [[Code 2; Code 0]])
                                 (Plane [[RNum 3; RNum 100]])) [] 0 1
  = Some (to_db (RNum 100)).
Proof.
  split.
  - refine (proj1 (VV_filtered_masked_db_cells (Plane [[Code 2; Code 0]])
                     (Plane [[RNum 3; RNum 100]]) [] 0 0
                     (m := Code 2) (v := RNum 3) eq_refl eq_refl) _).
    discriminate.
  - exact (proj1 (proj2 (VV_filtered_masked_db_cells (Plane [[Code 2; Code 0]])
                     (Plane [[RNum 3; RNum 100]]) [] 0 1
                     (m := Code 0) (v := RNum 100) eq_refl eq_refl) eq_refl)).
Defined.

(** What [fillna(0)] makes of a decibel value. *)
Lemma fillna0_to_db_negative (x : R) : x < 0 -> fillna0 (to_db (RNum x)) = RNum 0.
Proof.
  intros Hx; unfold to_db, np_log10.
  destruct (Rlt_dec 0 x) as [H|_]; [lra|].
  destruct (Req_dec_T x 0) as [H|_]; [lra | reflexivity].
Qed.

(** X15: in the notebook that filters the decibel band, every plane is
    filtered after this preparation of its samples: a positive sample x
    enters as 10 * log10(x), a negative or a NaN sample enters as 0 dB,
    and only a sample of 0 (or an infinity) enters as an infinity. *)
Theorem HH_dB_filtered_planes (HH : ndarray xr) :
  exists out : ndarray xr,
    HH_dB_filtered HH = Ok out /\
    (forall idx,
        match slice_at HH idx with
        | Some p =>
            exists q,
              slice_at out idx = Some q /\
              lee_filter (map (map (fun x => fillna0 (to_db x))) p) 7 = Ok q
        | None => slice_at out idx = None
        end) /\
    (forall x, 0 < x -> fillna0 (to_db (RNum x)) = RNum (10 * log10 x)) /\
    (forall x, x < 0 -> fillna0 (to_db (RNum x)) = RNum 0) /\
    fillna0 (to_db RNaN) = RNum 0 /\
    fillna0 (to_db (RNum 0)) = RNegInf.
Proof.
  unfold HH_dB_filtered, apply_lee_filter, linear_to_db.
  destruct (apply_ufunc_total (fun img => lee_filter img 7)
              (fun p => lee_filter_total p 7)
              (nd_map fillna0 (nd_map to_db HH))) as [out Hout].
  exists out; split; [exact Hout|]; split; [|split; [|split; [|split]]].
  - intros idx; pose proof (apply_ufunc_slices _ _ Hout idx) as Hs.
    rewrite !slice_at_nd_map in Hs.
    destruct (slice_at HH idx) as [p|]; simpl in Hs; [|exact Hs].
    destruct Hs as [q [Hq Hs]]; exists q; split; [exact Hs|].
    rewrite map_map in Hq.
    rewrite <- Hq; f_equal; apply map_ext; intros r; now rewrite map_map.
  - intros x Hx; unfold to_db, np_log10.
    destruct (Rlt_dec 0 x); [reflexivity | contradiction].
  - apply fillna0_to_db_negative.
  - reflexivity.
  - unfold to_db, np_log10.
    destruct (Rlt_dec 0 0) as [H|_]; [lra|].
    destruct (Req_dec_T 0 0) as [_|H]; [reflexivity | contradiction].
Qed.

Lemma HH_dB_filtered_planes_witness :
  exists out : ndarray xr,
    HH_dB_filtered (Stack [Plane [[RNum (-1); RNum 100]]]) = Ok out /\
    fillna0 (to_db (RNum (-1))) = RNum 0.
Proof.
  destruct (HH_dB_filtered_planes (Stack [Plane [[RNum (-1); RNum 100]]]))
    as [out [H1 [_ [_ [H2 _]]]]].
  exists out; split; [exact H1 | apply H2; lra].
Defined.

End DecibelAlgebra.
